(** * Spectrum: truth discovery (majority vote, EM-based LCA, variational LCA)

    A shallow embedding of [spectrum/majority.py], [spectrum/judge/lca.py]
    and [spectrum/judge/lca_tf.py], and the properties of the specification
    established on it.

    Conventions of the embedding:
    - identifiers and value codes are naturals (the claims table holds
      non-negative integers);
    - the code is embedded twice over its numbers. The first embedding
      reads floating point numbers as exact rationals extended with one
      non-finite value [NaN] that stands for numpy's [nan] and [inf]: it
      gives the algebra of the formulas, without rounding, overflow or
      underflow. The second embedding computes as the program does, in IEEE
      754 binary64 (numpy) and binary32 (tensorflow) with rounding to nearest
      even, gradual underflow, infinities and nan; the properties that depend
      on rounding, on underflow or on nan (the exit of the EM loop, the sum
      of a vector of probabilities) are settled there;
    - Python dictionaries and pandas Series are finite maps, numpy arrays are
      lists, a Python exception is the [Raise] result;
    - the two honesty vectors of the EM variant live in a store and the
      object's attributes hold references to them, so that the assignment
      [self.theta_old = self.theta_new] aliases. *)

From Stdlib Require Import QArith Lqa SpecFloat.
From stdpp Require Import base option list gmap sorting strings pretty.

Local Open Scope Q_scope.

(** ** Python exceptions and fallible computations *)

Inductive exn := KeyError | IndexError | ValueError.

Inductive result (A : Type) : Type :=
  | Ok (a : A)
  | Raise (e : exn).
Arguments Ok {A} a.
Arguments Raise {A} e.

#[global] Instance result_ret : MRet result := @Ok.
#[global] Instance result_bind : MBind result := fun A B f m =>
  match m with
  | Ok a => f a
  | Raise e => Raise e
  end.

(** [d[k]] on a dictionary or a label-indexed Series. *)
Definition getitem `{Countable K} {V} (d : gmap K V) (k : K) : result V :=
  match d !! k with
  | Some v => Ok v
  | None => Raise KeyError
  end.

(** [a[i]] on an array, with a non-negative index. *)
Definition item {A} (a : list A) (i : nat) : result A :=
  match a !! i with
  | Some x => Ok x
  | None => Raise IndexError
  end.

(** [a[i] = x] on an array, with a non-negative index. *)
Definition setitem {A} (a : list A) (i : nat) (x : A) : result (list A) :=
  if decide (i < length a)%nat then Ok (<[i:=x]> a) else Raise IndexError.

(** [for x in l: s = body x s], stopping at the first exception. *)
Fixpoint for_each {A S} (l : list A) (body : A -> S -> result S) (s : S)
  : result S :=
  match l with
  | [] => Ok s
  | x :: l' => s' ← body x s; for_each l' body s'
  end.

(** [range(n)] *)
Definition range (n : nat) : list nat := seq 0 n.

(** ** Floating point numbers: exact rationals and a non-finite value *)

Inductive float :=
  | Fin (q : Q)
  | NaN.

#[global] Instance float_equiv : Equiv float := fun x y =>
  match x, y with
  | Fin a, Fin b => a == b
  | NaN, NaN => True
  | _, _ => False
  end.

Definition fadd (x y : float) : float :=
  match x, y with
  | Fin a, Fin b => Fin (a + b)
  | _, _ => NaN
  end.

Definition fsub (x y : float) : float :=
  match x, y with
  | Fin a, Fin b => Fin (a - b)
  | _, _ => NaN
  end.

Definition fmul (x y : float) : float :=
  match x, y with
  | Fin a, Fin b => Fin (a * b)
  | _, _ => NaN
  end.

(** Division never raises in numpy: a zero divisor gives a non-finite
    result. *)
Definition fdiv (x y : float) : float :=
  match x, y with
  | Fin a, Fin b => if Qeq_bool b 0 then NaN else Fin (a / b)
  | _, _ => NaN
  end.

(** Comparisons with a non-finite operand are false, as they are with
    [nan]. *)
Definition feqb (x y : float) : bool :=
  match x, y with
  | Fin a, Fin b => Qeq_bool a b
  | _, _ => false
  end.

Definition fltb (x y : float) : bool :=
  match x, y with
  | Fin a, Fin b => negb (Qle_bool b a)
  | _, _ => false
  end.

Definition fleb (x y : float) : bool :=
  match x, y with
  | Fin a, Fin b => Qle_bool a b
  | _, _ => false
  end.

Definition of_nat (n : nat) : float := Fin (inject_Z (Z.of_nat n)).
Definition of_bool (b : bool) : float := if b then Fin 1 else Fin 0.

Declare Scope float_scope.
Delimit Scope float_scope with F.
Bind Scope float_scope with float.
Infix "+" := fadd : float_scope.
Infix "-" := fsub : float_scope.
Infix "*" := fmul : float_scope.
Infix "/" := fdiv : float_scope.

(** ** numpy arrays *)

Abbreviation ndarray := (list float).

(** [np.ones(shape=(n,))] *)
Definition ones (n : nat) : ndarray := replicate n (Fin 1).

(** [np.sum(a)] and [np.prod(a)] *)
Definition np_sum (a : ndarray) : float := foldr fadd (Fin 0) a.
Definition np_prod (a : ndarray) : float := foldr fmul (Fin 1) a.

(** [a op c] for an array and a scalar. *)
Definition scale (op : float -> float -> float) (a : ndarray) (c : float)
  : ndarray := (fun x => op x c) <$> a.

(** [a op b] for two one-dimensional arrays: equal shapes combine
    elementwise, a one-element array is broadcast, any other pair of shapes
    raises [ValueError]. *)
Definition broadcast (op : float -> float -> float) (a b : ndarray)
  : result ndarray :=
  if decide (length a = length b) then Ok (zip_with op a b)
  else match a, b with
       | [x], _ => Ok (op x <$> b)
       | _, [y] => Ok ((fun x => op x y) <$> a)
       | _, _ => Raise ValueError
       end.

(** [np.linalg.norm(x, ord=2) < alpha]. The norm is the square root of the
    sum of squares; on exact numbers [sqrt ss < alpha] is [0 < alpha] and
    [ss < alpha * alpha], which keeps the test inside the rationals. *)
Definition sum_squares (x : ndarray) : float := np_sum ((fun c => c * c)%F <$> x).

Definition norm_lt (x : ndarray) (alpha : float) : bool :=
  fltb (Fin 0) alpha && fltb (sum_squares x) (alpha * alpha)%F.

(** ** The claims table and the pandas operations used on it *)

(** One row of the claims table; the row position is the index of the
    frame, and the [claim_id] that [simpleLCA_EM] adds. *)
Record claim := Claim { source_id : nat; object_id : nat; value : nat }.

Abbreviation DataFrame := (list claim).

(** The distinct labels of a column in ascending order: the index or the
    columns of a pivoted frame, the keys of a sorted group-by. *)
Definition sorted_unique (l : list nat) : list nat :=
  merge_sort le (remove_dups l).

(** [df.nunique()[column]] *)
Definition nunique (l : list nat) : nat := length (remove_dups l).

(** [df.pivot(index, columns, values)] on the cells (index, column, value):
    [ValueError] when an (index, column) pair occurs twice; otherwise the
    dense matrix over the sorted labels, [nan] where there is no cell. *)
Definition pivot (cells : list (nat * nat * nat)) : result (list ndarray) :=
  if decide (NoDup (fst <$> cells)) then
    let table : gmap (nat * nat) nat := list_to_map cells in
    Ok ((fun i =>
           (fun c => match table !! (i, c) with
                     | Some v => of_nat v
                     | None => NaN
                     end) <$> sorted_unique ((snd ∘ fst) <$> cells))
          <$> sorted_unique ((fst ∘ fst) <$> cells))
  else Raise ValueError.

(** [W.fillna(x)] *)
Definition fillna (x : float) (W : list ndarray) : list ndarray :=
  (fun row : ndarray =>
     (fun c => match c with NaN => x | Fin _ => c end) <$> row) <$> W.

(** [W[cond(W)] = x] *)
Definition assign_where (cond : float -> bool) (x : float) (W : list ndarray)
  : list ndarray :=
  (fun row : ndarray => (fun c => if cond c then x else c) <$> row) <$> W.

(** [df.groupby('object_id').max()['value']], a Series indexed by
    [object_id]. *)
Definition groupby_max_value (df : DataFrame) : gmap nat nat :=
  foldr (fun c m =>
           <[object_id c := match m !! object_id c with
                            | Some v => Nat.max (value c) v
                            | None => value c
                            end]> m) ∅ df.

(** [df.groupby('object_id')]: the groups (key, rows) in ascending order of
    their key, the rows of a group in table order. *)
Definition groupby_object_id (df : DataFrame) : list (nat * DataFrame) :=
  (fun o => (o, filter (fun c => object_id c = o) df))
    <$> sorted_unique (object_id <$> df).

(** The order of [sort_values('source_id')] on the rows of a frame. *)
Definition source_le (a b : claim) : Prop := (source_id a <= source_id b)%nat.

#[global] Instance source_le_dec : RelDecision source_le.
Proof. intros a b. unfold source_le. apply _. Defined.

(** [df.sort_values('source_id')]. pandas leaves the relative order of rows
    with equal [source_id] open; the properties below hold for every such
    order. *)
Definition sort_values_source_id (df : DataFrame) : DataFrame :=
  merge_sort source_le df.

(** ** Random variables returned to the caller *)

Inductive RandomVariable :=
  | Bernoulli (probs : float)
  | Categorical (probs : ndarray).

(** The result of running a loop that has no bound of its own: the fuel is
    the number of passes the embedding is allowed to unfold. *)
Inductive outcome (A : Type) : Type :=
  | Returned (a : A)
  | Raised (e : exn)
  | OutOfFuel.
Arguments Returned {A} a.
Arguments Raised {A} e.
Arguments OutOfFuel {A}.

(** ** [class simpleLCA_EM] (spectrum/judge/lca.py) *)

Module simpleLCA_EM.

(** The two arrays allocated by [__init__] for the honesty parameters, and
    the references to them held by the attributes [theta_old] and
    [theta_new]. *)
Inductive ref := Ref0 | Ref1.

Record store := Store { cell0 : ndarray; cell1 : ndarray }.

Definition deref (h : store) (r : ref) : ndarray :=
  match r with
  | Ref0 => cell0 h
  | Ref1 => cell1 h
  end.

Definition update (h : store) (r : ref) (a : ndarray) : store :=
  match r with
  | Ref0 => Store a (cell1 h)
  | Ref1 => Store (cell0 h) a
  end.

Record t := Build {
  claims : DataFrame;
  observation : list ndarray;
  weight : list ndarray;
  n_sources : nat;
  n_objects : nat;
  domain_size : gmap nat nat;
  posterior : gmap nat ndarray;
  prior : gmap nat ndarray;
  value_index : gmap (nat * nat) nat;
  heap : store;
  theta_old : ref;
  theta_new : ref
}.

Definition set_posterior (self : t) (p : gmap nat ndarray) : t :=
  Build (claims self) (observation self) (weight self) (n_sources self)
    (n_objects self) (domain_size self) p (prior self) (value_index self)
    (heap self) (theta_old self) (theta_new self).

Definition set_heap (self : t) (h : store) : t :=
  Build (claims self) (observation self) (weight self) (n_sources self)
    (n_objects self) (domain_size self) (posterior self) (prior self)
    (value_index self) h (theta_old self) (theta_new self).

Definition set_theta_old (self : t) (r : ref) : t :=
  Build (claims self) (observation self) (weight self) (n_sources self)
    (n_objects self) (domain_size self) (posterior self) (prior self)
    (value_index self) (heap self) r (theta_new self).

Definition compute_observation_matrix (df : DataFrame) : result (list ndarray) :=
  B ← pivot (imap (fun claim_id c => (source_id c, claim_id, value c)) df);
  Ok (fillna (Fin (-1)) B).

Definition compute_weight_matrix (df : DataFrame) : result (list ndarray) :=
  W ← pivot ((fun c => (source_id c, object_id c, value c)) <$> df);
  let W := fillna (Fin (-1)) W in
  let W := assign_where (fun c => fleb (Fin 0) c) (Fin 1) W in
  let W := assign_where (fun c => fltb c (Fin 0)) (Fin 0) W in
  Ok W.

Definition _compute_prob_desc (df : DataFrame) : nat * nat * gmap nat nat :=
  let n_sources := nunique (source_id <$> df) in
  let n_objects := nunique (object_id <$> df) in
  let domain_size := (fun m => m + 1)%nat <$> groupby_max_value df in
  (n_sources, n_objects, domain_size).

(** [__init__(self, claims)] *)
Definition init (df : DataFrame) : result t :=
  observation ← compute_observation_matrix df;
  weight ← compute_weight_matrix df;
  let '(n_sources, n_objects, domain_size) := _compute_prob_desc df in
  prior ← for_each (range n_objects)
             (fun o (prior : gmap nat ndarray) =>
                d ← getitem domain_size o;
                Ok (<[o := scale fdiv (ones d) (of_nat d)]> prior)) ∅;
  let value_index :=
    foldl (fun (m : gmap (nat * nat) nat) c =>
             <[(source_id c, object_id c) := value c]> m) ∅ df in
  Ok {| claims := df; observation := observation; weight := weight;
        n_sources := n_sources; n_objects := n_objects;
        domain_size := domain_size; posterior := ∅; prior := prior;
        value_index := value_index;
        heap := Store (fmul (Fin 0.5) <$> ones n_sources)
                      (fmul (Fin 0.99) <$> ones n_sources);
        theta_old := Ref0; theta_new := Ref1 |}.

(** [None] is Python's [None]. *)
Definition get_value (self : t) (s_id o_id : nat) : option nat :=
  value_index self !! (s_id, o_id).

Definition compute_responsibility (self : t) (o_id v : nat) : result float :=
  resp ← for_each (range (n_sources self))
           (fun s_id resp =>
              row ← item (weight self) s_id;
              w ← item row o_id;
              if feqb w (Fin 1) then
                if bool_decide (get_value self s_id o_id = Some v) then
                  th ← item (deref (heap self) (theta_old self)) s_id;
                  setitem resp s_id th
                else
                  th ← item (deref (heap self) (theta_old self)) s_id;
                  d ← getitem (domain_size self) o_id;
                  setitem resp s_id ((Fin 1 - th) / of_nat d)%F
              else Ok resp)
           (ones (n_sources self));
  Ok (np_prod resp).

Definition compute_joint (self : t) (o_id : nat) : result ndarray :=
  d ← getitem (domain_size self) o_id;
  let responsibility := ones d in
  responsibility ← for_each (range (length responsibility))
                     (fun v responsibility =>
                        r ← compute_responsibility self o_id v;
                        setitem responsibility v r)
                     responsibility;
  p ← getitem (prior self) o_id;
  broadcast fmul p responsibility.

Definition e_step (self : t) : result t :=
  for_each (range (n_objects self))
    (fun o self =>
       joint_prob ← compute_joint self o;
       Ok (set_posterior self
             (<[o := scale fdiv joint_prob (np_sum joint_prob)]> (posterior self))))
    self.

Definition compute_honest (self : t) (s_id : nat) : result t :=
  row ← item (weight self) s_id;
  let number_of_objects := np_sum row in
  honest ← for_each (range (n_objects self))
             (fun o honest =>
                d ← getitem (domain_size self) o;
                for_each (range d)
                  (fun v honest =>
                     row ← item (weight self) s_id;
                     w ← item row o;
                     let mask :=
                       (w * of_bool (bool_decide (get_value self s_id o = Some v)))%F in
                     post ← getitem (posterior self) o;
                     p ← item post v;
                     Ok (honest + p * mask)%F)
                  honest)
             (Fin 0);
  a ← setitem (deref (heap self) (theta_new self)) s_id
        (honest / number_of_objects)%F;
  Ok (set_heap self (update (heap self) (theta_new self) a)).

Definition m_step (self : t) : result t :=
  for_each (range (n_sources self)) (fun s self => compute_honest self s) self.

Definition _compute_trust (self : t) : result (gmap nat RandomVariable) :=
  for_each (range (n_sources self))
    (fun s (trust : gmap nat RandomVariable) =>
       th ← item (deref (heap self) (theta_old self)) s;
       Ok (<[s := Bernoulli th]> trust)) ∅.

Definition _compute_truth (self : t) : result (gmap nat RandomVariable) :=
  for_each (range (n_objects self))
    (fun o (truth : gmap nat RandomVariable) =>
       p ← getitem (posterior self) o;
       Ok (<[o := Categorical p]> truth)) ∅.

(** The [while (True)] loop of [discover]; the step counter only feeds the
    progress message and is left out. *)
Fixpoint em_loop (fuel : nat) (alpha : float) (self : t) : outcome t :=
  match fuel with
  | O => OutOfFuel
  | S fuel =>
      match e_step self with
      | Raise e => Raised e
      | Ok self =>
          match m_step self with
          | Raise e => Raised e
          | Ok self =>
              match broadcast fsub (deref (heap self) (theta_old self))
                      (deref (heap self) (theta_new self)) with
              | Raise e => Raised e
              | Ok d =>
                  if norm_lt d alpha then Returned self
                  else em_loop fuel alpha (set_theta_old self (theta_new self))
              end
          end
      end
  end.

(** [discover(self, alpha)]: the returned tuple, and the object as the call
    leaves it. *)
Definition discover (fuel : nat) (alpha : float) (self : t)
  : outcome (gmap nat RandomVariable * gmap nat RandomVariable * t) :=
  match em_loop fuel alpha self with
  | Returned self =>
      match _compute_trust self with
      | Raise e => Raised e
      | Ok trust =>
          match _compute_truth self with
          | Raise e => Raised e
          | Ok truth => Returned (trust, truth, self)
          end
      end
  | Raised e => Raised e
  | OutOfFuel => OutOfFuel
  end.

End simpleLCA_EM.

(** ** Majority vote (spectrum/majority.py) *)

(** The order of [value_counts] on its entries (value, count). *)
Definition count_ge (a b : nat * nat) : Prop := (b.2 <= a.2)%nat.

#[global] Instance count_ge_dec : RelDecision count_ge.
Proof. intros a b. unfold count_ge. apply _. Defined.

(** [x.value_counts()]: one entry (value, count) per distinct value, by
    descending count; values with equal counts stay in the order of their
    first appearance (pandas leaves the order of ties open; the properties
    below do not depend on it). *)
Definition value_counts (x : list nat) : list (nat * nat) :=
  merge_sort count_ge
    ((fun v => (v, length (filter (fun w => w = v) x)))
       <$> reverse (remove_dups (reverse x))).

(** [s.idxmax()]: the label of the first entry that holds the maximum;
    [ValueError] on an empty Series. *)
Definition idxmax (s : list (nat * nat)) : result nat :=
  match s with
  | [] => Raise ValueError
  | e :: s' =>
      Ok (foldl (fun best e' => if decide (best.2 < e'.2)%nat then e' else best)
            e s').1
  end.

Definition elect (x : list nat) : result nat := idxmax (value_counts x).

(** The returned frame, one row (object_id, value) per group, the groups in
    ascending order of their key. *)
Definition majority_vote (claims : DataFrame) : result (list (nat * nat)) :=
  mapM (fun o =>
          v ← elect (value <$> filter (fun c => object_id c = o) claims);
          Ok (o, v))
       (sorted_unique (object_id <$> claims)).

(** ** The variational variants *)

(** A [tf.Variable]: its name and its initial value. *)
Record tf_Variable := TfVariable { var_name : string; initial_value : ndarray }.

(** A model procedure, as the training engine receives it: the method
    [model] or [mean_field_model] of the object, which declares named random
    variables when called, or such a procedure with some of its variables
    fixed to observed values. *)
Inductive program :=
  | Model
  | MeanFieldModel
  | Observed (p : program) (obs : gmap string nat).

(** Modelled from the spec: [utils.observe] is imported by both modules but
    is not among the sources. Following section 4.6, [observe(model, obs)]
    returns the same model in which every random variable whose name is a key
    of the observation mapping is fixed to the given value. *)
Definition observe (model : program) (obs : gmap string nat) : program :=
  Observed model obs.

(** Calls that leave the module: [utils.observe], the constructor of the
    training engine [BBVI] and its [train] method. *)
Inductive call :=
  | CallObserve (p : program) (obs : gmap string nat)
  | CallBBVI (p q : program) (p_vars q_vars : list tf_Variable)
  | CallTrain.

(** [tf.one_hot(indices, depth)] *)
Definition one_hot (indices : list nat) (depth : nat) : list ndarray :=
  (fun i => (fun j => of_bool (bool_decide (i = j))) <$> range depth) <$> indices.

(** [tf.reduce_sum(x, axis=0)] of a matrix with rows of length [depth]. *)
Definition reduce_sum_axis0 (depth : nat) (x : list ndarray) : ndarray :=
  foldr (zip_with fadd) (replicate depth (Fin 0)) x.

(** *** [class simpleLCA_VI] (spectrum/judge/lca.py): the parts the
    specification's properties refer to *)

Module simpleLCA_VI.

(** Modelled from the spec: the class [BBVI] of [spectrum.inference.bbvi]
    is not among the sources. Following section 4.7, an engine is built from
    the observed model [p], the variational model [q] and their trainable
    variables, and [train] optimises them; only the construction and the fact
    of having been trained are kept. *)
Record engine := Engine {
  bbvi_p : program; bbvi_q : program;
  bbvi_p_vars : list tf_Variable; bbvi_q_vars : list tf_Variable;
  bbvi_trained : bool
}.

(** The attributes that [discover] reads and writes. *)
Record t := Build {
  observed_model : program;
  model_vars : list tf_Variable;
  latent_vars : list tf_Variable;
  bbvi : option engine
}.

(** [domain_size - 1] is truncated at zero; it differs from Python's only for
    a domain of size zero, where the vector is empty whatever the divisor. *)
Definition _build_claim_probs (honest_prob : float) (domain_size truth : nat)
  : ndarray :=
  let mask := reduce_sum_axis0 domain_size (one_hot [truth] domain_size) in
  let other := zip_with fsub (ones domain_size) mask in
  let probs :=
    zip_with fadd
      (zip_with fmul (scale fmul mask honest_prob) (ones domain_size))
      (zip_with fmul
         (scale fmul other ((Fin 1 - honest_prob) / of_nat (domain_size - 1))%F)
         (ones domain_size)) in
  probs.

(** [discover(self, ...)]: constructs the engine, trains it, and returns
    nothing. The result is the object and the calls made. *)
Definition discover (self : t) : t * list call :=
  (Build (observed_model self) (model_vars self) (latent_vars self)
     (Some (Engine (observed_model self) MeanFieldModel (model_vars self)
              (latent_vars self) true)),
   [CallBBVI (observed_model self) MeanFieldModel (model_vars self)
      (latent_vars self); CallTrain]).

(** The attributes that [build_ds] sets. *)
Record ds := DS {
  n_sources : nat;
  n_objects : nat;
  domain_size : gmap nat nat;
  domsize_to_objects : gmap nat (list nat);
  object_to_sources : gmap nat (list nat);
  to_batch_idx : gmap nat nat;
  obs : gmap string (list nat)
}.

Definition _compute_prob_desc (claims : DataFrame) : nat * nat * gmap nat nat :=
  let n_sources := nunique (source_id <$> claims) in
  let n_objects := nunique (object_id <$> claims) in
  let domain_size := (fun m => m + 1)%nat <$> groupby_max_value claims in
  (n_sources, n_objects, domain_size).

Definition compute_observation (claims : DataFrame) : gmap string (list nat) :=
  foldl (fun (obs : gmap string (list nat)) (data : nat * DataFrame) =>
           <["x_" +:+ pretty data.1 := value <$> sort_values_source_id data.2]> obs)
        ∅ (groupby_object_id claims).

(** [domain_df] is the frame of the rows (object_id, domain_size), one per
    object, in ascending order of [object_id]. *)
Definition build_domsize_to_objects (claims : DataFrame) : gmap nat (list nat) :=
  let domain_df : list (nat * nat) :=
    omap (fun o => (fun m => (o, (m + 1)%nat)) <$> groupby_max_value claims !! o)
         (sorted_unique (object_id <$> claims)) in
  let domsize_to_objects :=
    foldl (fun (d : gmap nat (list nat)) k =>
             <[k := merge_sort le (fst <$> filter (fun r => r.2 = k) domain_df)]> d)
          ∅ (sorted_unique (snd <$> domain_df)) in
  merge_sort le <$> domsize_to_objects.

Definition build_object_to_sources (claims : DataFrame) : gmap nat (list nat) :=
  foldl (fun (object_to_sources : gmap nat (list nat)) (data : nat * DataFrame) =>
           <[data.1 := merge_sort le (source_id <$> data.2)]> object_to_sources)
        ∅ (groupby_object_id claims).

(** [_compute_rank] and [compute_batch_idx] run inside [build_ds], on the
    attributes set before them. *)
Definition _compute_rank (domain_size : gmap nat nat)
    (domsize_to_objects : gmap nat (list nat)) (o_id : nat) : result nat :=
  d ← getitem domain_size o_id;
  objects ← getitem domsize_to_objects d;
  Ok (foldl (fun rank o => if decide (o < o_id)%nat then (rank + 1)%nat else rank)
        0%nat objects).

Definition compute_batch_idx (n_objects : nat) (domain_size : gmap nat nat)
    (domsize_to_objects : gmap nat (list nat)) : result (gmap nat nat) :=
  for_each (range n_objects)
    (fun o_id (to_batch_idx : gmap nat nat) =>
       rank ← _compute_rank domain_size domsize_to_objects o_id;
       Ok (<[o_id := rank]> to_batch_idx)) ∅.

Definition build_ds (claims : DataFrame) : result ds :=
  let '(n_sources, n_objects, domain_size) := _compute_prob_desc claims in
  let domsize_to_objects := build_domsize_to_objects claims in
  let object_to_sources := build_object_to_sources claims in
  to_batch_idx ← compute_batch_idx n_objects domain_size domsize_to_objects;
  let obs := compute_observation claims in
  Ok {| n_sources := n_sources; n_objects := n_objects;
        domain_size := domain_size; domsize_to_objects := domsize_to_objects;
        object_to_sources := object_to_sources; to_batch_idx := to_batch_idx;
        obs := obs |}.

Section observed_probs.

(** [tf.math.sigmoid] is not a rational function: it stays a parameter, and
    so does the variable [honest_logits_p] that [init_vars] creates with one
    entry per source. An index outside the variable is an error of
    tensorflow, rendered as [IndexError]. *)
Variable sigmoid : float -> float.
Variable honest_logits_p : ndarray.

Definition compute_observed_probs (self : ds) (o_id truth : nat)
  : result (list ndarray) :=
  domsize ← getitem (domain_size self) o_id;
  sources ← getitem (object_to_sources self) o_id;
  for_each sources
    (fun s (observed_probs : list ndarray) =>
       logit ← item honest_logits_p s;
       Ok (observed_probs ++ [_build_claim_probs (sigmoid logit) domsize truth]))
    [].

End observed_probs.

End simpleLCA_VI.

(** *** [class LCA] (spectrum/judge/lca_tf.py) *)

Module LCA.

Record t := Build {
  claims : DataFrame;
  n_sources : nat;
  n_objects : nat;
  domain_sizes : gmap nat nat;
  trainable_variables : list tf_Variable;
  honest_probs_p : option tf_Variable;
  object_probs_p : list tf_Variable;
  honest_probs_q : option tf_Variable;
  object_probs_q : list tf_Variable;
  observation : gmap string nat;
  observed_model : option program
}.

(** An object on which [discover] has not been called yet. *)
Definition new : t := Build [] 0 0 ∅ [] None [] None [] ∅ None.

Definition _compute_prob_desc (claims : DataFrame) : nat * nat * gmap nat nat :=
  let n_sources := nunique (source_id <$> claims) in
  let n_objects := nunique (object_id <$> claims) in
  let domain_sizes := (fun m => m + 1)%nat <$> groupby_max_value claims in
  (n_sources, n_objects, domain_sizes).

(** [_register(variable)]: a list is concatenated, a single variable is
    appended. *)
Definition _register (trainable : list tf_Variable)
    (variable : tf_Variable + list tf_Variable) : list tf_Variable :=
  match variable with
  | inr l => trainable ++ l
  | inl v => trainable ++ [v]
  end.

(** The per-object variables
    [tf.Variable(tf.ones(domain_sizes[m]) / domain_sizes[m], name)] for [m]
    in [domain_sizes.index]. *)
Definition object_probs (domain_sizes : gmap nat nat) (index : list nat)
    (suffix : string) : result (list tf_Variable) :=
  mapM (fun m =>
          d ← getitem domain_sizes m;
          Ok (TfVariable ("truth_prob_" +:+ pretty m +:+ suffix)
                (scale fdiv (ones d) (of_nat d))))
       index.

Definition _initialize (self : t) : result t :=
  let '(n_sources, n_objects, domain_sizes) := _compute_prob_desc (claims self) in
  let index := sorted_unique (object_id <$> claims self) in
  let trainable_variables := [] in
  let honest_probs_p :=
    TfVariable "honest_probs_p" (scale fmul (ones n_sources) (Fin 0.5)) in
  let trainable_variables := _register trainable_variables (inl honest_probs_p) in
  object_probs_p ← object_probs domain_sizes index "_p";
  let trainable_variables := _register trainable_variables (inr object_probs_p) in
  let honest_probs_q :=
    TfVariable "honest_probs_q" (scale fmul (ones n_sources) (Fin 0.5)) in
  let trainable_variables := _register trainable_variables (inl honest_probs_q) in
  object_probs_q ← object_probs domain_sizes index "_q";
  let trainable_variables := _register trainable_variables (inr object_probs_q) in
  Ok (Build (claims self) n_sources n_objects domain_sizes trainable_variables
        (Some honest_probs_p) object_probs_p (Some honest_probs_q) object_probs_q
        (observation self) (observed_model self)).

Definition _make_observation (self : t) : gmap string nat :=
  foldl (fun (observation : gmap string nat) (c : nat * claim) =>
           <["x_claim_" +:+ pretty c.1 := value c.2]> observation)
        ∅ (imap (fun c row => (c, row)) (claims self)).

Definition _build_claim_probs (honest_prob : float) (domain_size truth : nat)
  : ndarray :=
  let mask := reduce_sum_axis0 domain_size (one_hot [truth] domain_size) in
  let other := zip_with fsub (ones domain_size) mask in
  let probs :=
    zip_with fadd
      (zip_with fmul (scale fmul mask honest_prob) (ones domain_size))
      (zip_with fmul
         (scale fmul other ((Fin 1 - honest_prob) / of_nat (domain_size - 1))%F)
         (ones domain_size)) in
  probs.

(** [discover(self, claims, auxiliary_data=None)]: the returned tuple, the
    object as the call leaves it, and the calls made. *)
Definition discover (self : t) (claims : DataFrame) (auxiliary_data : option unit)
  : result (gmap nat RandomVariable * gmap nat RandomVariable * t * list call) :=
  let self := Build claims (n_sources self) (n_objects self) (domain_sizes self)
                (trainable_variables self) (honest_probs_p self)
                (object_probs_p self) (honest_probs_q self) (object_probs_q self)
                (observation self) (observed_model self) in
  self ← _initialize self;
  let self := Build (LCA.claims self) (n_sources self) (n_objects self)
                (domain_sizes self) (trainable_variables self)
                (honest_probs_p self) (object_probs_p self)
                (honest_probs_q self) (object_probs_q self)
                (_make_observation self) (observed_model self) in
  let self := Build (LCA.claims self) (n_sources self) (n_objects self)
                (domain_sizes self) (trainable_variables self)
                (honest_probs_p self) (object_probs_p self)
                (honest_probs_q self) (object_probs_q self)
                (observation self) (Some (observe Model (observation self))) in
  let truth : gmap nat RandomVariable := ∅ in
  let trust : gmap nat RandomVariable := ∅ in
  Ok (truth, trust, self, [CallObserve Model (observation self)]).

(** A random variable that a model procedure declares when it runs:
    [ed.Bernoulli(name, probs)] or [ed.Categorical(name, probs)]. *)
Inductive declaration :=
  | DeclBernoulli (name : string) (probs : ndarray)
  | DeclCategorical (name : string) (probs : ndarray).

Definition decl_name (d : declaration) : string :=
  match d with
  | DeclBernoulli name _ => name
  | DeclCategorical name _ => name
  end.

(** [domain_sizes.index]: the labels of the Series, ascending. *)
Definition series_index (s : gmap nat nat) : list nat :=
  merge_sort le (map_to_list s).*1.

Section procedures.

(** [model] and [mean_field_model] are run on an object that [_initialize]
    has set up. A run declares random variables, in order; the result is the
    list of the declarations. [value_of] gives the value that the variable of
    a given name takes in the run (the [.value] that the claim probabilities
    read); a variable stands for its current value; the honesty variable,
    an attribute that exists from [_initialize] on, is an argument. An index
    outside a variable is an error of tensorflow, rendered as [IndexError]. *)
Variable value_of : string -> nat.

Definition model (self : t) (honest_probs_p : tf_Variable)
  : result (list declaration) :=
  let trace := [DeclBernoulli "z_trusts" (initial_value honest_probs_p)] in
  r ← for_each (series_index (domain_sizes self))
        (fun m (st : list declaration * list string) =>
           probs ← item (object_probs_p self) m;
           Ok (st.1 ++ [DeclCategorical ("z_truth_" +:+ pretty m)
                          (initial_value probs)],
               st.2 ++ ["z_truth_" +:+ pretty m]))
        (trace, []);
  let '(trace, z_truths) := r in
  r ← for_each (imap (fun c row => (c, row)) (claims self))
        (fun (c : nat * claim) (st : list declaration * list string) =>
           let s := source_id c.2 in
           let m := object_id c.2 in
           z_truth_m ← item z_truths m;
           honest_prob ← item (initial_value honest_probs_p) s;
           domain_size ← getitem (domain_sizes self) m;
           let probs := _build_claim_probs honest_prob domain_size
                          (value_of z_truth_m) in
           Ok (st.1 ++ [DeclCategorical ("x_claim_" +:+ pretty c.1) probs],
               st.2 ++ ["x_claim_" +:+ pretty c.1]))
        (trace, []);
  Ok r.1.

Definition mean_field_model (self : t) (honest_probs_q : tf_Variable)
  : result (list declaration) :=
  let trace := [DeclBernoulli "z_trusts" (initial_value honest_probs_q)] in
  for_each (series_index (domain_sizes self))
    (fun m (trace : list declaration) =>
       probs ← item (object_probs_q self) m;
       Ok (trace ++ [DeclCategorical ("z_truth_" +:+ pretty m)
                       (initial_value probs)]))
    trace.

End procedures.

End LCA.

(** ** The same code over IEEE 754 binary floating point numbers *)

(** [spec_float] and the operations of the Standard Library's [SpecFloat]
    are the arithmetic of IEEE 754: rounding to nearest even, gradual
    underflow, signed zeros, infinities and one nan. A decimal literal of the
    source is the correctly rounded quotient of two integers. *)

(** binary64: the [float64] of numpy and the [float] of Python. *)
Module B64.

Definition prec : Z := 53.
Definition emax : Z := 1024.

Definition add : spec_float -> spec_float -> spec_float := SFadd prec emax.
Definition sub : spec_float -> spec_float -> spec_float := SFsub prec emax.
Definition mul : spec_float -> spec_float -> spec_float := SFmul prec emax.
Definition div : spec_float -> spec_float -> spec_float := SFdiv prec emax.
Definition sqrt : spec_float -> spec_float := SFsqrt prec emax.

Definition of_Z (z : Z) : spec_float := binary_normalize prec emax z 0 false.
Definition of_nat (n : nat) : spec_float := of_Z (Z.of_nat n).
Definition of_bool (b : bool) : spec_float := if b then of_Z 1 else of_Z 0.

(** The literal [n / d], for instance [0.5] as [lit 1 2]. *)
Definition lit (n d : Z) : spec_float := div (of_Z n) (of_Z d).

Definition is_finite (x : spec_float) : bool :=
  match x with
  | S754_zero _ | S754_finite _ _ _ => true
  | S754_infinity _ | S754_nan => false
  end.

End B64.

(** binary32: the [float32] of tensorflow's tensors and variables. *)
Module B32.

Definition prec : Z := 24.
Definition emax : Z := 128.

Definition add : spec_float -> spec_float -> spec_float := SFadd prec emax.
Definition sub : spec_float -> spec_float -> spec_float := SFsub prec emax.
Definition mul : spec_float -> spec_float -> spec_float := SFmul prec emax.
Definition div : spec_float -> spec_float -> spec_float := SFdiv prec emax.

Definition of_Z (z : Z) : spec_float := binary_normalize prec emax z 0 false.
Definition of_bool (b : bool) : spec_float := if b then of_Z 1 else of_Z 0.

Definition lit (n d : Z) : spec_float := div (of_Z n) (of_Z d).

Definition valid (x : spec_float) : bool := valid_binary prec emax x.

Definition is_finite (x : spec_float) : bool :=
  match x with
  | S754_zero _ | S754_finite _ _ _ => true
  | S754_infinity _ | S754_nan => false
  end.

End B32.

(** The exact value of a finite floating point number. *)
Definition SF2Q (x : spec_float) : Q :=
  match x with
  | S754_finite s m e =>
      (if s then -1 else 1) * inject_Z (Zpos m)
      * (if (0 <=? e)%Z then inject_Z (2 ^ e) else / inject_Z (2 ^ (- e)))
  | _ => 0
  end.

(** numpy arrays of binary64 numbers. [np.sum] and [np.prod] reduce from the
    first element on; numpy adds the elements of longer arrays in pairwise
    blocks, and [np.linalg.norm] takes its sum of squares from a dot product:
    the properties below hold for every order of the additions (they concern
    sums of zeros and sums that hold a nan). *)
Module np64.

Definition ones (n : nat) : list spec_float := replicate n (B64.of_Z 1).

Definition sum (a : list spec_float) : spec_float :=
  foldl B64.add (S754_zero false) a.

Definition prod (a : list spec_float) : spec_float :=
  foldl B64.mul (B64.of_Z 1) a.

Definition scale (op : spec_float -> spec_float -> spec_float)
    (a : list spec_float) (c : spec_float) : list spec_float :=
  (fun x => op x c) <$> a.

Definition broadcast (op : spec_float -> spec_float -> spec_float)
    (a b : list spec_float) : result (list spec_float) :=
  if decide (length a = length b) then Ok (zip_with op a b)
  else match a, b with
       | [x], _ => Ok (op x <$> b)
       | _, [y] => Ok ((fun x => op x y) <$> a)
       | _, _ => Raise ValueError
       end.

(** [np.linalg.norm(x, ord=2)] *)
Definition norm (x : list spec_float) : spec_float :=
  B64.sqrt (sum (zip_with B64.mul x x)).

Definition pivot (cells : list (nat * nat * nat))
  : result (list (list spec_float)) :=
  if decide (NoDup (fst <$> cells)) then
    let table : gmap (nat * nat) nat := list_to_map cells in
    let index := sorted_unique ((fst ∘ fst) <$> cells) in
    let columns := sorted_unique ((snd ∘ fst) <$> cells) in
    Ok ((fun i =>
           (fun c => match table !! (i, c) with
                     | Some v => B64.of_nat v
                     | None => S754_nan
                     end) <$> columns) <$> index)
  else Raise ValueError.

Definition fillna (x : spec_float) (W : list (list spec_float))
  : list (list spec_float) :=
  (fun row : list spec_float =>
     (fun c => match c with S754_nan => x | _ => c end) <$> row) <$> W.

Definition assign_where (cond : spec_float -> bool) (x : spec_float)
    (W : list (list spec_float)) : list (list spec_float) :=
  (fun row : list spec_float => (fun c => if cond c then x else c) <$> row) <$> W.

End np64.

(** [class simpleLCA_EM] over binary64 numbers: the definitions of
    [simpleLCA_EM] above, with the arithmetic of numpy. *)
Module simpleLCA_EM_b64.

Inductive ref := Ref0 | Ref1.

Record store := Store { cell0 : list spec_float; cell1 : list spec_float }.

Definition deref (h : store) (r : ref) : list spec_float :=
  match r with
  | Ref0 => cell0 h
  | Ref1 => cell1 h
  end.

Definition update (h : store) (r : ref) (a : list spec_float) : store :=
  match r with
  | Ref0 => Store a (cell1 h)
  | Ref1 => Store (cell0 h) a
  end.

Inductive RandomVariable :=
  | Bernoulli (probs : spec_float)
  | Categorical (probs : list spec_float).

Record t := Build {
  claims : DataFrame;
  observation : list (list spec_float);
  weight : list (list spec_float);
  n_sources : nat;
  n_objects : nat;
  domain_size : gmap nat nat;
  posterior : gmap nat (list spec_float);
  prior : gmap nat (list spec_float);
  value_index : gmap (nat * nat) nat;
  heap : store;
  theta_old : ref;
  theta_new : ref
}.

Definition set_posterior (self : t) (p : gmap nat (list spec_float)) : t :=
  Build (claims self) (observation self) (weight self) (n_sources self)
    (n_objects self) (domain_size self) p (prior self) (value_index self)
    (heap self) (theta_old self) (theta_new self).

Definition set_heap (self : t) (h : store) : t :=
  Build (claims self) (observation self) (weight self) (n_sources self)
    (n_objects self) (domain_size self) (posterior self) (prior self)
    (value_index self) h (theta_old self) (theta_new self).

Definition set_theta_old (self : t) (r : ref) : t :=
  Build (claims self) (observation self) (weight self) (n_sources self)
    (n_objects self) (domain_size self) (posterior self) (prior self)
    (value_index self) (heap self) r (theta_new self).

Definition compute_observation_matrix (df : DataFrame)
  : result (list (list spec_float)) :=
  B ← np64.pivot (imap (fun claim_id c => (source_id c, claim_id, value c)) df);
  Ok (np64.fillna (B64.of_Z (-1)) B).

Definition compute_weight_matrix (df : DataFrame)
  : result (list (list spec_float)) :=
  W ← np64.pivot ((fun c => (source_id c, object_id c, value c)) <$> df);
  let W := np64.fillna (B64.of_Z (-1)) W in
  let W := np64.assign_where (fun c => SFleb (B64.of_Z 0) c) (B64.of_Z 1) W in
  let W := np64.assign_where (fun c => SFltb c (B64.of_Z 0)) (B64.of_Z 0) W in
  Ok W.

Definition _compute_prob_desc (df : DataFrame) : nat * nat * gmap nat nat :=
  let n_sources := nunique (source_id <$> df) in
  let n_objects := nunique (object_id <$> df) in
  let domain_size := (fun m => m + 1)%nat <$> groupby_max_value df in
  (n_sources, n_objects, domain_size).

Definition init (df : DataFrame) : result t :=
  observation ← compute_observation_matrix df;
  weight ← compute_weight_matrix df;
  let '(n_sources, n_objects, domain_size) := _compute_prob_desc df in
  prior ← for_each (range n_objects)
             (fun o (prior : gmap nat (list spec_float)) =>
                d ← getitem domain_size o;
                Ok (<[o := np64.scale B64.div (np64.ones d) (B64.of_nat d)]> prior)) ∅;
  let value_index :=
    foldl (fun (m : gmap (nat * nat) nat) c =>
             <[(source_id c, object_id c) := value c]> m) ∅ df in
  Ok {| claims := df; observation := observation; weight := weight;
        n_sources := n_sources; n_objects := n_objects;
        domain_size := domain_size; posterior := ∅; prior := prior;
        value_index := value_index;
        heap := Store (B64.mul (B64.lit 1 2) <$> np64.ones n_sources)
                      (B64.mul (B64.lit 99 100) <$> np64.ones n_sources);
        theta_old := Ref0; theta_new := Ref1 |}.

Definition get_value (self : t) (s_id o_id : nat) : option nat :=
  value_index self !! (s_id, o_id).

Definition compute_responsibility (self : t) (o_id v : nat) : result spec_float :=
  resp ← for_each (range (n_sources self))
           (fun s_id resp =>
              row ← item (weight self) s_id;
              w ← item row o_id;
              if SFeqb w (B64.of_Z 1) then
                if bool_decide (get_value self s_id o_id = Some v) then
                  th ← item (deref (heap self) (theta_old self)) s_id;
                  setitem resp s_id th
                else
                  th ← item (deref (heap self) (theta_old self)) s_id;
                  d ← getitem (domain_size self) o_id;
                  setitem resp s_id
                    (B64.div (B64.sub (B64.of_Z 1) th) (B64.of_nat d))
              else Ok resp)
           (np64.ones (n_sources self));
  Ok (np64.prod resp).

Definition compute_joint (self : t) (o_id : nat) : result (list spec_float) :=
  d ← getitem (domain_size self) o_id;
  let responsibility := np64.ones d in
  responsibility ← for_each (range (length responsibility))
                     (fun v responsibility =>
                        r ← compute_responsibility self o_id v;
                        setitem responsibility v r)
                     responsibility;
  p ← getitem (prior self) o_id;
  np64.broadcast B64.mul p responsibility.

Definition e_step (self : t) : result t :=
  for_each (range (n_objects self))
    (fun o self =>
       joint_prob ← compute_joint self o;
       Ok (set_posterior self
             (<[o := np64.scale B64.div joint_prob (np64.sum joint_prob)]>
                (posterior self))))
    self.

Definition compute_honest (self : t) (s_id : nat) : result t :=
  row ← item (weight self) s_id;
  let number_of_objects := np64.sum row in
  honest ← for_each (range (n_objects self))
             (fun o honest =>
                d ← getitem (domain_size self) o;
                for_each (range d)
                  (fun v honest =>
                     row ← item (weight self) s_id;
                     w ← item row o;
                     let mask :=
                       B64.mul w
                         (B64.of_bool (bool_decide (get_value self s_id o = Some v))) in
                     post ← getitem (posterior self) o;
                     p ← item post v;
                     Ok (B64.add honest (B64.mul p mask)))
                  honest)
             (B64.of_Z 0);
  a ← setitem (deref (heap self) (theta_new self)) s_id
        (B64.div honest number_of_objects);
  Ok (set_heap self (update (heap self) (theta_new self) a)).

Definition m_step (self : t) : result t :=
  for_each (range (n_sources self)) (fun s self => compute_honest self s) self.

Definition _compute_trust (self : t) : result (gmap nat RandomVariable) :=
  for_each (range (n_sources self))
    (fun s (trust : gmap nat RandomVariable) =>
       th ← item (deref (heap self) (theta_old self)) s;
       Ok (<[s := Bernoulli th]> trust)) ∅.

Definition _compute_truth (self : t) : result (gmap nat RandomVariable) :=
  for_each (range (n_objects self))
    (fun o (truth : gmap nat RandomVariable) =>
       p ← getitem (posterior self) o;
       Ok (<[o := Categorical p]> truth)) ∅.

(** [diff = np.linalg.norm(self.theta_old - self.theta_new, ord=2)] *)
Definition diff (self : t) : result spec_float :=
  d ← np64.broadcast B64.sub (deref (heap self) (theta_old self))
        (deref (heap self) (theta_new self));
  Ok (np64.norm d).

Fixpoint em_loop (fuel : nat) (alpha : spec_float) (self : t) : outcome t :=
  match fuel with
  | O => OutOfFuel
  | S fuel =>
      match e_step self with
      | Raise e => Raised e
      | Ok self =>
          match m_step self with
          | Raise e => Raised e
          | Ok self =>
              match diff self with
              | Raise e => Raised e
              | Ok d =>
                  if SFltb d alpha then Returned self
                  else em_loop fuel alpha (set_theta_old self (theta_new self))
              end
          end
      end
  end.

Definition discover (fuel : nat) (alpha : spec_float) (self : t)
  : outcome (gmap nat RandomVariable * gmap nat RandomVariable * t) :=
  match em_loop fuel alpha self with
  | Returned self =>
      match _compute_trust self with
      | Raise e => Raised e
      | Ok trust =>
          match _compute_truth self with
          | Raise e => Raised e
          | Ok truth => Returned (trust, truth, self)
          end
      end
  | Raised e => Raised e
  | OutOfFuel => OutOfFuel
  end.

End simpleLCA_EM_b64.

(** [_build_claim_probs] of both variational classes over binary32
    numbers, the tensors of tensorflow. [domain_size - 1] is an integer,
    converted to a tensor by the division. *)
Module tf32.

Definition ones (n : nat) : list spec_float := replicate n (B32.of_Z 1).

Definition one_hot (indices : list nat) (depth : nat) : list (list spec_float) :=
  (fun i => (fun j => B32.of_bool (bool_decide (i = j))) <$> range depth) <$> indices.

Definition reduce_sum_axis0 (depth : nat) (x : list (list spec_float))
  : list spec_float :=
  foldr (zip_with B32.add) (replicate depth (S754_zero false)) x.

Definition _build_claim_probs (honest_prob : spec_float) (domain_size truth : nat)
  : list spec_float :=
  let mask := reduce_sum_axis0 domain_size (one_hot [truth] domain_size) in
  let other := zip_with B32.sub (ones domain_size) mask in
  let probs :=
    zip_with B32.add
      (zip_with B32.mul ((fun x => B32.mul x honest_prob) <$> mask)
         (ones domain_size))
      (zip_with B32.mul
         ((fun x =>
             B32.mul x
               (B32.div (B32.sub (B32.of_Z 1) honest_prob)
                  (B32.of_Z (Z.of_nat domain_size - 1)))) <$> other)
         (ones domain_size)) in
  probs.

End tf32.

(** ** The fixtures of the EM test suite *)

Definition fixtureA : DataFrame :=
  [Claim 0 0 0; Claim 0 1 1; Claim 1 1 3; Claim 1 0 1; Claim 2 2 1].

Definition fixtureB : DataFrame :=
  [Claim 0 0 0; Claim 0 1 1; Claim 1 1 0; Claim 1 0 1; Claim 2 2 1].

(** One object and three hundred sources, source [s] asserting the value
    [s mod 8]: each of the eight values has at most 38 votes, so the product
    of its three hundred factors (at most 38 times [0.5], the others
    [0.5 / 8]) is at most [2 ^ -1086], below half the smallest positive
    binary64 number [2 ^ -1074]. *)
Definition table_underflow : DataFrame :=
  (fun s => Claim s 0 (s mod 8)) <$> seq 0 300.

(** ** Definitions used to state the properties *)

(** Sums and products of exact numbers. *)
Definition Qsum (l : list Q) : Q := foldr Qplus 0 l.


(** Total readings of the attributes of [simpleLCA_EM]: the entry [W[s,o]]
    of the weight matrix, the honesty of a source behind a reference, the
    domain size of an object, and the posterior of a value. A reading
    outside the structure is [NaN] (or a domain of size zero). *)
Module EM_read.
Import simpleLCA_EM.

Definition W (self : t) (s o : nat) : float :=
  default NaN (weight self !! s ≫= fun row => row !! o).

Definition theta (self : t) (r : ref) (s : nat) : float :=
  default NaN (deref (heap self) r !! s).

Definition dsize (self : t) (o : nat) : nat :=
  default 0%nat (domain_size self !! o).

Definition post (self : t) (o v : nat) : float :=
  default NaN (posterior self !! o ≫= fun p => p !! v).

(** The factor a source contributes to the responsibility of value [v] for
    object [o]. *)
Definition factor (self : t) (o v s : nat) : float :=
  if bool_decide (get_value self s o = Some v) then theta self (theta_old self) s
  else ((Fin 1 - theta self (theta_old self) s) / of_nat (dsize self o))%F.

(** The sources that made a claim about [o] according to the weight
    matrix. *)
Definition claimants (self : t) (o : nat) : list nat :=
  filter (fun s => feqb (W self s o) (Fin 1) = true) (range (n_sources self)).

(** The responsibility as the specification words it: the product over the
    sources with [W[s,o] = 1]. *)
Definition responsibility_spec (self : t) (o v : nat) : float :=
  np_prod (factor self o v <$> claimants self o).

(** The M-step as the specification words it: the sum over objects and
    values of posterior times weight times indicator, divided by the sum
    over objects of the weights. *)
Definition honest_spec (self : t) (s : nat) : float :=
  (np_sum ((fun o =>
              np_sum ((fun v =>
                         post self o v * W self s o
                         * of_bool (bool_decide (get_value self s o = Some v)))%F
                        <$> range (dsize self o)))
             <$> range (n_objects self))
   / np_sum ((fun o => W self s o) <$> range (n_objects self)))%F.

(** The array [resp] when [compute_responsibility(o, v)] leaves its loop,
    and the joint distribution [compute_joint(o)] computes from it. *)
Definition resp_array (self : t) (o v : nat) : ndarray :=
  (fun s => if feqb (W self s o) (Fin 1) then factor self o v s else Fin 1)
    <$> range (n_sources self).

Definition joint (self : t) (o : nat) : ndarray :=
  zip_with fmul
    (scale fdiv (ones (dsize self o)) (of_nat (dsize self o)))
    ((fun v => np_prod (resp_array self o v)) <$> range (dsize self o)).

(** The accumulator [honest] when [compute_honest(s)] leaves its loops, and
    the value it stores in [theta_new[s]]. *)
Definition honest_loop (self : t) (s : nat) : float :=
  foldl (fun honest o =>
           foldl (fun honest v =>
                    (honest
                     + post self o v
                       * (W self s o
                          * of_bool (bool_decide (get_value self s o = Some v))))%F)
                 honest (range (dsize self o)))
        (Fin 0) (range (n_objects self)).

Definition new_theta (self : t) (s : nat) : float :=
  (honest_loop self s / np_sum ((fun o => W self s o) <$> range (n_objects self)))%F.

(** Every object has a posterior: an E-step has run. *)
Definition posterior_complete (self : t) : Prop :=
  forall o, (o < n_objects self)%nat -> is_Some (posterior self !! o).

(** The shape of an object built by [__init__], kept by every method: the
    weight matrix is [n_sources] by [n_objects], holds zeros and ones and has
    a one in every row; every object below [n_objects] has a domain size of
    at least one and the uniform prior over it; the stored priors and
    posteriors belong to these objects and have the length of the domain;
    both honesty vectors have one entry per source. *)
Record wf (self : t) : Prop := WF {
  wf_rows : length (weight self) = n_sources self;
  wf_cols : forall row, row ∈ weight self -> length row = n_objects self;
  wf_bits : forall row w, row ∈ weight self -> w ∈ row -> w = Fin 0 \/ w = Fin 1;
  wf_claimed : forall row, row ∈ weight self -> Fin 1 ∈ row;
  wf_domain : forall o, (o < n_objects self)%nat ->
      exists d, domain_size self !! o = Some d /\ (1 <= d)%nat
                /\ prior self !! o = Some (scale fdiv (ones d) (of_nat d));
  wf_prior_keys : forall o, is_Some (prior self !! o) -> (o < n_objects self)%nat;
  wf_posterior : forall o p, posterior self !! o = Some p ->
      (o < n_objects self)%nat /\ length p = dsize self o;
  wf_theta_old : length (deref (heap self) (theta_old self)) = n_sources self;
  wf_theta_new : length (deref (heap self) (theta_new self)) = n_sources self
}.



(** Two states agree on the attributes fixed by the constructor. *)
Definition same_frame (self self' : t) : Prop :=
  claims self' = claims self /\ weight self' = weight self
  /\ n_sources self' = n_sources self /\ n_objects self' = n_objects self
  /\ domain_size self' = domain_size self /\ prior self' = prior self
  /\ value_index self' = value_index self.

(** The states an object built from the table [df] goes through: the
    constructor, then E-steps, M-steps and the assignment
    [self.theta_old = self.theta_new] of the main loop, in any order. *)
Inductive reachable (df : DataFrame) : t -> Prop :=
  | reach_init self :
      init df = Ok self -> reachable df self
  | reach_e_step self self' :
      reachable df self -> e_step self = Ok self' -> reachable df self'
  | reach_m_step self self' :
      reachable df self -> m_step self = Ok self' -> reachable df self'
  | reach_assign self :
      reachable df self -> reachable df (set_theta_old self (theta_new self)).

End EM_read.

(** Identifiers that are dense and zero-based: every number below the
    number of distinct identifiers is one of them. *)
Definition dense (ids : list nat) : Prop :=
  forall i, (i < nunique ids)%nat -> i ∈ ids.

(** The number of claims in a table that assert value [v] for object [o]. *)
Definition votes (claims : DataFrame) (o v : nat) : nat :=
  length (filter (fun c => object_id c = o /\ value c = v) claims).

(** * Properties *)

(** ** Exact numbers *)

#[global] Instance float_equivalence : Equivalence (≡@{float}).
Proof.
  split.
  - intros [q|]; simpl; [unfold equiv, float_equiv; reflexivity | exact I].
  - intros [a|] [b|]; unfold equiv, float_equiv; try tauto.
    intros H; symmetry; exact H.
  - intros [a|] [b|] [c|]; unfold equiv, float_equiv; try tauto.
    intros H1 H2; rewrite H1; exact H2.
Qed.

Lemma Fin_equiv (a b : Q) : Fin a ≡ Fin b <-> a == b.
Proof. reflexivity. Qed.

#[global] Instance fadd_proper : Proper ((≡) ==> (≡) ==> (≡)) fadd.
Proof.
  intros [a|] [b|] H1 [c|] [d|] H2; try done.
  change (a == b) in H1. change (c == d) in H2.
  apply Fin_equiv. rewrite H1, H2. reflexivity.
Qed.

#[global] Instance fmul_proper : Proper ((≡) ==> (≡) ==> (≡)) fmul.
Proof.
  intros [a|] [b|] H1 [c|] [d|] H2; try done.
  change (a == b) in H1. change (c == d) in H2.
  apply Fin_equiv. rewrite H1, H2. reflexivity.
Qed.

#[global] Instance fsub_proper : Proper ((≡) ==> (≡) ==> (≡)) fsub.
Proof.
  intros [a|] [b|] H1 [c|] [d|] H2; try done.
  change (a == b) in H1. change (c == d) in H2.
  apply Fin_equiv. rewrite H1, H2. reflexivity.
Qed.

Lemma Qeq_bool_false (a b : Q) : ~ a == b -> Qeq_bool a b = false.
Proof.
  intros H. destruct (Qeq_bool a b) eqn:E; [|reflexivity].
  apply Qeq_bool_eq in E. contradiction.
Qed.

Lemma Qeq_bool_true (a b : Q) : a == b -> Qeq_bool a b = true.
Proof. apply Qeq_eq_bool. Qed.

#[global] Instance fdiv_proper : Proper ((≡) ==> (≡) ==> (≡)) fdiv.
Proof.
  intros [a|] [b|] H1 [c|] [d|] H2; try done.
  change (a == b) in H1. change (c == d) in H2. simpl.
  destruct (Qeq_bool c 0) eqn:Ec.
  - apply Qeq_bool_eq in Ec. rewrite Qeq_bool_true; [exact I|].
    rewrite <- H2. exact Ec.
  - rewrite Qeq_bool_false.
    + apply Fin_equiv. rewrite H1, H2. reflexivity.
    + intros Hd. apply Qeq_bool_neq in Ec. apply Ec. rewrite H2. exact Hd.
Qed.

Lemma fdiv_Fin (a b : Q) : ~ b == 0 -> fdiv (Fin a) (Fin b) = Fin (a / b).
Proof. intros H. simpl. rewrite Qeq_bool_false; auto. Qed.

Lemma fmul_1_l (x : float) : (Fin 1 * x)%F ≡ x.
Proof. destruct x as [q|]; simpl; [apply Fin_equiv; ring | exact I]. Qed.

Lemma fadd_0_l (x : float) : (Fin 0 + x)%F ≡ x.
Proof. destruct x as [q|]; simpl; [apply Fin_equiv; ring | exact I]. Qed.

Lemma fadd_assoc (x y z : float) : (x + (y + z))%F ≡ (x + y + z)%F.
Proof.
  destruct x, y, z; simpl; try exact I. apply Fin_equiv; ring.
Qed.

Lemma fadd_comm (x y : float) : (x + y)%F ≡ (y + x)%F.
Proof. destruct x, y; simpl; try exact I. apply Fin_equiv; ring. Qed.

Lemma of_nat_pos (n : nat) : (0 < n)%nat -> 0 < inject_Z (Z.of_nat n).
Proof.
  intros H. change 0 with (inject_Z 0). rewrite <- Zlt_Qlt. lia.
Qed.

Lemma np_sum_Fin (l : list Q) : np_sum (Fin <$> l) = Fin (Qsum l).
Proof.
  unfold np_sum. induction l as [|q l IH]; csimpl; [reflexivity|].
  rewrite IH. reflexivity.
Qed.


#[global] Instance np_sum_proper : Proper ((≡) ==> (≡)) np_sum.
Proof.
  intros l1 l2 H. unfold np_sum.
  induction H as [|x y l1 l2 Hxy _ IH]; csimpl; [reflexivity|].
  rewrite Hxy, IH. reflexivity.
Qed.

#[global] Instance np_prod_proper : Proper ((≡) ==> (≡)) np_prod.
Proof.
  intros l1 l2 H. unfold np_prod.
  induction H as [|x y l1 l2 Hxy _ IH]; csimpl; [reflexivity|].
  rewrite Hxy, IH. reflexivity.
Qed.

Lemma replicate_seq {A} (x : A) (n i : nat) :
  replicate n x = (fun _ => x) <$> seq i n.
Proof.
  revert i. induction n as [|n IH]; intros i; simpl; [reflexivity|].
  f_equal. apply IH.
Qed.

(** ** Results of fallible loops *)

Lemma bind_Ok {A B} (m : result A) (f : A -> result B) (b : B) :
  m ≫= f = Ok b <-> exists a, m = Ok a /\ f a = Ok b.
Proof.
  destruct m as [a|e]; simpl.
  - split; [eauto | intros (a' & [= <-] & H); exact H].
  - split; [discriminate | intros (a' & [=] & _)].
Qed.

Lemma mapM_Ok {A B} (f : A -> result B) (l : list A) :
  (forall x, x ∈ l -> exists y, f x = Ok y) ->
  exists ys, mapM f l = Ok ys /\ length ys = length l.
Proof.
  induction l as [|x l IH]; intros H.
  - exists []. split; reflexivity.
  - destruct (H x) as (y & Hy); [left|].
    destruct IH as (ys & Hys & Hlen); [intros z Hz; apply H; right; exact Hz|].
    exists (y :: ys). simpl. rewrite Hy. simpl. rewrite Hys. simpl.
    split; [reflexivity | congruence].
Qed.

(** ** Group-by on the claims table *)

Lemma groupby_max_value_None (df : DataFrame) (o : nat) :
  o ∉ object_id <$> df -> groupby_max_value df !! o = None.
Proof.
  induction df as [|c df IH]; intros H; [apply lookup_empty|].
  rewrite fmap_cons, not_elem_of_cons in H. destruct H as [Hne H].
  simpl. rewrite lookup_insert_ne by congruence. apply IH, H.
Qed.

Lemma groupby_max_value_Some (df : DataFrame) (o : nat) :
  o ∈ object_id <$> df ->
  exists m, groupby_max_value df !! o = Some m
            /\ (exists c, c ∈ df /\ object_id c = o /\ value c = m)
            /\ (forall c, c ∈ df -> object_id c = o -> (value c <= m)%nat).
Proof.
  induction df as [|c df IH]; intros H; [inversion H|].
  simpl. destruct (decide (object_id c = o)) as [Hc|Hc].
  - rewrite Hc, lookup_insert_eq.
    destruct (decide (o ∈ object_id <$> df)) as [Hin|Hin].
    + destruct (IH Hin) as (m & Hm & (c' & Hc' & Ho' & Hv') & Hmax).
      rewrite Hm. eexists. split; [reflexivity|]. split.
      * destruct (Nat.max_spec (value c) m) as [[_ ->]|[_ ->]].
        -- exists c'. split; [right|]; auto.
        -- exists c. split; [left|]; auto.
      * intros c0 [->|Hc0]%elem_of_cons Ho0; [lia|].
        specialize (Hmax c0 Hc0 Ho0). lia.
    + rewrite (groupby_max_value_None df o Hin).
      eexists. split; [reflexivity|]. split.
      * exists c. split; [left|]; auto.
      * intros c0 [->|Hc0]%elem_of_cons Ho0; [lia|].
        exfalso. apply Hin. rewrite <- Ho0. apply list_elem_of_fmap_2. exact Hc0.
  - rewrite lookup_insert_ne by exact Hc.
    rewrite fmap_cons, elem_of_cons in H. destruct H as [H|H]; [congruence|].
    destruct (IH H) as (m & Hm & (c' & Hc' & Ho' & Hv') & Hmax).
    exists m. split; [exact Hm|]. split.
    + exists c'. split; [right|]; auto.
    + intros c0 [->|Hc0]%elem_of_cons Ho0; [congruence|]. auto.
Qed.

Lemma elem_of_sorted_unique (l : list nat) (x : nat) :
  x ∈ sorted_unique l <-> x ∈ l.
Proof.
  unfold sorted_unique. rewrite merge_sort_Permutation. apply elem_of_remove_dups.
Qed.

Lemma length_sorted_unique (l : list nat) : length (sorted_unique l) = nunique l.
Proof.
  unfold sorted_unique, nunique. rewrite merge_sort_Permutation. reflexivity.
Qed.

Lemma NoDup_sorted_unique (l : list nat) : NoDup (sorted_unique l).
Proof.
  unfold sorted_unique. rewrite merge_sort_Permutation. apply NoDup_remove_dups.
Qed.

(** ** The per-claim variational variant *)

Lemma object_probs_Ok (claims : DataFrame) (suffix : string) :
  exists vars,
    LCA.object_probs ((fun m => m + 1)%nat <$> groupby_max_value claims)
      (sorted_unique (object_id <$> claims)) suffix = Ok vars.
Proof.
  unfold LCA.object_probs.
  match goal with |- exists vars, mapM ?f ?l = _ =>
    destruct (mapM_Ok f l) as (ys & Hys & _); [|eexists; exact Hys] end.
  intros m Hm. rewrite elem_of_sorted_unique in Hm.
  destruct (groupby_max_value_Some claims m Hm) as (mx & Hmx & _).
  unfold getitem. rewrite lookup_fmap, Hmx. simpl. eauto.
Qed.

Lemma observation_foldl (g : nat -> nat) (rows : DataFrame) (m0 : gmap string nat) :
  Inj (=) (=) g ->
  let m := foldl (fun (observation : gmap string nat) (c : nat * claim) =>
                    <["x_claim_" +:+ pretty c.1 := value c.2]> observation)
             m0 (imap (fun c row => (g c, row)) rows) in
  (forall c row, rows !! c = Some row ->
                 m !! ("x_claim_" +:+ pretty (g c)) = Some (value row))
  /\ (forall k, (forall c, (c < length rows)%nat -> k <> "x_claim_" +:+ pretty (g c)) ->
                m !! k = m0 !! k)
  /\ (forall k, is_Some (m !! k) ->
                is_Some (m0 !! k)
                \/ exists c, (c < length rows)%nat /\ k = "x_claim_" +:+ pretty (g c)).
Proof.
  intros Hg. revert g Hg m0. induction rows as [|r rows IH]; intros g Hg m0 m.
  - split; [intros c row H; inversion H|]. split; [reflexivity | auto].
  - subst m. rewrite imap_cons. cbn [foldl].
    destruct (IH (g ∘ S) ltac:(intros a b H; apply Hg in H; congruence)
                (<["x_claim_" +:+ pretty (g 0%nat) := value r]> m0))
      as (IH1 & IH2 & IH3).
    cbn [fst snd]. split; [|split].
    + intros [|c] row Hrow.
      * injection Hrow as <-. rewrite IH2.
        -- apply lookup_insert_eq.
        -- intros c _ Heq. simplify_eq/=.
      * apply (IH1 c row Hrow).
    + intros k Hk. rewrite IH2.
      * apply lookup_insert_ne. intros Heq. apply (Hk 0%nat); [simpl; lia | congruence].
      * intros c Hc. apply (Hk (S c)). simpl. lia.
    + intros k Hk. destruct (IH3 k Hk) as [H|(c & Hc & ->)].
      * destruct (decide ("x_claim_" +:+ pretty (g 0%nat) = k)) as [<-|Hne].
        -- right. exists 0%nat. split; [simpl; lia | reflexivity].
        -- rewrite lookup_insert_ne in H by exact Hne. left. exact H.
      * right. exists (S c). split; [simpl; lia | reflexivity].
Qed.

(** C7: for every claims table (and whatever the object held before),
    [LCA.discover] of the per-claim variational variant builds the
    observation mapping from [x_claim_c] to the value asserted by row [c],
    conditions the generative model on it with [observe], makes no other
    outside call (no training engine is constructed or run), and returns a
    pair of two empty mappings. *)
Theorem LCA_discover_returns_empty (self : LCA.t) (claims : DataFrame)
    (auxiliary_data : option unit) :
  exists self',
    LCA.discover self claims auxiliary_data
    = Ok (∅, ∅, self', [CallObserve Model (LCA.observation self')])
    /\ LCA.claims self' = claims
    /\ (forall c row, claims !! c = Some row ->
          LCA.observation self' !! ("x_claim_" +:+ pretty c) = Some (value row))
    /\ (forall k, is_Some (LCA.observation self' !! k) ->
          exists c, (c < length claims)%nat /\ k = "x_claim_" +:+ pretty c)
    /\ LCA.observed_model self' = Some (observe Model (LCA.observation self')).
Proof.
  unfold LCA.discover, LCA._initialize, LCA._compute_prob_desc. cbn [LCA.claims].
  destruct (object_probs_Ok claims "_p") as (vp & Hp).
  destruct (object_probs_Ok claims "_q") as (vq & Hq).
  rewrite Hp. cbn [mbind result_bind]. rewrite Hq. cbn [mbind result_bind].
  eexists. split; [reflexivity|]. cbn [LCA.claims LCA.observation LCA.observed_model].
  split; [reflexivity|].
  unfold LCA._make_observation. cbn [LCA.claims].
  destruct (observation_foldl id claims ∅ _) as (H1 & _ & H3).
  split; [exact H1|]. split; [|reflexivity].
  intros k Hk. destruct (H3 k Hk) as [[x Hx]|H]; [|exact H].
  rewrite lookup_empty in Hx. discriminate.
Qed.

(** By contrast the batched variant constructs the engine and trains it. *)
Lemma simpleLCA_VI_discover_trains (self : simpleLCA_VI.t) :
  exists e, simpleLCA_VI.bbvi (simpleLCA_VI.discover self).1 = Some e
            /\ simpleLCA_VI.bbvi_trained e = true
            /\ CallTrain ∈ (simpleLCA_VI.discover self).2.
Proof.
  eexists. split; [reflexivity|]. split; [reflexivity|].
  simpl. right. left.
Qed.

(** ** The claim probabilities of the variational variants *)



Lemma claim_probs_pointwise (x c : float) (f : nat -> float) (l : list nat) :
  zip_with fadd
    (zip_with fmul
       (scale fmul (foldr (zip_with fadd) ((fun _ => Fin 0) <$> l) [f <$> l]) x)
       ((fun _ => Fin 1) <$> l))
    (zip_with fmul
       (scale fmul
          (zip_with fsub ((fun _ => Fin 1) <$> l)
             (foldr (zip_with fadd) ((fun _ => Fin 0) <$> l) [f <$> l])) c)
       ((fun _ => Fin 1) <$> l))
  = (fun j => ((f j + Fin 0) * x * Fin 1
               + (Fin 1 - (f j + Fin 0)) * c * Fin 1)%F) <$> l.
Proof.
  induction l as [|j l IH]; [reflexivity|].
  rewrite !fmap_cons. cbn [foldr] in *. unfold scale in *.
  cbn [zip_with]. rewrite !fmap_cons. cbn [zip_with].
  f_equal. exact IH.
Qed.

Lemma build_claim_probs_entries (x : float) (d v : nat) :
  LCA._build_claim_probs x d v =
  (fun j =>
     ((of_bool (bool_decide (v = j)) + Fin 0) * x * Fin 1
      + (Fin 1 - (of_bool (bool_decide (v = j)) + Fin 0))
        * ((Fin 1 - x) / of_nat (d - 1)) * Fin 1)%F) <$> range d.
Proof.
  unfold LCA._build_claim_probs, reduce_sum_axis0, one_hot, ones, range.
  rewrite !(replicate_seq _ d 0). rewrite fmap_cons.
  apply (claim_probs_pointwise x _ (fun j => of_bool (bool_decide (v = j)))).
Qed.

Lemma claim_probs_entry (p : Q) (d v j : nat) :
  (1 < d)%nat ->
  exists q,
    ((of_bool (bool_decide (v = j)) + Fin 0) * Fin p * Fin 1
      + (Fin 1 - (of_bool (bool_decide (v = j)) + Fin 0))
        * ((Fin 1 - Fin p) / of_nat (d - 1)) * Fin 1)%F = Fin q
    /\ q == if decide (j = v) then p
            else (1 - p) / (inject_Z (Z.of_nat d) - 1).
Proof.
  intros Hd.
  assert (Hnz : ~ inject_Z (Z.of_nat (d - 1)) == 0).
  { intros H. pose proof (of_nat_pos (d - 1) ltac:(lia)) as Hp.
    rewrite H in Hp. revert Hp. apply Qlt_irrefl. }
  assert (Hd1 : inject_Z (Z.of_nat (d - 1)) == inject_Z (Z.of_nat d) - 1).
  { rewrite Nat2Z.inj_sub by lia. unfold Z.sub. rewrite inject_Z_plus, inject_Z_opp.
    reflexivity. }
  unfold of_nat. cbn [fsub]. rewrite fdiv_Fin by exact Hnz.
  case_bool_decide as Hv; case_decide; try congruence; simpl; eexists; split;
    try reflexivity.
  - ring.
  - rewrite Hd1. field. rewrite <- Hd1. exact Hnz.
Qed.

Lemma np_sum_pointwise (g : nat -> float) (h : nat -> Q) (l : list nat) :
  (forall j, j ∈ l -> g j ≡ Fin (h j)) ->
  np_sum (g <$> l) ≡ Fin (Qsum (h <$> l)).
Proof.
  intros H. rewrite <- np_sum_Fin. apply np_sum_proper.
  rewrite <- list_fmap_compose.
  induction l as [|j l IH]; [constructor|].
  rewrite !fmap_cons. constructor.
  - apply H. left.
  - apply IH. intros k Hk. apply H. right. exact Hk.
Qed.




(** ** Majority vote *)

Lemma idxmax_max (s : list (nat * nat)) :
  s <> [] ->
  exists e, idxmax s = Ok e.1 /\ e ∈ s /\ forall e', e' ∈ s -> (e'.2 <= e.2)%nat.
Proof.
  destruct s as [|e0 s]; [congruence|]. intros _. unfold idxmax.
  set (step := fun (best e' : nat * nat) =>
                 if decide (best.2 < e'.2)%nat then e' else best).
  assert (H : forall s e0,
             foldl step e0 s ∈ e0 :: s
             /\ forall e', e' ∈ e0 :: s -> (e'.2 <= (foldl step e0 s).2)%nat).
  { clear. intros s. induction s as [|x s IH]; intros e0.
    - simpl. split; [left|]. intros e' ->%list_elem_of_singleton. lia.
    - cbn [foldl]. destruct (IH (step e0 x)) as [IH1 IH2]. split.
      + apply elem_of_cons in IH1. destruct IH1 as [IH1|IH1].
        * rewrite IH1. unfold step. case_decide; [right; left | left].
        * right. right. exact IH1.
      + intros e' He'.
        assert (Hstep : (e0.2 <= (step e0 x).2 /\ x.2 <= (step e0 x).2)%nat).
        { unfold step. case_decide; simpl; lia. }
        pose proof (IH2 (step e0 x) ltac:(left)) as Hb.
        apply elem_of_cons in He'. destruct He' as [->|He']; [lia|].
        apply elem_of_cons in He'. destruct He' as [->|He']; [lia|].
        apply IH2. right. exact He'. }
  destruct (H s e0) as [H1 H2]. exists (foldl step e0 s). auto.
Qed.

Lemma elem_of_value_counts (x : list nat) (e : nat * nat) :
  e ∈ value_counts x <-> e.1 ∈ x /\ e.2 = length (filter (fun w => w = e.1) x).
Proof.
  unfold value_counts. rewrite merge_sort_Permutation, list_elem_of_fmap. split.
  - intros (v & -> & Hv). rewrite elem_of_reverse, elem_of_remove_dups, elem_of_reverse in Hv.
    simpl. auto.
  - intros [H1 H2]. exists e.1. split.
    + destruct e as [v n]. simpl in *. congruence.
    + rewrite elem_of_reverse, elem_of_remove_dups, elem_of_reverse. exact H1.
Qed.

(** [elect] returns a value of the group that no other value outnumbers. *)
Lemma elect_mode (x : list nat) :
  x <> [] ->
  exists v, elect x = Ok v /\ v ∈ x
            /\ forall w, (length (filter (fun u => u = w) x)
                          <= length (filter (fun u => u = v) x))%nat.
Proof.
  intros Hx. unfold elect.
  destruct (idxmax_max (value_counts x)) as (e & He & Hin & Hmax).
  { destruct x as [|v x]; [congruence|]. intros Hnil.
    assert (H : (v, length (filter (fun w => w = v) (v :: x))) ∈ value_counts (v :: x)).
    { apply elem_of_value_counts. simpl. split; [left | reflexivity]. }
    rewrite Hnil in H. inversion H. }
  apply elem_of_value_counts in Hin. destruct Hin as [Hin Hcount].
  exists e.1. split; [exact He|]. split; [exact Hin|].
  intros w. rewrite <- Hcount.
  destruct (decide (w ∈ x)) as [Hw|Hw].
  - apply (Hmax (w, length (filter (fun u => u = w) x))).
    apply elem_of_value_counts. simpl. auto.
  - destruct (filter (fun u => u = w) x) as [|u l] eqn:E; [simpl; lia|].
    assert (Hu : u ∈ filter (fun u => u = w) x) by (rewrite E; left).
    apply list_elem_of_filter in Hu. destruct Hu as [-> Hu]. contradiction.
Qed.

Lemma mapM_Forall2 {A B} (f : A -> result B) (l : list A) :
  (forall x, x ∈ l -> exists y, f x = Ok y) ->
  exists ys, mapM f l = Ok ys /\ Forall2 (fun x y => f x = Ok y) l ys.
Proof.
  induction l as [|x l IH]; intros H.
  - exists []. split; [reflexivity | constructor].
  - destruct (H x) as (y & Hy); [left|].
    destruct IH as (ys & Hys & Hall); [intros z Hz; apply H; right; exact Hz|].
    exists (y :: ys). simpl. rewrite Hy. simpl. rewrite Hys. simpl.
    split; [reflexivity | constructor; assumption].
Qed.

Lemma group_votes (claims : DataFrame) (o w : nat) :
  length (filter (fun u => u = w)
            (value <$> filter (fun c => object_id c = o) claims))
  = votes claims o w.
Proof.
  unfold votes. induction claims as [|c claims IH]; [reflexivity|].
  rewrite !filter_cons.
  destruct (decide (object_id c = o)) as [Ho|Ho].
  - rewrite fmap_cons, filter_cons.
    destruct (decide (value c = w)) as [Hw|Hw].
    + rewrite decide_True by auto. simpl. rewrite IH. reflexivity.
    + rewrite decide_False by tauto. exact IH.
  - rewrite decide_False by tauto. exact IH.
Qed.

Lemma rows_of_group (P : nat -> nat -> Prop) (keys : list nat)
    (rows : list (nat * nat)) (o : nat) :
  Forall2 (fun k r => r.1 = k /\ P k r.2) keys rows -> NoDup keys -> o ∈ keys ->
  exists v, filter (fun r => r.1 = o) rows = [(o, v)] /\ P o v.
Proof.
  intros Hall. induction Hall as [|k r keys rows [Hk HP] Hall IH]; intros Hnd Ho.
  - inversion Ho.
  - apply NoDup_cons in Hnd. destruct Hnd as [Hnotin Hnd].
    rewrite filter_cons. apply elem_of_cons in Ho. destruct Ho as [->|Ho].
    + rewrite decide_True by exact Hk. exists r.2. split; [|exact HP].
      destruct r as [r1 r2]. simpl in *. subst r1. f_equal.
      destruct (filter (fun r => r.1 = k) rows) as [|r' l] eqn:E; [reflexivity|].
      assert (Hr' : r' ∈ filter (fun r => r.1 = k) rows) by (rewrite E; left).
      apply list_elem_of_filter in Hr'. destruct Hr' as [Hr'1 Hr'].
      exfalso. apply Hnotin. clear -Hall Hr' Hr'1.
      induction Hall as [|k' r'' keys rows [Hk' _] _ IH]; [inversion Hr'|].
      apply elem_of_cons in Hr'. destruct Hr' as [->|Hr'].
      * rewrite <- Hr'1, Hk'. left.
      * right. apply IH. exact Hr'.
    + rewrite decide_False.
      * apply IH; assumption.
      * intros Heq. apply Hnotin. rewrite <- Hk, Heq. exact Ho.
Qed.

(** C5: for every claims table and every object of the table,
    [majority_vote] returns a frame with exactly one row for that object,
    and the value of that row is a value asserted for the object that no
    other value outnumbers (the mode of the object's values); when object 5
    receives the values 1, 1 and 2 from three sources, the returned value
    for object 5 is 1. *)
Theorem majority_vote_mode :
  (forall (claims : DataFrame) (o : nat),
     o ∈ object_id <$> claims ->
     exists rows v,
       majority_vote claims = Ok rows
       /\ filter (fun r => r.1 = o) rows = [(o, v)]
       /\ (exists c, c ∈ claims /\ object_id c = o /\ value c = v)
       /\ forall w, (votes claims o w <= votes claims o v)%nat)
  /\ majority_vote [Claim 0 5 1; Claim 1 5 1; Claim 2 5 2] = Ok [(5, 1)%nat].
Proof.
  split; [|vm_compute; reflexivity].
  intros claims o Ho. unfold majority_vote.
  set (f := fun o => v ← elect (value <$> filter (fun c => object_id c = o) claims);
                     Ok (o, v)).
  assert (Hf : forall k, k ∈ sorted_unique (object_id <$> claims) ->
             exists r, f k = Ok r
                       /\ r.1 = k
                       /\ (exists c, c ∈ claims /\ object_id c = k /\ value c = r.2)
                       /\ forall w, (votes claims k w <= votes claims k r.2)%nat).
  { intros k Hk. rewrite elem_of_sorted_unique in Hk.
    apply list_elem_of_fmap in Hk. destruct Hk as (c & -> & Hc).
    destruct (elect_mode (value <$> filter (fun c' => object_id c' = object_id c) claims))
      as (v & Hv & Hin & Hmax).
    { intros Hnil. apply fmap_nil_inv in Hnil.
      assert (Hc' : c ∈ filter (fun c' => object_id c' = object_id c) claims)
        by (apply list_elem_of_filter; auto).
      rewrite Hnil in Hc'. inversion Hc'. }
    exists (object_id c, v). unfold f. rewrite Hv. simpl.
    split; [reflexivity|]. split; [reflexivity|]. split.
    - apply list_elem_of_fmap in Hin. destruct Hin as (c' & -> & Hc').
      apply list_elem_of_filter in Hc'. destruct Hc' as [Ho' Hc'].
      exists c'. auto.
    - intros w. rewrite <- !group_votes. apply Hmax. }
  destruct (mapM_Forall2 f (sorted_unique (object_id <$> claims)))
    as (rows & Hrows & Hall).
  { intros k Hk. destruct (Hf k Hk) as (r & Hr & _). eauto. }
  destruct (rows_of_group
              (fun k v => (exists c, c ∈ claims /\ object_id c = k /\ value c = v)
                          /\ forall w, (votes claims k w <= votes claims k v)%nat)
              (sorted_unique (object_id <$> claims)) rows o)
    as (v & Hv & Hex & Hmax).
  - clear -Hall Hf. induction Hall as [|k r keys rows Hr Hall IH]; constructor.
    + destruct (Hf k ltac:(left)) as (r' & Hr' & H1 & H2 & H3).
      assert (r' = r) as -> by congruence. auto.
    + apply IH. intros k' Hk'. apply Hf. right. exact Hk'.
  - apply NoDup_sorted_unique.
  - rewrite elem_of_sorted_unique. exact Ho.
  - exists rows, v. auto.
Qed.

Lemma majority_vote_mode_witness :
  exists rows v,
    majority_vote fixtureA = Ok rows
    /\ filter (fun r => r.1 = 1%nat) rows = [(1%nat, v)]
    /\ forall w, (votes fixtureA 1 w <= votes fixtureA 1 v)%nat.
Proof.
  destruct (proj1 majority_vote_mode fixtureA 1%nat) as (rows & v & H1 & H2 & _ & H3).
  - unfold fixtureA. simpl. right. left.
  - exists rows, v. auto.
Defined.

(** ** Majority vote: the whole frame *)

Lemma sorted_unique_sorted (l : list nat) : StronglySorted lt (sorted_unique l).
Proof.
  pose proof (NoDup_sorted_unique l) as Hnd.
  assert (Hs : StronglySorted le (sorted_unique l)).
  { apply Sorted_StronglySorted; [intros x y z; lia|].
    unfold sorted_unique. apply (Sorted_merge_sort le). }
  induction Hs as [|x s Hs IH Hall]; constructor.
  - apply IH. apply NoDup_cons in Hnd. tauto.
  - apply NoDup_cons in Hnd. destruct Hnd as [Hx _].
    rewrite Forall_forall in Hall |- *. intros y Hy.
    specialize (Hall y Hy). assert (x <> y) by (intros ->; contradiction). lia.
Qed.

Lemma StronglySorted_lt_le (l : list nat) : StronglySorted lt l -> Sorted le l.
Proof.
  intros H. apply StronglySorted_Sorted.
  induction H as [|x s Hs IH Hall]; constructor; [exact IH|].
  eapply Forall_impl; [exact Hall|]. intros y; simpl; lia.
Qed.

Lemma sorted_unique_ext (l1 l2 : list nat) :
  (forall x, x ∈ l1 <-> x ∈ l2) -> sorted_unique l1 = sorted_unique l2.
Proof.
  intros H. apply (Sorted_unique le).
  - apply StronglySorted_lt_le, sorted_unique_sorted.
  - apply StronglySorted_lt_le, sorted_unique_sorted.
  - apply NoDup_Permutation; [apply NoDup_sorted_unique..|].
    intros x. rewrite !elem_of_sorted_unique. apply H.
Qed.

(** [majority_vote] runs [elect] on non-empty groups only, one per key. *)
Lemma majority_vote_Forall2 (claims : DataFrame) :
  exists rows,
    majority_vote claims = Ok rows
    /\ Forall2 (fun k r =>
                  r.1 = k
                  /\ (exists c, c ∈ claims /\ object_id c = k /\ value c = r.2)
                  /\ forall w, (votes claims k w <= votes claims k r.2)%nat)
         (sorted_unique (object_id <$> claims)) rows.
Proof.
  unfold majority_vote.
  set (f := fun o => v ← elect (value <$> filter (fun c => object_id c = o) claims);
                     Ok (o, v)).
  assert (Hf : forall k, k ∈ sorted_unique (object_id <$> claims) ->
             exists r, f k = Ok r
                       /\ r.1 = k
                       /\ (exists c, c ∈ claims /\ object_id c = k /\ value c = r.2)
                       /\ forall w, (votes claims k w <= votes claims k r.2)%nat).
  { intros k Hk. rewrite elem_of_sorted_unique in Hk.
    apply list_elem_of_fmap in Hk. destruct Hk as (c & -> & Hc).
    destruct (elect_mode (value <$> filter (fun c' => object_id c' = object_id c) claims))
      as (v & Hv & Hin & Hmax).
    { intros Hnil. apply fmap_nil_inv in Hnil.
      assert (Hc' : c ∈ filter (fun c' => object_id c' = object_id c) claims)
        by (apply list_elem_of_filter; auto).
      rewrite Hnil in Hc'. inversion Hc'. }
    exists (object_id c, v). unfold f. rewrite Hv. simpl.
    split; [reflexivity|]. split; [reflexivity|]. split.
    - apply list_elem_of_fmap in Hin. destruct Hin as (c' & -> & Hc').
      apply list_elem_of_filter in Hc'. destruct Hc' as [Ho' Hc'].
      exists c'. auto.
    - intros w. rewrite <- !group_votes. apply Hmax. }
  destruct (mapM_Forall2 f (sorted_unique (object_id <$> claims)))
    as (rows & Hrows & Hall).
  { intros k Hk. destruct (Hf k Hk) as (r & Hr & _). eauto. }
  exists rows. split; [exact Hrows|].
  clear -Hall Hf. induction Hall as [|k r keys rows Hr Hall IH]; constructor.
  - destruct (Hf k ltac:(left)) as (r' & Hr' & H1 & H2 & H3).
    assert (r' = r) as -> by congruence. auto.
  - apply IH. intros k' Hk'. apply Hf. right. exact Hk'.
Qed.

(** X1: [majority_vote] returns on every claims table with at least one
    row ([elect] is never run on an empty group); the object column of the
    returned frame lists the distinct object identifiers of the table in
    strictly ascending order, so the frame has one row per distinct object. *)
Theorem majority_vote_index (claims : DataFrame) :
  claims <> [] ->
  exists rows,
    majority_vote claims = Ok rows
    /\ rows.*1 = sorted_unique (object_id <$> claims)
    /\ StronglySorted lt (rows.*1)
    /\ length rows = nunique (object_id <$> claims)
    /\ forall o, o ∈ rows.*1 <-> o ∈ object_id <$> claims.
Proof.
  intros _. destruct (majority_vote_Forall2 claims) as (rows & Hrows & Hall).
  assert (Hkeys : rows.*1 = sorted_unique (object_id <$> claims)).
  { clear Hrows. induction Hall as [|k r keys rows (Hk & _) Hall IH]; [reflexivity|].
    rewrite fmap_cons, IH, Hk. reflexivity. }
  exists rows. split; [exact Hrows|]. split; [exact Hkeys|].
  split; [rewrite Hkeys; apply sorted_unique_sorted|].
  split.
  - rewrite <- (length_fmap fst), Hkeys. apply length_sorted_unique.
  - intros o. rewrite Hkeys. apply elem_of_sorted_unique.
Qed.

Lemma majority_vote_index_witness :
  exists rows,
    majority_vote fixtureA = Ok rows /\ rows.*1 = [0; 1; 2]%nat.
Proof.
  destruct (majority_vote_index fixtureA) as (rows & H1 & H2 & _); [discriminate|].
  exists rows. split; [exact H1|]. rewrite H2. vm_compute. reflexivity.
Defined.

(** X2: a value that strictly outnumbers every other value asserted for an
    object is the value [majority_vote] returns for that object, whatever the
    order of the rows and of the counts. *)
Theorem majority_vote_strict_winner (claims : DataFrame) (o v : nat) :
  o ∈ object_id <$> claims ->
  (forall w, w <> v -> (votes claims o w < votes claims o v)%nat) ->
  exists rows,
    majority_vote claims = Ok rows /\ filter (fun r => r.1 = o) rows = [(o, v)].
Proof.
  intros Ho Hwin.
  destruct (majority_vote_Forall2 claims) as (rows & Hrows & Hall).
  exists rows. split; [exact Hrows|].
  destruct (rows_of_group
              (fun k v => (exists c, c ∈ claims /\ object_id c = k /\ value c = v)
                          /\ forall w, (votes claims k w <= votes claims k v)%nat)
              (sorted_unique (object_id <$> claims)) rows o)
    as (v' & Hv' & _ & Hmax).
  - exact Hall.
  - apply NoDup_sorted_unique.
  - rewrite elem_of_sorted_unique. exact Ho.
  - rewrite Hv'. destruct (decide (v' = v)) as [->|Hne]; [reflexivity|].
    specialize (Hwin v' Hne). specialize (Hmax v). lia.
Qed.

Lemma majority_vote_strict_winner_witness :
  exists rows,
    majority_vote fixtureB = Ok rows
    /\ filter (fun r => r.1 = 2%nat) rows = [(2%nat, 1%nat)].
Proof.
  apply (majority_vote_strict_winner fixtureB 2 1).
  - unfold fixtureB. simpl. do 4 right. left.
  - intros w Hw. destruct w as [|[|w]]; [vm_compute; lia | congruence | vm_compute; lia].
Defined.

Lemma mapM_result_ext {A B} (f g : A -> result B) (l : list A) :
  (forall x, x ∈ l -> f x = g x) -> mapM f l = mapM g l.
Proof.
  induction l as [|x l IH]; intros H; [reflexivity|].
  simpl. rewrite (H x) by left. rewrite IH; [reflexivity|].
  intros y Hy. apply H. right. exact Hy.
Qed.

Lemma group_values_columns (claims : DataFrame) (o : nat) :
  value <$> filter (fun c => object_id c = o) claims
  = snd <$> filter (fun r => r.1 = o) ((fun c => (object_id c, value c)) <$> claims).
Proof.
  induction claims as [|c claims IH]; [reflexivity|].
  rewrite fmap_cons, !filter_cons. simpl.
  destruct (decide (object_id c = o)); [rewrite !fmap_cons, IH; reflexivity | exact IH].
Qed.

(** X3: [majority_vote] reads the columns [object_id] and [value] only: two
    tables with the same two columns give the same frame, so the sources are
    not told apart and a claim that a source repeats is counted again. *)
Theorem majority_vote_ignores_sources (claims claims' : DataFrame) :
  (fun c => (object_id c, value c)) <$> claims
  = (fun c => (object_id c, value c)) <$> claims' ->
  majority_vote claims = majority_vote claims'.
Proof.
  intros H. unfold majority_vote.
  assert (Hobj : object_id <$> claims = object_id <$> claims').
  { change object_id with (fst ∘ (fun c => (object_id c, value c))).
    rewrite !list_fmap_compose, H. reflexivity. }
  rewrite Hobj. apply mapM_result_ext. intros o _.
  rewrite !group_values_columns, H. reflexivity.
Qed.

Lemma majority_vote_ignores_sources_witness :
  majority_vote [Claim 0 5 1; Claim 1 5 1; Claim 2 5 2]
  = majority_vote [Claim 7 5 1; Claim 7 5 1; Claim 7 5 2].
Proof. apply majority_vote_ignores_sources. reflexivity. Defined.

Lemma votes_Permutation (claims claims' : DataFrame) (o v : nat) :
  claims ≡ₚ claims' -> votes claims o v = votes claims' o v.
Proof. intros H. unfold votes. rewrite H. reflexivity. Qed.

(** X4: when every object of the table has a value that strictly outnumbers
    every other value, the frame [majority_vote] returns does not depend on
    the order of the rows of the table. *)
Theorem majority_vote_row_order (claims claims' : DataFrame) :
  claims ≡ₚ claims' ->
  (forall o, o ∈ object_id <$> claims ->
     exists v, forall w, w <> v -> (votes claims o w < votes claims o v)%nat) ->
  majority_vote claims = majority_vote claims'.
Proof.
  intros Hperm Hwin.
  destruct (majority_vote_Forall2 claims) as (rows & -> & Hall).
  destruct (majority_vote_Forall2 claims') as (rows' & -> & Hall').
  f_equal.
  assert (Hkeys : sorted_unique (object_id <$> claims')
                  = sorted_unique (object_id <$> claims)).
  { apply sorted_unique_ext. intros x. rewrite Hperm. reflexivity. }
  rewrite Hkeys in Hall'.
  assert (Hin : forall k, k ∈ sorted_unique (object_id <$> claims) ->
                          k ∈ object_id <$> claims)
    by (intros k; rewrite elem_of_sorted_unique; auto).
  clear Hkeys. revert rows' Hall'.
  induction Hall as [|k r keys rows (Hk & _ & Hmax) Hall IH]; intros rows' Hall'.
  - inversion Hall'. reflexivity.
  - inversion Hall' as [|k' r' keys' rows'' (Hk' & _ & Hmax') Hall'' E1 E2]; subst.
    f_equal.
    + destruct (Hwin (r.1)) as (v & Hv); [apply Hin; left|].
      assert (r.2 = v) as Hr.
      { destruct (decide (r.2 = v)) as [|Hne]; [assumption|].
        specialize (Hv _ Hne). specialize (Hmax v). lia. }
      assert (r'.2 = v) as Hr'.
      { destruct (decide (r'.2 = v)) as [|Hne]; [assumption|].
        specialize (Hv _ Hne). specialize (Hmax' v).
        rewrite <- !(votes_Permutation claims claims') in Hmax' by exact Hperm. lia. }
      destruct r, r'. simpl in *. congruence.
    + apply IH; [|exact Hall'']. intros k Hk0. apply Hin. right. exact Hk0.
Qed.

Lemma majority_vote_row_order_witness :
  majority_vote [Claim 0 5 1; Claim 1 5 1; Claim 2 5 2]
  = majority_vote [Claim 2 5 2; Claim 0 5 1; Claim 1 5 1].
Proof.
  apply majority_vote_row_order.
  - apply Permutation_sym, (Permutation_cons_append [_; _]).
  - intros o Ho. exists 1%nat. intros w Hw.
    apply list_elem_of_fmap in Ho. destruct Ho as (c & -> & Hc).
    repeat (apply elem_of_cons in Hc; destruct Hc as [->|Hc]); [| | |inversion Hc];
      (destruct w as [|[|[|w]]];
       [vm_compute; lia | congruence | vm_compute; lia | vm_compute; lia]).
Defined.

(** ** The EM variant *)

Section EM.
Import simpleLCA_EM EM_read.

(** ** Loops over a range *)

Lemma for_each_range_total {S} (I : nat -> S -> Prop)
    (body : nat -> S -> result S) (n i : nat) (s : S) :
  I i s ->
  (forall k s, (i <= k < i + n)%nat -> I k s ->
               exists s', body k s = Ok s' /\ I (Datatypes.S k) s') ->
  exists s', for_each (seq i n) body s = Ok s' /\ I (i + n)%nat s'.
Proof.
  revert i s. induction n as [|n IH]; intros i s Hi Hbody.
  - exists s. rewrite Nat.add_0_r. split; [reflexivity | exact Hi].
  - destruct (Hbody i s ltac:(lia) Hi) as (s1 & Hs1 & HI1).
    destruct (IH (Datatypes.S i) s1 HI1) as (s' & Hs' & HI').
    { intros k s0 Hk. apply Hbody. lia. }
    exists s'. simpl. rewrite Hs1. simpl. rewrite Hs'.
    split; [reflexivity|]. replace (i + Datatypes.S n)%nat with (Datatypes.S i + n)%nat by lia.
    exact HI'.
Qed.

Lemma for_each_range_partial {S} (I : nat -> S -> Prop)
    (body : nat -> S -> result S) (n i : nat) (s s' : S) :
  for_each (seq i n) body s = Ok s' ->
  I i s ->
  (forall k s s1, (i <= k < i + n)%nat -> I k s -> body k s = Ok s1 ->
                  I (Datatypes.S k) s1) ->
  I (i + n)%nat s'.
Proof.
  revert i s. induction n as [|n IH]; intros i s Hrun Hi Hbody.
  - simpl in Hrun. injection Hrun as <-. rewrite Nat.add_0_r. exact Hi.
  - simpl in Hrun. apply bind_Ok in Hrun. destruct Hrun as (s1 & Hs1 & Hrun).
    replace (i + Datatypes.S n)%nat with (Datatypes.S i + n)%nat by lia.
    apply (IH (Datatypes.S i) s1 Hrun).
    + apply (Hbody i s s1); [lia | exact Hi | exact Hs1].
    + intros k s0 s2 Hk. apply Hbody. lia.
Qed.

(** ** The weight matrix *)

Lemma weight_entry_claimed (v : nat) :
  (fun c => if fltb c (Fin 0) then Fin 0 else c)
    ((fun c => if fleb (Fin 0) c then Fin 1 else c)
       ((fun c => match c with NaN => Fin (-1) | Fin _ => c end) (of_nat v)))
  = Fin 1.
Proof.
  unfold of_nat. cbn [fleb].
  assert (H : Qle_bool 0 (inject_Z (Z.of_nat v)) = true).
  { apply Qle_bool_iff. change 0 with (inject_Z 0). rewrite <- Zle_Qle. lia. }
  rewrite H. reflexivity.
Qed.

Lemma weight_entry_missing :
  (fun c => if fltb c (Fin 0) then Fin 0 else c)
    ((fun c => if fleb (Fin 0) c then Fin 1 else c)
       ((fun c => match c with NaN => Fin (-1) | Fin _ => c end) NaN))
  = Fin 0.
Proof. reflexivity. Qed.

Lemma compute_weight_matrix_eq (df : DataFrame) (W : list ndarray) :
  compute_weight_matrix df = Ok W ->
  NoDup ((fun c => (source_id c, object_id c)) <$> df)
  /\ W = (fun i =>
            (fun c => if bool_decide ((i, c) ∈ (fun c => (source_id c, object_id c)) <$> df)
                      then Fin 1 else Fin 0)
              <$> sorted_unique (object_id <$> df))
           <$> sorted_unique (source_id <$> df).
Proof.
  unfold compute_weight_matrix, pivot.
  assert (Hk : ((fun c => (source_id c, object_id c, value c)) <$> df).*1
               = (fun c => (source_id c, object_id c)) <$> df).
  { rewrite <- list_fmap_compose. reflexivity. }
  assert (Hs : (fst ∘ fst) <$> ((fun c => (source_id c, object_id c, value c)) <$> df)
               = source_id <$> df).
  { rewrite <- list_fmap_compose. reflexivity. }
  assert (Ho : (snd ∘ fst) <$> ((fun c => (source_id c, object_id c, value c)) <$> df)
               = object_id <$> df).
  { rewrite <- list_fmap_compose. reflexivity. }
  rewrite Hs, Ho, Hk. case_decide as Hnd; [|discriminate].
  cbn [mbind result_bind]. intros [= <-]. split; [exact Hnd|].
  unfold assign_where, fillna. rewrite <- !list_fmap_compose.
  apply list_fmap_ext. intros _ i _. unfold compose.
  rewrite <- !list_fmap_compose.
  apply list_fmap_ext. intros _ c _. unfold compose.
  destruct (_ !! (i, c)) as [v|] eqn:E.
  - rewrite bool_decide_eq_true_2; [apply weight_entry_claimed|].
    apply elem_of_list_to_map_2 in E. rewrite <- Hk.
    apply (list_elem_of_fmap_2 fst) in E. exact E.
  - rewrite bool_decide_eq_false_2; [reflexivity|].
    apply not_elem_of_list_to_map in E. rewrite <- Hk. exact E.
Qed.

Lemma compute_weight_matrix_Ok (df : DataFrame) (W : list ndarray) :
  compute_weight_matrix df = Ok W ->
  length W = nunique (source_id <$> df)
  /\ (forall row, row ∈ W -> length row = nunique (object_id <$> df))
  /\ (forall row w, row ∈ W -> w ∈ row -> w = Fin 0 \/ w = Fin 1)
  /\ (forall row, row ∈ W -> Fin 1 ∈ row).
Proof.
  intros H. apply compute_weight_matrix_eq in H. destruct H as [Hnd ->].
  split; [|split; [|split]].
  - rewrite length_fmap. apply length_sorted_unique.
  - intros row (i & -> & Hi)%list_elem_of_fmap.
    rewrite !length_fmap. apply length_sorted_unique.
  - intros row w (i & -> & Hi)%list_elem_of_fmap (c & -> & Hc)%list_elem_of_fmap.
    case_bool_decide; auto.
  - intros row (i & -> & Hi)%list_elem_of_fmap.
    rewrite elem_of_sorted_unique in Hi.
    apply list_elem_of_fmap in Hi. destruct Hi as (c & -> & Hc).
    apply list_elem_of_fmap. exists (object_id c). split.
    + rewrite bool_decide_eq_true_2; [reflexivity|].
      apply list_elem_of_fmap. exists c. split; [reflexivity | exact Hc].
    + rewrite elem_of_sorted_unique. apply list_elem_of_fmap_2. exact Hc.
Qed.

(** ** The constructor *)

Lemma init_inv (df : DataFrame) (self : t) :
  init df = Ok self ->
  exists B W pr,
    compute_observation_matrix df = Ok B
    /\ compute_weight_matrix df = Ok W
    /\ for_each (range (nunique (object_id <$> df)))
         (fun o (prior : gmap nat ndarray) =>
            d ← getitem ((fun m => m + 1)%nat <$> groupby_max_value df) o;
            Ok (<[o := scale fdiv (ones d) (of_nat d)]> prior)) ∅ = Ok pr
    /\ self = Build df B W (nunique (source_id <$> df))
                (nunique (object_id <$> df))
                ((fun m => m + 1)%nat <$> groupby_max_value df) ∅ pr
                (foldl (fun (m : gmap (nat * nat) nat) c =>
                          <[(source_id c, object_id c) := value c]> m) ∅ df)
                (Store (fmul (Fin 0.5) <$> ones (nunique (source_id <$> df)))
                       (fmul (Fin 0.99) <$> ones (nunique (source_id <$> df))))
                Ref0 Ref1.
Proof.
  unfold init, _compute_prob_desc. intros H.
  apply bind_Ok in H. destruct H as (B & HB & H).
  apply bind_Ok in H. destruct H as (W & HW & H).
  apply bind_Ok in H. destruct H as (pr & Hpr & H).
  injection H as <-. exists B, W, pr. auto.
Qed.

Lemma init_prior (df : DataFrame) (n : nat) (pr : gmap nat ndarray) :
  for_each (range n)
    (fun o (prior : gmap nat ndarray) =>
       d ← getitem ((fun m => m + 1)%nat <$> groupby_max_value df) o;
       Ok (<[o := scale fdiv (ones d) (of_nat d)]> prior)) ∅ = Ok pr ->
  (forall o, (o < n)%nat ->
     exists d, ((fun m => m + 1)%nat <$> groupby_max_value df) !! o = Some d
               /\ (1 <= d)%nat
               /\ pr !! o = Some (scale fdiv (ones d) (of_nat d)))
  /\ (forall o, is_Some (pr !! o) -> (o < n)%nat).
Proof.
  intros H. unfold range in H.
  apply (for_each_range_partial
           (fun k (prior : gmap nat ndarray) =>
              (forall o, (o < k)%nat ->
                 exists d, ((fun m => m + 1)%nat <$> groupby_max_value df) !! o = Some d
                           /\ (1 <= d)%nat
                           /\ prior !! o = Some (scale fdiv (ones d) (of_nat d)))
              /\ (forall o, is_Some (prior !! o) -> (o < k)%nat))) in H.
  - exact H.
  - split; [lia|]. intros o [x Hx]. rewrite lookup_empty in Hx. discriminate.
  - intros k prior prior1 _ [I1 I2] Hb.
    apply bind_Ok in Hb. destruct Hb as (d & Hd & [= <-]).
    unfold getitem in Hd.
    destruct (_ !! k) as [d'|] eqn:E; [|discriminate]. injection Hd as ->.
    split.
    + intros o Ho. destruct (decide (o = k)) as [->|Hne].
      * exists d. split; [exact E|]. split; [|apply lookup_insert_eq].
        rewrite lookup_fmap in E. destruct (_ !! k); [|discriminate].
        injection E as <-. lia.
      * destruct (I1 o ltac:(lia)) as (d0 & H1 & H2 & H3).
        exists d0. split; [exact H1|]. split; [exact H2|].
        rewrite lookup_insert_ne by congruence. exact H3.
    + intros o Ho. destruct (decide (o = k)) as [->|Hne]; [lia|].
      rewrite lookup_insert_ne in Ho by congruence. specialize (I2 o Ho). lia.
Qed.

Lemma length_fmul_ones (c : float) (n : nat) : length (fmul c <$> ones n) = n.
Proof. rewrite length_fmap. apply length_replicate. Qed.

Lemma init_wf (df : DataFrame) (self : t) : init df = Ok self -> wf self.
Proof.
  intros H. destruct (init_inv df self H) as (B & W & pr & _ & HW & Hpr & ->).
  apply compute_weight_matrix_Ok in HW. destruct HW as (W1 & W2 & W3 & W4).
  apply init_prior in Hpr. destruct Hpr as [P1 P2].
  constructor; cbn [weight n_sources n_objects domain_size prior posterior heap
                      theta_old theta_new deref cell0 cell1]; auto.
  - intros o p Hp. rewrite lookup_empty in Hp. discriminate.
  - apply length_fmul_ones.
  - apply length_fmul_ones.
Qed.

(** ** The checks of the EM test suite, on the embedding *)

Example test_build_observation_matrix :
  exists self, init fixtureA = Ok self
               /\ length (observation self) = 3%nat
               /\ Forall (fun row => length row = 5%nat) (observation self)
               /\ (observation self !! 1%nat ≫= fun row => row !! 2%nat) = Some (Fin 3)
               /\ (observation self !! 1%nat ≫= fun row => row !! 0%nat) = Some (Fin (-1)).
Proof.
  eexists. split; [vm_compute; reflexivity|]. cbn [observation].
  split; [reflexivity|]. split; [repeat constructor|]. split; reflexivity.
Qed.

Example test_build_weight_matrix :
  exists self, init fixtureA = Ok self
               /\ length (weight self) = 3%nat
               /\ Forall (fun row => length row = 3%nat) (weight self)
               /\ W self 2 0 = Fin 0 /\ W self 2 2 = Fin 1.
Proof.
  eexists. split; [vm_compute; reflexivity|]. cbn [weight].
  split; [reflexivity|]. split; [repeat constructor|]. split; reflexivity.
Qed.

Example test_compute_joint :
  exists self joint_prob x,
    init fixtureB = Ok self
    /\ compute_joint self 1 = Ok joint_prob
    /\ length joint_prob = 2%nat
    /\ joint_prob !! 1%nat = Some x /\ x ≡ Fin 0.0625.
Proof.
  do 3 eexists. split; [vm_compute; reflexivity|].
  split; [vm_compute; reflexivity|]. split; [reflexivity|].
  split; [reflexivity|]. vm_compute. reflexivity.
Qed.

Example test_e_step :
  exists self self1,
    init fixtureB = Ok self /\ e_step self = Ok self1
    /\ post self1 1 1 ≡ Fin 0.5.
Proof.
  do 2 eexists. split; [vm_compute; reflexivity|].
  split; [vm_compute; reflexivity|]. vm_compute. reflexivity.
Qed.

(** ** The E-step *)

Lemma item_Ok {A} (a : list A) (i : nat) (x : A) : a !! i = Some x -> item a i = Ok x.
Proof. intros H. unfold item. rewrite H. reflexivity. Qed.

Lemma getitem_Ok `{Countable K} {V} (d : gmap K V) (k : K) (v : V) :
  d !! k = Some v -> getitem d k = Ok v.
Proof. intros Hl. unfold getitem. rewrite Hl. reflexivity. Qed.

Lemma setitem_Ok {A} (a : list A) (i : nat) (x : A) :
  (i < length a)%nat -> setitem a i x = Ok (<[i:=x]> a).
Proof. intros Hl. unfold setitem. rewrite decide_True by exact Hl. reflexivity. Qed.

Lemma wf_weight_lookup (self : t) (s o : nat) :
  wf self -> (s < n_sources self)%nat -> (o < n_objects self)%nat ->
  exists row, weight self !! s = Some row /\ row !! o = Some (W self s o)
              /\ (W self s o = Fin 0 \/ W self s o = Fin 1).
Proof.
  intros Hwf Hs Ho.
  destruct (lookup_lt_is_Some_2 (weight self) s) as [row Hrow].
  { rewrite (wf_rows _ Hwf). exact Hs. }
  assert (Hin : row ∈ weight self) by (eapply list_elem_of_lookup_2; eauto).
  destruct (lookup_lt_is_Some_2 row o) as [w Hw].
  { rewrite (wf_cols _ Hwf row Hin). exact Ho. }
  exists row. unfold W. rewrite Hrow. simpl. rewrite Hw. simpl.
  split; [reflexivity|]. split; [reflexivity|].
  apply (wf_bits _ Hwf row w Hin). eapply list_elem_of_lookup_2; eauto.
Qed.

Lemma wf_theta_lookup (self : t) (r : ref) (s : nat) :
  length (deref (heap self) r) = n_sources self -> (s < n_sources self)%nat ->
  deref (heap self) r !! s = Some (theta self r s).
Proof.
  intros Hlen Hs. unfold theta.
  destruct (lookup_lt_is_Some_2 (deref (heap self) r) s) as [x Hx]; [lia|].
  rewrite Hx. reflexivity.
Qed.

Lemma wf_dsize (self : t) (o : nat) :
  wf self -> (o < n_objects self)%nat ->
  domain_size self !! o = Some (dsize self o) /\ (1 <= dsize self o)%nat
  /\ prior self !! o
     = Some (scale fdiv (ones (dsize self o)) (of_nat (dsize self o))).
Proof.
  intros Hwf Ho. destruct (wf_domain _ Hwf o Ho) as (d & Hd & Hd1 & Hp).
  unfold dsize. rewrite Hd. simpl. auto.
Qed.

Lemma insert_app_replicate {A} (l : list A) (x y : A) (k n : nat) :
  length l = k -> (k < n)%nat ->
  <[k:=x]> (l ++ replicate (n - k) y) = (l ++ [x]) ++ replicate (n - S k) y.
Proof.
  intros Hl Hk. replace (n - k)%nat with (S (n - S k)) by lia.
  rewrite insert_app_r_alt by lia. rewrite Hl, Nat.sub_diag. simpl.
  rewrite <- app_assoc. reflexivity.
Qed.

(** The body of [compute_responsibility] fills the array [resp] with the
    factor of every source that made a claim about the object and leaves the
    initial one elsewhere. *)
Lemma compute_responsibility_eq (self : t) (o v : nat) :
  wf self -> (o < n_objects self)%nat ->
  compute_responsibility self o v
  = Ok (np_prod ((fun s => if feqb (W self s o) (Fin 1) then factor self o v s
                           else Fin 1) <$> range (n_sources self))).
Proof.
  intros Hwf Ho. unfold compute_responsibility.
  set (cell := fun s => if feqb (W self s o) (Fin 1) then factor self o v s else Fin 1).
  set (n := n_sources self). unfold range.
  edestruct (for_each_range_total
               (fun k (resp : ndarray) => resp = (cell <$> seq 0 k) ++ replicate (n - k) (Fin 1)))
    as (resp & Hrun & Hresp); [| |rewrite Hrun].
  - unfold ones. rewrite Nat.sub_0_r. reflexivity.
  - intros k resp Hk ->. simpl in Hk.
    destruct (wf_weight_lookup self k o Hwf ltac:(lia) Ho) as (row & Hrow & Hw & _).
    rewrite (item_Ok _ _ _ Hrow). cbn [mbind result_bind].
    rewrite (item_Ok _ _ _ Hw). cbn [mbind result_bind].
    rewrite (item_Ok _ _ _ (wf_theta_lookup self _ k (wf_theta_old _ Hwf) ltac:(lia))).
    cbn [mbind result_bind].
    destruct (wf_dsize self o Hwf Ho) as (Hd & _ & _).
    rewrite (getitem_Ok _ _ _ Hd). cbn [mbind result_bind].
    assert (Hlen : (k < length ((cell <$> seq 0 k) ++ replicate (n - k) (Fin 1)))%nat).
    { rewrite length_app, length_fmap, length_seq, length_replicate. lia. }
    rewrite seq_S, fmap_app. simpl.
    destruct (feqb (W self k o) (Fin 1)) eqn:Ew.
    + case_bool_decide as Hv.
      * rewrite setitem_Ok by exact Hlen. eexists. split; [reflexivity|].
        rewrite insert_app_replicate by (rewrite ?length_fmap, ?length_seq; lia).
        unfold cell, factor. rewrite Ew, bool_decide_eq_true_2 by exact Hv. reflexivity.
      * rewrite setitem_Ok by exact Hlen. eexists. split; [reflexivity|].
        rewrite insert_app_replicate by (rewrite ?length_fmap, ?length_seq; lia).
        unfold cell, factor. rewrite Ew, bool_decide_eq_false_2 by exact Hv. reflexivity.
    + eexists. split; [reflexivity|].
      replace (n - k)%nat with (S (n - S k)) by lia. simpl.
      rewrite <- app_assoc. unfold cell. rewrite Ew. reflexivity.
  - simpl in Hresp. rewrite Hresp, Nat.sub_diag. simpl. rewrite app_nil_r.
    reflexivity.
Qed.

Lemma np_prod_skip_ones {A} (b : A -> bool) (f : A -> float) (l : list A) :
  np_prod ((fun s => if b s then f s else Fin 1) <$> l)
  ≡ np_prod (f <$> filter (fun s => b s = true) l).
Proof.
  unfold np_prod. induction l as [|s l IH]; [reflexivity|].
  rewrite fmap_cons, filter_cons. cbn [foldr]. rewrite IH.
  destruct (b s) eqn:E.
  - rewrite decide_True by reflexivity. reflexivity.
  - rewrite decide_False by discriminate. apply fmul_1_l.
Qed.

Lemma compute_joint_eq (self : t) (o : nat) :
  wf self -> (o < n_objects self)%nat -> compute_joint self o = Ok (joint self o).
Proof.
  intros Hwf Ho. unfold compute_joint.
  destruct (wf_dsize self o Hwf Ho) as (Hd & _ & Hp).
  rewrite (getitem_Ok _ _ _ Hd). cbn [mbind result_bind].
  set (d := dsize self o) in *.
  set (rv := fun v => np_prod (resp_array self o v)).
  unfold ones at 1. rewrite length_replicate. unfold range at 1.
  edestruct (for_each_range_total
               (fun k (r : ndarray) => r = (rv <$> seq 0 k) ++ replicate (d - k) (Fin 1)))
    as (r & Hrun & Hr); [| |rewrite Hrun].
  - unfold ones. rewrite Nat.sub_0_r. reflexivity.
  - intros k r Hk ->. simpl in Hk.
    rewrite (compute_responsibility_eq self o k Hwf Ho). cbn [mbind result_bind].
    rewrite setitem_Ok.
    + eexists. split; [reflexivity|].
      rewrite insert_app_replicate by (rewrite ?length_fmap, ?length_seq; lia).
      rewrite seq_S, fmap_app. reflexivity.
    + rewrite length_app, length_fmap, length_seq, length_replicate. lia.
  - simpl in Hr. rewrite Nat.sub_diag, app_nil_r in Hr. subst r.
    cbn [mbind result_bind]. rewrite (getitem_Ok _ _ _ Hp). cbn [mbind result_bind].
    unfold broadcast. rewrite decide_True; [reflexivity|].
    unfold scale, ones. rewrite !length_fmap, length_replicate, length_seq.
    reflexivity.
Qed.

Lemma length_joint (self : t) (o : nat) : length (joint self o) = dsize self o.
Proof.
  unfold joint, scale, ones, range.
  rewrite length_zip_with, !length_fmap, length_replicate, length_seq. lia.
Qed.

Lemma compute_joint_set_posterior (self : t) (pm : gmap nat ndarray) (o : nat) :
  compute_joint (set_posterior self pm) o = compute_joint self o.
Proof. destruct self. reflexivity. Qed.

Lemma wf_set_posterior (self : t) (pm : gmap nat ndarray) :
  wf self ->
  (forall o p, pm !! o = Some p -> (o < n_objects self)%nat /\ length p = dsize self o) ->
  wf (set_posterior self pm).
Proof.
  intros [] Hpm. destruct self. constructor; auto.
Qed.

(** The E-step stores, for every object, the joint distribution divided by
    its sum, and changes nothing else. *)
Lemma e_step_eq (self : t) :
  wf self ->
  exists pm,
    e_step self = Ok (set_posterior self pm)
    /\ (forall o, (o < n_objects self)%nat ->
          pm !! o = Some (scale fdiv (joint self o) (np_sum (joint self o))))
    /\ (forall o, (n_objects self <= o)%nat -> pm !! o = posterior self !! o).
Proof.
  intros Hwf. unfold e_step, range.
  edestruct (for_each_range_total
               (fun k (s : t) =>
                  exists pm, s = set_posterior self pm
                    /\ (forall o, (o < k)%nat ->
                          pm !! o = Some (scale fdiv (joint self o) (np_sum (joint self o))))
                    /\ (forall o, (k <= o)%nat -> pm !! o = posterior self !! o)))
    as (s & Hrun & (pm & -> & H1 & H2)); [| |exists pm; eauto].
  - exists (posterior self). split; [destruct self; reflexivity|].
    split; [lia | reflexivity].
  - intros k s Hk (pm & -> & H1 & H2). simpl in Hk.
    rewrite compute_joint_set_posterior, (compute_joint_eq self k Hwf) by lia.
    cbn [mbind result_bind]. eexists. split; [reflexivity|].
    eexists. split; [destruct self; reflexivity|].
    replace (posterior (set_posterior self pm)) with pm by (destruct self; reflexivity).
    split.
    + intros o Ho. destruct (decide (o = k)) as [->|Hne].
      * apply lookup_insert_eq.
      * rewrite lookup_insert_ne by congruence. apply H1. lia.
    + intros o Ho. rewrite lookup_insert_ne by lia. apply H2. lia.
Qed.

Lemma e_step_wf (self self' : t) :
  wf self -> e_step self = Ok self' -> wf self' /\ posterior_complete self'.
Proof.
  intros Hwf Hrun. destruct (e_step_eq self Hwf) as (pm & Hrun' & H1 & H2).
  rewrite Hrun' in Hrun. injection Hrun as <-. split.
  - apply wf_set_posterior; [exact Hwf|]. intros o p Hp.
    destruct (decide (o < n_objects self)%nat) as [Ho|Ho].
    + rewrite H1 in Hp by exact Ho. injection Hp as <-. split; [exact Ho|].
      unfold scale. rewrite length_fmap. apply length_joint.
    + rewrite H2 in Hp by lia. apply (wf_posterior _ Hwf o p Hp).
  - intros o Ho. replace (posterior (set_posterior self pm)) with pm
      by (destruct self; reflexivity).
    replace (n_objects (set_posterior self pm)) with (n_objects self) in Ho
      by (destruct self; reflexivity).
    rewrite H1 by exact Ho. eauto.
Qed.

(** ** The M-step *)

Lemma for_each_pure {A S} (body : A -> S -> result S) (g : S -> A -> S)
    (l : list A) (s : S) :
  (forall x s, x ∈ l -> body x s = Ok (g s x)) ->
  for_each l body s = Ok (foldl g s l).
Proof.
  revert s. induction l as [|x l IH]; intros s H; [reflexivity|].
  simpl. rewrite H by left. simpl. apply IH. intros y s' Hy. apply H. right. exact Hy.
Qed.

Lemma foldl_ext_in {A B} (f g : B -> A -> B) (l : list A) (b : B) :
  (forall x b, x ∈ l -> f b x = g b x) -> foldl f b l = foldl g b l.
Proof.
  revert b. induction l as [|x l IH]; intros b H; [reflexivity|].
  simpl. rewrite H by left. apply IH. intros y b' Hy. apply H. right. exact Hy.
Qed.

Lemma elem_of_range (n k : nat) : k ∈ range n <-> (k < n)%nat.
Proof. unfold range. rewrite elem_of_seq. lia. Qed.

Lemma wf_post_lookup (self : t) (o v : nat) :
  wf self -> posterior_complete self ->
  (o < n_objects self)%nat -> (v < dsize self o)%nat ->
  exists p, posterior self !! o = Some p /\ p !! v = Some (post self o v).
Proof.
  intros Hwf Hpc Ho Hv. destruct (Hpc o Ho) as [p Hp].
  destruct (wf_posterior _ Hwf o p Hp) as [_ Hlen].
  destruct (lookup_lt_is_Some_2 p v) as [x Hx]; [lia|].
  exists p. split; [exact Hp|]. unfold post. rewrite Hp. simpl. rewrite Hx. reflexivity.
Qed.

Lemma wf_weight_row (self : t) (s : nat) (row : ndarray) :
  wf self -> weight self !! s = Some row ->
  row = (fun o => W self s o) <$> range (n_objects self).
Proof.
  intros Hwf Hrow.
  assert (Hin : row ∈ weight self) by (eapply list_elem_of_lookup_2; eauto).
  pose proof (wf_cols _ Hwf row Hin) as Hlen.
  apply list_eq. intros o. unfold range. rewrite list_lookup_fmap.
  destruct (decide (o < n_objects self)%nat) as [Ho|Ho].
  - rewrite lookup_seq_lt by exact Ho. simpl.
    destruct (lookup_lt_is_Some_2 row o) as [w Hw]; [lia|].
    unfold W. rewrite Hrow. simpl. rewrite Hw. reflexivity.
  - rewrite lookup_seq_ge by lia. simpl. apply lookup_ge_None. lia.
Qed.

(** [compute_honest(s)] writes [new_theta] at position [s] of the array
    behind [theta_new], in place. *)
Lemma compute_honest_eq (self : t) (s : nat) :
  wf self -> posterior_complete self -> (s < n_sources self)%nat ->
  compute_honest self s
  = Ok (set_heap self
          (update (heap self) (theta_new self)
             (<[s := new_theta self s]> (deref (heap self) (theta_new self))))).
Proof.
  intros Hwf Hpc Hs. unfold compute_honest.
  destruct (lookup_lt_is_Some_2 (weight self) s) as [row Hrow].
  { rewrite (wf_rows _ Hwf). exact Hs. }
  rewrite (item_Ok _ _ _ Hrow). cbn [mbind result_bind].
  rewrite (for_each_pure _
             (fun honest o =>
                foldl (fun honest v =>
                         (honest
                          + post self o v
                            * (W self s o
                               * of_bool (bool_decide (get_value self s o = Some v))))%F)
                      honest (range (dsize self o)))).
  - cbn [mbind result_bind]. rewrite setitem_Ok.
    + cbn [mbind result_bind]. unfold new_theta, honest_loop.
      rewrite <- (wf_weight_row self s row Hwf Hrow). reflexivity.
    + rewrite (wf_theta_new _ Hwf). exact Hs.
  - intros o honest Ho%elem_of_range.
    destruct (wf_dsize self o Hwf Ho) as (Hd & _ & _).
    rewrite (getitem_Ok _ _ _ Hd). cbn [mbind result_bind].
    apply for_each_pure. intros v h Hv%elem_of_range.
    destruct (wf_weight_lookup self s o Hwf Hs Ho) as (row' & Hrow' & Hw & _).
    rewrite Hrow in Hrow'. injection Hrow' as <-.
    rewrite (item_Ok _ _ _ Hw). cbn [mbind result_bind].
    destruct (wf_post_lookup self o v Hwf Hpc Ho Hv) as (p & Hp & Hpv).
    rewrite (getitem_Ok _ _ _ Hp). cbn [mbind result_bind].
    rewrite (item_Ok _ _ _ Hpv). reflexivity.
Qed.

Lemma update_update (h : store) (r : ref) (a b : ndarray) :
  update (update h r a) r b = update h r b.
Proof. destruct r; reflexivity. Qed.

Lemma deref_update (h : store) (r : ref) (a : ndarray) : deref (update h r a) r = a.
Proof. destruct r; reflexivity. Qed.

Lemma set_heap_set_heap (self : t) (h1 h2 : store) :
  set_heap (set_heap self h1) h2 = set_heap self h2.
Proof. reflexivity. Qed.

Lemma heap_set_heap (self : t) (h : store) : heap (set_heap self h) = h.
Proof. reflexivity. Qed.

Lemma theta_new_set_heap (self : t) (h : store) :
  theta_new (set_heap self h) = theta_new self.
Proof. reflexivity. Qed.

Lemma new_theta_set_heap (self : t) (h : store) (s : nat) :
  new_theta (set_heap self h) s = new_theta self s.
Proof. reflexivity. Qed.

Lemma wf_set_heap (self : t) (a : ndarray) :
  wf self -> length a = n_sources self ->
  (theta_old self = theta_new self
   \/ theta_old self <> theta_new self) ->
  wf (set_heap self (update (heap self) (theta_new self) a)).
Proof.
  intros [] Ha _. destruct self as [? ? ? ? ? ? ? ? ? hp r1 r2].
  constructor; auto; cbn in *.
  - destruct r1, r2, hp; cbn in *; auto.
  - destruct r2, hp; cbn in *; auto.
Qed.

Lemma insert_app_drop {A} (l old : list A) (x : A) (k : nat) :
  length l = k -> (k < length old)%nat ->
  <[k:=x]> (l ++ drop k old) = (l ++ [x]) ++ drop (S k) old.
Proof.
  intros Hl Hk. rewrite insert_app_r_alt by lia. rewrite Hl, Nat.sub_diag.
  destruct (drop k old) as [|y tl] eqn:E.
  - apply (f_equal length) in E. rewrite length_drop in E. simpl in E. lia.
  - simpl. rewrite <- app_assoc. simpl. f_equal. f_equal.
    replace (S k) with (k + 1)%nat by lia.
    rewrite <- (drop_drop old 1 k), E. reflexivity.
Qed.

(** The M-step overwrites the array behind [theta_new] with [new_theta], in
    place, and changes nothing else. *)
Lemma m_step_eq (self : t) :
  wf self -> posterior_complete self ->
  m_step self
  = Ok (set_heap self
          (update (heap self) (theta_new self)
             (new_theta self <$> range (n_sources self)))).
Proof.
  intros Hwf Hpc. unfold m_step, range.
  set (old := deref (heap self) (theta_new self)).
  edestruct (for_each_range_total
               (fun k (s : t) =>
                  s = set_heap self
                        (update (heap self) (theta_new self)
                           ((new_theta self <$> seq 0 k) ++ drop k old))))
    as (s & Hrun & Hs); [| |rewrite Hrun, Hs].
  - simpl. unfold old. destruct self as [? ? ? ? ? ? ? ? ? hp r1 r2].
    destruct r2, hp; reflexivity.
  - intros k s Hk ->. simpl in Hk.
    assert (Hlen : length ((new_theta self <$> seq 0 k) ++ drop k old) = n_sources self).
    { rewrite length_app, length_fmap, length_seq, length_drop.
      unfold old. rewrite (wf_theta_new _ Hwf). lia. }
    rewrite compute_honest_eq.
    + eexists. split; [reflexivity|].
      rewrite set_heap_set_heap, heap_set_heap, theta_new_set_heap.
      rewrite update_update, deref_update, new_theta_set_heap.
      rewrite insert_app_drop.
      * rewrite seq_S, fmap_app. reflexivity.
      * rewrite length_fmap, length_seq. reflexivity.
      * unfold old. rewrite (wf_theta_new _ Hwf). lia.
    + apply wf_set_heap; [exact Hwf | exact Hlen |].
      destruct (theta_old self), (theta_new self); auto.
    + intros o Ho. apply Hpc, Ho.
    + exact (proj2 Hk).
  - simpl. rewrite drop_ge, app_nil_r; [reflexivity|].
    unfold old. rewrite (wf_theta_new _ Hwf). lia.
Qed.

Lemma fmul_assoc (x y z : float) : (x * (y * z))%F ≡ (x * y * z)%F.
Proof. destruct x, y, z; simpl; try exact I. apply Fin_equiv; ring. Qed.

Lemma foldl_fadd_sum {A} (g : float -> A -> float) (F : A -> float)
    (l : list A) (h0 : float) :
  (forall h x, x ∈ l -> g h x ≡ (h + F x)%F) ->
  foldl g h0 l ≡ (h0 + np_sum (F <$> l))%F.
Proof.
  revert h0. induction l as [|x l IH]; intros h0 H.
  - simpl. destruct h0; simpl; [apply Fin_equiv; ring | exact I].
  - cbn [foldl]. rewrite IH by (intros h y Hy; apply H; right; exact Hy).
    rewrite (H h0 x) by left. rewrite fmap_cons. unfold np_sum. cbn [foldr].
    symmetry. apply fadd_assoc.
Qed.

Lemma new_theta_honest_spec (self : t) (s : nat) :
  new_theta self s ≡ honest_spec self s.
Proof.
  unfold new_theta, honest_spec, honest_loop. apply fdiv_proper; [|reflexivity].
  rewrite (foldl_fadd_sum _
             (fun o =>
                np_sum ((fun v =>
                           post self o v * W self s o
                           * of_bool (bool_decide (get_value self s o = Some v)))%F
                          <$> range (dsize self o)))).
  - apply fadd_0_l.
  - intros h o _.
    rewrite (foldl_fadd_sum _
               (fun v => (post self o v * W self s o
                          * of_bool (bool_decide (get_value self s o = Some v)))%F)).
    + reflexivity.
    + intros h' v _. rewrite fmul_assoc. reflexivity.
Qed.

Lemma m_step_theta_new (self self' : t) (s : nat) :
  wf self -> posterior_complete self -> (s < n_sources self)%nat ->
  m_step self = Ok self' ->
  theta self' (theta_new self') s = new_theta self s.
Proof.
  intros Hwf Hpc Hs Hrun. rewrite (m_step_eq self Hwf Hpc) in Hrun.
  injection Hrun as <-. unfold theta.
  rewrite heap_set_heap, theta_new_set_heap, deref_update.
  unfold range. rewrite list_lookup_fmap, lookup_seq_lt by exact Hs. reflexivity.
Qed.

(** ** What the methods keep *)

Lemma same_frame_refl (self : t) : same_frame self self.
Proof. repeat split. Qed.

Lemma same_frame_trans (s1 s2 s3 : t) :
  same_frame s1 s2 -> same_frame s2 s3 -> same_frame s1 s3.
Proof.
  intros (?&?&?&?&?&?&?) (?&?&?&?&?&?&?). repeat split; congruence.
Qed.

Lemma e_step_frame (self self' : t) :
  wf self -> e_step self = Ok self' -> same_frame self self'.
Proof.
  intros Hwf H. destruct (e_step_eq self Hwf) as (pm & Hpm & _).
  rewrite Hpm in H. injection H as <-. repeat split.
Qed.

Lemma compute_honest_inv (self self' : t) (s : nat) :
  compute_honest self s = Ok self' ->
  exists x, (s < length (deref (heap self) (theta_new self)))%nat
            /\ self' = set_heap self
                         (update (heap self) (theta_new self)
                            (<[s:=x]> (deref (heap self) (theta_new self)))).
Proof.
  unfold compute_honest. intros H.
  apply bind_Ok in H. destruct H as (row & _ & H).
  apply bind_Ok in H. destruct H as (honest & _ & H).
  apply bind_Ok in H. destruct H as (a & Ha & [= <-]).
  unfold setitem in Ha. case_decide; [|discriminate]. injection Ha as <-.
  eexists. split; [eassumption | reflexivity].
Qed.

Lemma m_step_inv (self self' : t) :
  wf self -> m_step self = Ok self' -> wf self' /\ same_frame self self'
  /\ posterior self' = posterior self /\ theta_old self' = theta_old self
  /\ theta_new self' = theta_new self.
Proof.
  intros Hwf H. unfold m_step, range in H.
  apply (for_each_range_partial
           (fun _ (s : t) => wf s /\ same_frame self s
                             /\ posterior s = posterior self
                             /\ theta_old s = theta_old self
                             /\ theta_new s = theta_new self)) in H.
  - exact H.
  - split; [exact Hwf|]. split; [apply same_frame_refl|]. auto.
  - intros k s s1 _ (Hs & Hf & Hp & Ho & Hn) Hb.
    apply compute_honest_inv in Hb. destruct Hb as (x & Hk & ->).
    split; [|split; [|split; [|split]]].
    + apply wf_set_heap; [exact Hs| |].
      * rewrite length_insert. apply (wf_theta_new _ Hs).
      * destruct (theta_old s), (theta_new s); auto.
    + exact Hf.
    + exact Hp.
    + exact Ho.
    + exact Hn.
Qed.

Lemma wf_set_theta_old (self : t) : wf self -> wf (set_theta_old self (theta_new self)).
Proof. intros []. constructor; auto. Qed.

Lemma reachable_wf (df : DataFrame) (self : t) : reachable df self -> wf self.
Proof.
  induction 1 as [self H|self self' _ IH H|self self' _ IH H|self _ IH].
  - apply (init_wf df). exact H.
  - apply (e_step_wf self self' IH H).
  - apply (m_step_inv self self' IH H).
  - apply wf_set_theta_old. exact IH.
Qed.

Lemma reachable_frame (df : DataFrame) (self : t) :
  reachable df self ->
  exists self0, init df = Ok self0 /\ same_frame self0 self.
Proof.
  induction 1 as [self H|self self' Hr IH H|self self' Hr IH H|self _ IH].
  - exists self. split; [exact H | apply same_frame_refl].
  - destruct IH as (self0 & H0 & Hf). exists self0. split; [exact H0|].
    eapply same_frame_trans; [exact Hf|].
    apply e_step_frame; [apply (reachable_wf df); exact Hr | exact H].
  - destruct IH as (self0 & H0 & Hf). exists self0. split; [exact H0|].
    eapply same_frame_trans; [exact Hf|].
    apply m_step_inv; [apply (reachable_wf df); exact Hr | exact H].
  - destruct IH as (self0 & H0 & Hf). exists self0. split; [exact H0|].
    exact Hf.
Qed.

(** ** Responsibilities and honesty in every state *)

(** C3: in every state of an object built from a claims table, for every
    object [o] of the table and every value [v],
    [compute_responsibility(o, v)] returns the product, over the sources [s]
    with [W[s,o] = 1], of [theta_old[s]] when the value asserted by [s] about
    [o] is [v] and of [(1 - theta_old[s]) / domain_size[o]] otherwise; on
    fixture B, with the initial honesty 0.5 of every source,
    [compute_responsibility(1, 1)] is exactly 0.125. *)
Theorem compute_responsibility_product :
  (forall (df : DataFrame) (self : t) (o v : nat),
     reachable df self -> (o < n_objects self)%nat ->
     exists r, compute_responsibility self o v = Ok r
               /\ r ≡ responsibility_spec self o v)
  /\ (exists self r,
        init fixtureB = Ok self
        /\ compute_responsibility self 1 1 = Ok r
        /\ r ≡ Fin 0.125).
Proof.
  split.
  - intros df self o v Hr Ho. pose proof (reachable_wf df self Hr) as Hwf.
    eexists. split.
    + apply compute_responsibility_eq; assumption.
    + unfold responsibility_spec, claimants. apply np_prod_skip_ones.
  - eexists. eexists. split; [vm_compute; reflexivity|].
    split; [vm_compute; reflexivity|]. vm_compute. reflexivity.
Qed.

Lemma compute_responsibility_product_witness :
  exists self r,
    init fixtureB = Ok self
    /\ compute_responsibility self 1 1 = Ok r
    /\ r ≡ responsibility_spec self 1 1.
Proof.
  destruct (init fixtureB) as [self|] eqn:E; [|vm_compute in E; discriminate].
  destruct (proj1 compute_responsibility_product fixtureB self 1%nat 1%nat)
    as (r & Hr & Hspec).
  - apply reach_init. exact E.
  - apply init_inv in E. destruct E as (? & ? & ? & _ & _ & _ & ->).
    vm_compute. lia.
  - exists self, r. auto.
Defined.

(** C4: in every state of an object built from a claims table, an E-step
    followed by an M-step returns and leaves in [theta_new[s]], for every
    source [s] of the table, the sum over all objects [o] and all values [v]
    of [o]'s domain of
    [posterior[o][v] * W[s,o] * 1{value asserted by s about o = v}], divided
    by the sum over all objects of [W[s,o]]; on fixture B, one E-step followed
    by one M-step gives [theta_new[1] = 0.5] exactly. *)
Theorem m_step_update :
  (forall (df : DataFrame) (self : t) (s : nat),
     reachable df self -> (s < n_sources self)%nat ->
     exists self1 self2,
       e_step self = Ok self1 /\ m_step self1 = Ok self2
       /\ theta self2 (theta_new self2) s ≡ honest_spec self1 s)
  /\ (exists self self1 self2,
        init fixtureB = Ok self
        /\ e_step self = Ok self1
        /\ m_step self1 = Ok self2
        /\ theta self2 (theta_new self2) 1 ≡ Fin 0.5).
Proof.
  split.
  - intros df self s Hr Hs. pose proof (reachable_wf df self Hr) as Hwf.
    destruct (e_step_eq self Hwf) as (pm & E1 & _).
    destruct (e_step_wf self _ Hwf E1) as [Hwf1 Hpc1].
    eexists. eexists. split; [exact E1|]. split.
    + apply m_step_eq; assumption.
    + rewrite (m_step_theta_new _ _ s Hwf1 Hpc1 Hs (m_step_eq _ Hwf1 Hpc1)).
      apply new_theta_honest_spec.
  - do 3 eexists. split; [vm_compute; reflexivity|].
    split; [vm_compute; reflexivity|].
    split; [vm_compute; reflexivity|]. vm_compute. reflexivity.
Qed.

Lemma m_step_update_witness :
  exists self self1 self2,
    init fixtureB = Ok self
    /\ e_step self = Ok self1 /\ m_step self1 = Ok self2
    /\ theta self2 (theta_new self2) 1 ≡ honest_spec self1 1.
Proof.
  destruct (init fixtureB) as [self|] eqn:E; [|vm_compute in E; discriminate].
  destruct (proj1 m_step_update fixtureB self 1%nat) as (self1 & self2 & H1 & H2 & H3).
  - apply reach_init. exact E.
  - apply init_inv in E. destruct E as (? & ? & ? & _ & _ & _ & ->).
    vm_compute. lia.
  - exists self, self1, self2. auto.
Defined.

(** ** Domain sizes, priors and posteriors *)

(** A constructor that returns has met object identifiers that are exactly
    [0 .. n_objects - 1]. *)
Lemma init_objects_dense (df : DataFrame) (self : t) (o : nat) :
  init df = Ok self -> o ∈ object_id <$> df <-> (o < n_objects self)%nat.
Proof.
  intros H. destruct (init_inv df self H) as (B & W & pr & _ & _ & Hpr & ->).
  cbn [n_objects]. apply init_prior in Hpr. destruct Hpr as [P1 _].
  assert (Hsub : forall k, k ∈ seq 0 (nunique (object_id <$> df)) ->
                           k ∈ remove_dups (object_id <$> df)).
  { intros k Hk. apply elem_of_seq in Hk. apply elem_of_remove_dups.
    destruct (P1 k ltac:(lia)) as (d & Hd & _).
    destruct (decide (k ∈ object_id <$> df)) as [Hin|Hin]; [exact Hin|].
    rewrite lookup_fmap, (groupby_max_value_None df k Hin) in Hd. discriminate. }
  apply NoDup_submseteq in Hsub; [|apply NoDup_seq].
  apply submseteq_length_Permutation in Hsub;
    [|rewrite length_seq; unfold nunique; lia].
  rewrite <- elem_of_remove_dups, <- Hsub, elem_of_seq. lia.
Qed.

Lemma uniform_prior (d : nat) :
  (1 <= d)%nat ->
  scale fdiv (ones d) (of_nat d)
  = replicate d (Fin (1 / inject_Z (Z.of_nat d))).
Proof.
  intros Hd. unfold scale, ones. rewrite fmap_replicate. f_equal.
  unfold of_nat. apply fdiv_Fin. intros H0.
  pose proof (of_nat_pos d ltac:(lia)) as Hp. rewrite H0 in Hp.
  revert Hp. apply Qlt_irrefl.
Qed.

(** C6: in every state of an object built from a claims table, every object
    [o] of the table has [domain_size[o]] equal to the largest value asserted
    for [o] plus one and a prior that is the uniform vector of that length;
    every stored prior and every stored posterior has exactly the length
    [domain_size[o]] of its object. *)
Theorem domain_size_invariant (df : DataFrame) (self : t) :
  reachable df self ->
  (forall o, o ∈ object_id <$> df ->
     exists m,
       (exists c, c ∈ df /\ object_id c = o /\ value c = m)
       /\ (forall c, c ∈ df -> object_id c = o -> (value c <= m)%nat)
       /\ domain_size self !! o = Some (m + 1)%nat
       /\ prior self !! o
          = Some (replicate (m + 1) (Fin (1 / inject_Z (Z.of_nat (m + 1))))))
  /\ (forall o p, prior self !! o = Some p ->
        exists d, domain_size self !! o = Some d /\ length p = d)
  /\ (forall o p, posterior self !! o = Some p ->
        exists d, domain_size self !! o = Some d /\ length p = d).
Proof.
  intros Hr. pose proof (reachable_wf df self Hr) as Hwf.
  destruct (reachable_frame df self Hr) as (self0 & H0 & Hf).
  destruct Hf as (_ & _ & _ & Hno & Hds & Hpr & _).
  split; [|split].
  - intros o Ho.
    destruct (groupby_max_value_Some df o Ho) as (m & Hm & Hex & Hmax).
    exists m. split; [exact Hex|]. split; [exact Hmax|].
    assert (Hlt : (o < n_objects self)%nat).
    { rewrite Hno. apply (init_objects_dense df self0 o H0). exact Ho. }
    destruct (wf_domain _ Hwf o Hlt) as (d & Hd & Hd1 & Hp).
    assert (d = (m + 1)%nat) as ->.
    { rewrite Hds in Hd. destruct (init_inv df self0 H0) as (?&?&?&_&_&_&->).
      cbn [domain_size] in Hd. rewrite lookup_fmap, Hm in Hd.
      injection Hd as <-. reflexivity. }
    split; [exact Hd|]. rewrite Hp. f_equal. apply uniform_prior. lia.
  - intros o p Hp.
    pose proof (wf_prior_keys _ Hwf o (mk_is_Some _ _ Hp)) as Hlt.
    destruct (wf_domain _ Hwf o Hlt) as (d & Hd & _ & Hp').
    exists d. split; [exact Hd|]. rewrite Hp' in Hp. injection Hp as <-.
    unfold scale, ones. rewrite length_fmap. apply length_replicate.
  - intros o p Hp. destruct (wf_posterior _ Hwf o p Hp) as [Hlt Hlen].
    destruct (wf_dsize self o Hwf Hlt) as (Hd & _ & _).
    exists (dsize self o). split; [exact Hd | exact Hlen].
Qed.

Lemma domain_size_invariant_witness :
  exists self1,
    (init fixtureA ≫= e_step) = Ok self1
    /\ domain_size self1 !! 1%nat = Some 4%nat
    /\ (forall o p, posterior self1 !! o = Some p ->
          exists d, domain_size self1 !! o = Some d /\ length p = d).
Proof.
  destruct (init fixtureA) as [self|] eqn:E; [|vm_compute in E; discriminate].
  destruct (e_step self) as [self1|] eqn:E1.
  2:{ destruct (e_step_eq self (init_wf _ _ E)) as (pm & Hpm & _). congruence. }
  exists self1. split; [exact E1|].
  destruct (domain_size_invariant fixtureA self1) as (H1 & _ & H3).
  - eapply reach_e_step; [apply reach_init; exact E | exact E1].
  - split; [|exact H3].
    destruct (H1 1%nat) as (m & (c & Hc & Ho & Hv) & Hmax & Hd & _).
    + vm_compute. right. left.
    + rewrite Hd. f_equal.
      assert (m = 3%nat) as ->; [|reflexivity].
      pose proof (Hmax (Claim 1 1 3)) as H3'. simpl in H3'.
      assert (value c <= 3)%nat.
      { unfold fixtureA in Hc. repeat (apply elem_of_cons in Hc; destruct Hc as [->|Hc]);
          try (simpl; lia). inversion Hc. }
      assert (3 <= m)%nat.
      { apply H3'; [|reflexivity]. unfold fixtureA. do 2 right. left. }
      lia.
Defined.

(** ** The value index *)

Lemma value_index_None (df : DataFrame) (k : nat * nat) :
  k ∉ (fun c => (source_id c, object_id c)) <$> df ->
  foldl (fun (m : gmap (nat * nat) nat) c =>
           <[(source_id c, object_id c) := value c]> m) ∅ df !! k = None.
Proof.
  induction df as [|c df IH] using rev_ind; intros H; [apply lookup_empty|].
  rewrite fmap_app, not_elem_of_app in H. destruct H as [H1 H2].
  rewrite foldl_app. cbn [foldl]. rewrite lookup_insert_ne.
  - apply IH, H1.
  - intros <-. apply H2. left.
Qed.

Lemma value_index_Some (df : DataFrame) (c : claim) :
  NoDup ((fun c => (source_id c, object_id c)) <$> df) -> c ∈ df ->
  foldl (fun (m : gmap (nat * nat) nat) c =>
           <[(source_id c, object_id c) := value c]> m) ∅ df
  !! (source_id c, object_id c) = Some (value c).
Proof.
  induction df as [|c' df IH] using rev_ind; intros Hnd Hc; [inversion Hc|].
  rewrite fmap_app in Hnd. apply NoDup_app in Hnd. destruct Hnd as (Hnd & Hdisj & _).
  rewrite foldl_app. cbn [foldl].
  apply elem_of_app in Hc. destruct Hc as [Hc|Hc].
  - rewrite lookup_insert_ne; [apply IH; assumption|].
    intros Heq. apply (Hdisj (source_id c, object_id c)).
    + apply list_elem_of_fmap. exists c. auto.
    + rewrite <- Heq. left.
  - apply list_elem_of_singleton in Hc. subst c'. apply lookup_insert_eq.
Qed.

(** C8: in every state of an object built from a claims table (which then
    has no duplicate (source, object) pair), [get_value(s, o)] returns the
    value asserted by [s] about [o] when the table holds such a claim and
    [None] when it holds none; on fixture A, [get_value(1, 0)] is 1 and
    [get_value(1, 1)] is 3. *)
Theorem get_value_lookup :
  (forall (df : DataFrame) (self : t),
     reachable df self ->
     NoDup ((fun c => (source_id c, object_id c)) <$> df)
     /\ (forall c, c ∈ df ->
           get_value self (source_id c) (object_id c) = Some (value c))
     /\ (forall s o, (forall c, c ∈ df -> source_id c = s -> object_id c <> o) ->
           get_value self s o = None))
  /\ (exists self, init fixtureA = Ok self
                   /\ get_value self 1 0 = Some 1%nat
                   /\ get_value self 1 1 = Some 3%nat
                   /\ get_value self 2 0 = None).
Proof.
  split.
  - intros df self Hr. destruct (reachable_frame df self Hr) as (self0 & H0 & Hf).
    destruct Hf as (_ & _ & _ & _ & _ & _ & Hvi).
    destruct (init_inv df self0 H0) as (B & W & pr & _ & HW & _ & ->).
    cbn [value_index] in Hvi. apply compute_weight_matrix_eq in HW.
    destruct HW as [Hnd _]. unfold get_value. rewrite Hvi.
    split; [exact Hnd|]. split.
    + intros c Hc. apply value_index_Some; assumption.
    + intros s o H. apply value_index_None.
      intros (c & [= -> ->] & Hc)%list_elem_of_fmap. apply (H c Hc); reflexivity.
  - eexists. split; [vm_compute; reflexivity|]. repeat split.
Qed.

Lemma get_value_lookup_witness :
  exists self, init fixtureA = Ok self
               /\ get_value self 1 1 = Some 3%nat
               /\ get_value self 2 1 = None.
Proof.
  destruct (init fixtureA) as [self|] eqn:E; [|vm_compute in E; discriminate].
  destruct (proj1 get_value_lookup fixtureA self (reach_init _ _ E)) as (_ & H1 & H2).
  exists self. split; [reflexivity|]. split.
  - apply (H1 (Claim 1 1 3)). unfold fixtureA. do 2 right. left.
  - apply H2. intros c Hc. unfold fixtureA in Hc.
    repeat (apply elem_of_cons in Hc; destruct Hc as [->|Hc]); simpl; try lia.
    inversion Hc.
Defined.

(** ** What [discover] returns *)

Lemma compute_trust_eq (self : t) :
  wf self ->
  exists trust,
    _compute_trust self = Ok trust
    /\ forall s, trust !! s
                 = if decide (s < n_sources self)%nat
                   then Some (Bernoulli (theta self (theta_old self) s)) else None.
Proof.
  intros Hwf. unfold _compute_trust, range.
  edestruct (for_each_range_total
               (fun k (trust : gmap nat RandomVariable) =>
                  forall s, trust !! s
                            = if decide (s < k)%nat
                              then Some (Bernoulli (theta self (theta_old self) s))
                              else None))
    as (trust & Hrun & Htrust); [| |exists trust; split; [exact Hrun | exact Htrust]].
  - intros s. rewrite decide_False by lia. apply lookup_empty.
  - intros k trust Hk Hinv. simpl in Hk. cbv beta.
    rewrite (item_Ok _ _ _ (wf_theta_lookup self _ k (wf_theta_old _ Hwf) ltac:(lia))).
    cbn [mbind result_bind]. eexists. split; [reflexivity|].
    intros s. destruct (decide (s = k)) as [->|Hne].
    + rewrite lookup_insert_eq, decide_True by lia. reflexivity.
    + rewrite lookup_insert_ne by congruence. rewrite Hinv.
      repeat case_decide; try lia; reflexivity.
Qed.

Lemma compute_truth_eq (self : t) :
  posterior_complete self ->
  exists truth,
    _compute_truth self = Ok truth
    /\ forall o, truth !! o
                 = if decide (o < n_objects self)%nat
                   then Categorical <$> posterior self !! o else None.
Proof.
  intros Hpc. unfold _compute_truth, range.
  edestruct (for_each_range_total
               (fun k (truth : gmap nat RandomVariable) =>
                  forall o, truth !! o
                            = if decide (o < k)%nat
                              then Categorical <$> posterior self !! o else None))
    as (truth & Hrun & Htruth); [| |exists truth; split; [exact Hrun | exact Htruth]].
  - intros o. rewrite decide_False by lia. apply lookup_empty.
  - intros k truth Hk Hinv. simpl in Hk.
    destruct (Hpc k ltac:(lia)) as [p Hp]. cbv beta.
    rewrite (getitem_Ok _ _ _ Hp). cbn [mbind result_bind].
    eexists. split; [reflexivity|].
    intros o. destruct (decide (o = k)) as [->|Hne].
    + rewrite lookup_insert_eq, decide_True, Hp by lia. reflexivity.
    + rewrite lookup_insert_ne by congruence. rewrite Hinv.
      repeat case_decide; try lia; reflexivity.
Qed.

Lemma posterior_complete_m_step (self self' : t) :
  wf self -> posterior_complete self -> m_step self = Ok self' ->
  posterior_complete self'.
Proof.
  intros Hwf Hpc H. destruct (m_step_inv self self' Hwf H) as (_ & Hf & Hp & _).
  destruct Hf as (_ & _ & _ & Hn & _). intros o Ho. rewrite Hp. apply Hpc. lia.
Qed.

(** The loop hands back a state that an E-step and an M-step produced. *)
Lemma em_loop_returned (fuel : nat) (alpha : float) (self self' : t) :
  wf self -> em_loop fuel alpha self = Returned self' ->
  wf self' /\ posterior_complete self'.
Proof.
  revert self. induction fuel as [|fuel IH]; intros self Hwf H; [discriminate|].
  cbn [em_loop] in H.
  destruct (e_step self) as [s1|] eqn:E1; [|discriminate].
  destruct (e_step_wf self s1 Hwf E1) as [Hwf1 Hpc1].
  destruct (m_step s1) as [s2|] eqn:E2; [|discriminate].
  destruct (m_step_inv s1 s2 Hwf1 E2) as (Hwf2 & _).
  pose proof (posterior_complete_m_step s1 s2 Hwf1 Hpc1 E2) as Hpc2.
  destruct (broadcast _ _ _) as [d|]; [|discriminate].
  destruct (norm_lt d alpha).
  - injection H as <-. auto.
  - apply IH in H; [exact H|]. apply wf_set_theta_old. exact Hwf2.
Qed.

Lemma discover_returned (fuel : nat) (alpha : float) (self self' : t)
    (a b : gmap nat RandomVariable) :
  discover fuel alpha self = Returned (a, b, self') ->
  em_loop fuel alpha self = Returned self'
  /\ _compute_trust self' = Ok a /\ _compute_truth self' = Ok b.
Proof.
  unfold discover. destruct (em_loop fuel alpha self) as [s| |]; try discriminate.
  destruct (_compute_trust s) as [tr|] eqn:E1; [|discriminate].
  destruct (_compute_truth s) as [tu|] eqn:E2; [|discriminate].
  intros [= <- <- <-]. auto.
Qed.

(** C2, as the code has it: whenever [simpleLCA_EM.discover] returns, the
    first component of the returned pair is the trust mapping, from every
    source to the Bernoulli distribution of its honesty [theta_old], and the
    second component is the truth mapping, from every object to the
    Categorical distribution of its posterior. *)
Theorem discover_returns_trust_then_truth (fuel : nat) (alpha : float)
    (self self' : t) (a b : gmap nat RandomVariable) :
  wf self ->
  discover fuel alpha self = Returned (a, b, self') ->
  _compute_trust self' = Ok a
  /\ _compute_truth self' = Ok b
  /\ (forall s, a !! s
                = if decide (s < n_sources self')%nat
                  then Some (Bernoulli (theta self' (theta_old self') s)) else None)
  /\ (forall o, (o < n_objects self')%nat ->
                exists p, posterior self' !! o = Some p
                          /\ b !! o = Some (Categorical p))
  /\ (forall o, (n_objects self' <= o)%nat -> b !! o = None).
Proof.
  intros Hwf H. apply discover_returned in H. destruct H as (Hloop & Ha & Hb).
  destruct (em_loop_returned fuel alpha self self' Hwf Hloop) as [Hwf' Hpc'].
  destruct (compute_trust_eq self' Hwf') as (a' & Ha' & Hal).
  destruct (compute_truth_eq self' Hpc') as (b' & Hb' & Hbl).
  assert (a' = a) as -> by congruence. assert (b' = b) as -> by congruence.
  split; [exact Ha|]. split; [exact Hb|]. split; [exact Hal|]. split.
  - intros o Ho. destruct (Hpc' o Ho) as [p Hp]. exists p. split; [exact Hp|].
    rewrite Hbl, decide_True, Hp by exact Ho. reflexivity.
  - intros o Ho. rewrite Hbl, decide_False by lia. reflexivity.
Qed.

(** Fixture B with the default threshold: the call returns after two
    passes. *)
Lemma fixtureB_discover :
  exists self a b self',
    init fixtureB = Ok self
    /\ discover 2 (Fin 0.0001) self = Returned (a, b, self')
    /\ discover 1 (Fin 0.0001) self = OutOfFuel
    /\ (exists th, a !! 0%nat = Some (Bernoulli th))
    /\ (exists p, b !! 0%nat = Some (Categorical p)).
Proof.
  do 4 eexists. split; [vm_compute; reflexivity|].
  split; [vm_compute; reflexivity|]. split; [vm_compute; reflexivity|].
  split; eexists; vm_compute; reflexivity.
Qed.

Lemma discover_returns_trust_then_truth_witness :
  exists self a b self',
    init fixtureB = Ok self
    /\ discover 2 (Fin 0.0001) self = Returned (a, b, self')
    /\ _compute_trust self' = Ok a
    /\ _compute_truth self' = Ok b.
Proof.
  destruct fixtureB_discover as (self & a & b & self' & E & D & _).
  exists self, a, b, self'. split; [exact E|]. split; [exact D|].
  destruct (discover_returns_trust_then_truth 2 (Fin 0.0001) self self' a b)
    as (H1 & H2 & _); [apply (init_wf fixtureB); exact E | exact D|].
  split; [exact H1 | exact H2].
Defined.

(** The pair is not (truth, trust): on fixture B, with the default threshold,
    the first component is not the truth mapping (it holds the Bernoulli
    distribution of source 0, where the truth mapping, which comes second,
    holds the Categorical distribution of object 0). *)
Lemma discover_first_component_is_not_truth :
  exists self a b self',
    init fixtureB = Ok self
    /\ discover 2 (Fin 0.0001) self = Returned (a, b, self')
    /\ _compute_truth self' = Ok b
    /\ _compute_truth self' <> Ok a
    /\ (exists th, a !! 0%nat = Some (Bernoulli th))
    /\ (exists p, b !! 0%nat = Some (Categorical p)).
Proof.
  destruct fixtureB_discover as (self & a & b & self' & E & D & _ & Ha & Hb).
  exists self, a, b, self'. split; [exact E|]. split; [exact D|].
  destruct (discover_returned _ _ _ _ _ _ D) as (_ & _ & Htruth).
  split; [exact Htruth|]. split; [|split; assumption].
  intros H. rewrite Htruth in H. injection H as ->.
  destruct Ha as [th Ha], Hb as [p Hb]. congruence.
Qed.

(** ** Sums and products of exact numbers *)













(** ** Positive posteriors *)

Lemma feqb_weight (w : float) :
  w = Fin 0 \/ w = Fin 1 -> feqb w (Fin 1) = true <-> w = Fin 1.
Proof. intros [->| ->]; split; try reflexivity; discriminate. Qed.





(** ** The honesty computed from positive posteriors *)







(** ** The main loop *)










(** The constructor returns on every table with dense, zero-based object
    identifiers and no repeated (source, object) pair. *)
Lemma init_dense_returns (df : DataFrame) :
  dense (object_id <$> df) ->
  NoDup ((fun c => (source_id c, object_id c)) <$> df) ->
  exists self, init df = Ok self.
Proof.
  intros Hdense Hnd. unfold init, _compute_prob_desc.
  assert (HB : exists B, compute_observation_matrix df = Ok B).
  { unfold compute_observation_matrix, pivot. rewrite decide_True; [eexists; reflexivity|].
    apply NoDup_alt. intros i j k Hi Hj.
    rewrite list_lookup_fmap, list_lookup_imap in Hi, Hj.
    destruct (df !! i); [|discriminate]. destruct (df !! j); [|discriminate].
    simpl in Hi, Hj. congruence. }
  destruct HB as (B & ->). cbn [mbind result_bind].
  assert (HW : exists W, compute_weight_matrix df = Ok W).
  { unfold compute_weight_matrix, pivot. rewrite decide_True; [eexists; reflexivity|].
    rewrite <- list_fmap_compose. exact Hnd. }
  destruct HW as (W & ->). cbn [mbind result_bind].
  edestruct (for_each_range_total (fun _ (_ : gmap nat ndarray) => True))
    as (pr & Hpr & _); [exact I| |unfold range; rewrite Hpr; eexists; reflexivity].
  intros k pr [_ Hk] _. simpl in Hk.
  destruct (groupby_max_value_Some df k (Hdense k Hk)) as (m & Hm & _).
  unfold getitem. rewrite lookup_fmap, Hm. simpl. eauto.
Qed.






End EM.

(** ** The claim probabilities outside their intended arguments *)

(** X5: for a domain of a single value the divisor [domain_size - 1] is
    zero, and [_build_claim_probs] (in both variational classes) returns a
    vector whose only entry is not a finite number, whatever the honesty and
    the truth value are. *)
Theorem build_claim_probs_single_value (x : float) (v : nat) :
  simpleLCA_VI._build_claim_probs x 1 v = [NaN]
  /\ LCA._build_claim_probs x 1 v = [NaN].
Proof.
  assert (H : LCA._build_claim_probs x 1 v = [NaN]).
  { rewrite build_claim_probs_entries. simpl.
    destruct x; case_bool_decide; reflexivity. }
  split; exact H.
Qed.

Lemma Qsum_const {A} (c : Q) (l : list A) :
  Qsum ((fun _ => c) <$> l) == inject_Z (Z.of_nat (length l)) * c.
Proof.
  induction l as [|x l IH]; [simpl; ring|].
  rewrite fmap_cons. unfold Qsum in *. cbn [foldr length]. rewrite IH.
  rewrite Nat2Z.inj_succ. unfold Z.succ. rewrite inject_Z_plus. ring.
Qed.

(** X6: [_build_claim_probs] does not check the truth value: for a domain
    size [d > 1] and a truth value outside the domain, no entry holds the
    honesty [p]; every entry is [(1 - p) / (d - 1)] and the entries sum to
    [d (1 - p) / (d - 1)]. *)
Theorem build_claim_probs_truth_out_of_range (p : Q) (d v : nat) :
  (1 < d)%nat -> (d <= v)%nat ->
  length (LCA._build_claim_probs (Fin p) d v) = d
  /\ (forall i, (i < d)%nat ->
        exists q, LCA._build_claim_probs (Fin p) d v !! i = Some (Fin q)
                  /\ q == (1 - p) / (inject_Z (Z.of_nat d) - 1))
  /\ np_sum (LCA._build_claim_probs (Fin p) d v)
     ≡ Fin (inject_Z (Z.of_nat d) * ((1 - p) / (inject_Z (Z.of_nat d) - 1))).
Proof.
  intros Hd Hv. rewrite build_claim_probs_entries. unfold range. split; [|split].
  - rewrite length_fmap. apply length_seq.
  - intros i Hi. destruct (claim_probs_entry p d v i Hd) as (q & Hq & Hqv).
    rewrite decide_False in Hqv by lia.
    exists q. split; [|exact Hqv].
    rewrite list_lookup_fmap, lookup_seq_lt by exact Hi. simpl. f_equal. exact Hq.
  - rewrite (np_sum_pointwise _
               (fun _ => (1 - p) / (inject_Z (Z.of_nat d) - 1))).
    + apply Fin_equiv. rewrite Qsum_const, length_seq. reflexivity.
    + intros j Hj. apply elem_of_seq in Hj.
      destruct (claim_probs_entry p d v j Hd) as (q & Hq & Hqv).
      rewrite decide_False in Hqv by lia.
      rewrite Hq. apply Fin_equiv. exact Hqv.
Qed.

Lemma build_claim_probs_truth_out_of_range_witness :
  np_sum (LCA._build_claim_probs (Fin (1 # 4)) 4 7)
  ≡ Fin (inject_Z (Z.of_nat 4) * ((1 - (1 # 4)) / (inject_Z (Z.of_nat 4) - 1))).
Proof.
  apply (build_claim_probs_truth_out_of_range (1 # 4) 4 7); lia.
Defined.

(** ** The variables of the per-claim variational variant *)

Lemma string_length_app (s t : string) :
  String.length (s +:+ t) = (String.length s + String.length t)%nat.
Proof. induction s as [|a s IH]; [reflexivity|]. simpl. rewrite IH. reflexivity. Qed.

Lemma string_app_inv (s1 s2 t1 t2 : string) :
  s1 +:+ t1 = s2 +:+ t2 -> String.length t1 = String.length t2 ->
  s1 = s2 /\ t1 = t2.
Proof.
  revert s2. induction s1 as [|a s1 IH]; intros [|b s2] H Hlen; simpl in H.
  - auto.
  - apply (f_equal String.length) in H. simpl in H.
    rewrite !string_length_app in H. simpl in H. lia.
  - apply (f_equal String.length) in H. simpl in H.
    rewrite !string_length_app in H. simpl in H. lia.
  - injection H as -> H. destruct (IH s2 H Hlen) as [-> ->]. auto.
Qed.

Lemma truth_prob_name_inj (m m' : nat) (suffix suffix' : string) :
  String.length suffix = String.length suffix' ->
  "truth_prob_" +:+ pretty m +:+ suffix = "truth_prob_" +:+ pretty m' +:+ suffix' ->
  m = m' /\ suffix = suffix'.
Proof.
  intros Hlen H. simpl in H. simplify_eq.
  match goal with H : _ +:+ _ = _ +:+ _ |- _ =>
    destruct (string_app_inv _ _ _ _ H Hlen) as [Hm Hs] end.
  split; [|exact Hs]. apply (inj pretty). exact Hm.
Qed.

(** The variables [object_probs] creates: one per label of the index, at the
    position of the label, uniform over the domain of the label. *)
Lemma object_probs_lookup (claims : DataFrame) (suffix : string) :
  exists vars,
    LCA.object_probs ((fun m => m + 1)%nat <$> groupby_max_value claims)
      (sorted_unique (object_id <$> claims)) suffix = Ok vars
    /\ Forall2 (fun m var =>
                  exists mx,
                    groupby_max_value claims !! m = Some mx
                    /\ var = TfVariable ("truth_prob_" +:+ pretty m +:+ suffix)
                               (scale fdiv (ones (mx + 1)) (of_nat (mx + 1))))
         (sorted_unique (object_id <$> claims)) vars.
Proof.
  unfold LCA.object_probs.
  set (f := fun m : nat =>
              d ← getitem ((fun m => m + 1)%nat <$> groupby_max_value claims) m;
              Ok (TfVariable ("truth_prob_" +:+ pretty m +:+ suffix)
                    (scale fdiv (ones d) (of_nat d)))).
  assert (Hf : forall m, m ∈ sorted_unique (object_id <$> claims) ->
             exists mx, groupby_max_value claims !! m = Some mx
                        /\ f m = Ok (TfVariable ("truth_prob_" +:+ pretty m +:+ suffix)
                                       (scale fdiv (ones (mx + 1)) (of_nat (mx + 1))))).
  { intros m Hm. rewrite elem_of_sorted_unique in Hm.
    destruct (groupby_max_value_Some claims m Hm) as (mx & Hmx & _).
    exists mx. split; [exact Hmx|].
    unfold f, getitem. rewrite lookup_fmap, Hmx. reflexivity. }
  destruct (mapM_Forall2 f (sorted_unique (object_id <$> claims))) as (vars & Hv & Hall).
  { intros m Hm. destruct (Hf m Hm) as (mx & _ & E). eauto. }
  exists vars. split; [exact Hv|].
  clear Hv. induction Hall as [|m var idx vars Hvar Hall IH]; constructor.
  - destruct (Hf m ltac:(left)) as (mx & Hmx & E). exists mx. split; [exact Hmx|]. congruence.
  - apply IH. intros m' Hm'. apply Hf. right. exact Hm'.
Qed.

(** X8: [_initialize] returns on every claims table. It registers
    [2 + 2 * n_objects] variables, in the order [honest_probs_p], the
    [object_probs_p], [honest_probs_q], the [object_probs_q], under pairwise
    distinct names; both honesty variables start at 0.5 for each of the
    [n_sources] sources; and the variables at position [i] of
    [object_probs_p] and of [object_probs_q] belong to the [i]-th smallest
    object identifier [m] of the table (to object [i] itself only when the
    identifiers are dense): they start at the same vector, of
    [domain_sizes[m]] entries that are all [1 / domain_sizes[m]] and sum to
    one. *)
Theorem LCA_initialize_variables (self : LCA.t) :
  exists self' hp hq,
    LCA._initialize self = Ok self'
    /\ LCA.honest_probs_p self' = Some hp /\ LCA.honest_probs_q self' = Some hq
    /\ LCA.trainable_variables self'
       = hp :: LCA.object_probs_p self' ++ hq :: LCA.object_probs_q self'
    /\ length (LCA.trainable_variables self')
       = (2 + 2 * nunique (object_id <$> LCA.claims self))%nat
    /\ NoDup (var_name <$> LCA.trainable_variables self')
    /\ initial_value hp = initial_value hq
    /\ length (initial_value hp) = nunique (source_id <$> LCA.claims self)
    /\ (forall x, x ∈ initial_value hp -> x ≡ Fin (1 # 2))
    /\ forall i m,
         sorted_unique (object_id <$> LCA.claims self) !! i = Some m ->
         exists d,
           LCA.domain_sizes self' !! m = Some d /\ (1 <= d)%nat
           /\ LCA.object_probs_p self' !! i
              = Some (TfVariable ("truth_prob_" +:+ pretty m +:+ "_p")
                        (replicate d (Fin (1 / inject_Z (Z.of_nat d)))))
           /\ LCA.object_probs_q self' !! i
              = Some (TfVariable ("truth_prob_" +:+ pretty m +:+ "_q")
                        (replicate d (Fin (1 / inject_Z (Z.of_nat d)))))
           /\ np_sum (replicate d (Fin (1 / inject_Z (Z.of_nat d)))) ≡ Fin 1.
Proof.
  set (df := LCA.claims self).
  destruct (object_probs_lookup df "_p") as (ps & Hps & Hp).
  destruct (object_probs_lookup df "_q") as (qs & Hqs & Hq).
  unfold LCA._initialize, LCA._compute_prob_desc. fold df.
  rewrite Hps. cbn [mbind result_bind]. rewrite Hqs. cbn [mbind result_bind].
  eexists _, _, _. split; [reflexivity|]. cbn [LCA.honest_probs_p LCA.honest_probs_q
    LCA.trainable_variables LCA.object_probs_p LCA.object_probs_q LCA.domain_sizes
    LCA._register initial_value app].
  pose proof (Forall2_length _ _ _ Hp) as Lp.
  pose proof (Forall2_length _ _ _ Hq) as Lq.
  rewrite length_sorted_unique in Lp, Lq.
  split; [reflexivity|]. split; [reflexivity|].
  split; [rewrite <- !app_assoc; reflexivity|].
  split; [cbn [length]; rewrite !length_app; cbn [length]; lia|].
  split; [|split; [reflexivity|split; [|split]]].
  - (* the names *)
    assert (Hnp : forall suffix idx vars,
              Forall2 (fun m var =>
                  exists mx,
                    groupby_max_value df !! m = Some mx
                    /\ var = TfVariable ("truth_prob_" +:+ pretty m +:+ suffix)
                               (scale fdiv (ones (mx + 1)) (of_nat (mx + 1))))
                idx vars ->
              var_name <$> vars
              = (fun m => "truth_prob_" +:+ pretty m +:+ suffix) <$> idx).
    { intros suffix idx vars H. induction H as [|m var idx vars (mx & _ & ->) _ IH];
        [reflexivity|]. rewrite !fmap_cons, IH. reflexivity. }
    rewrite <- !app_assoc. cbn [app]. rewrite fmap_cons, fmap_app, fmap_cons.
    rewrite (Hnp _ _ _ Hp), (Hnp _ _ _ Hq). cbn [var_name].
    assert (Hinj : forall suffix,
              NoDup ((fun m => "truth_prob_" +:+ pretty m +:+ suffix)
                       <$> sorted_unique (object_id <$> df))).
    { intros suffix. apply NoDup_fmap_2; [|apply NoDup_sorted_unique].
      intros m m' H. apply (truth_prob_name_inj m m' suffix suffix eq_refl H). }
    apply NoDup_cons. split.
    { rewrite elem_of_app, elem_of_cons, !list_elem_of_fmap.
      intros [(m & H & _)|[H|(m & H & _)]]; simpl in H; discriminate. }
    apply NoDup_app. split; [apply Hinj|]. split.
    { intros x Hx Hx'. apply list_elem_of_fmap in Hx. destruct Hx as (m & -> & _).
      apply elem_of_cons in Hx'. destruct Hx' as [H|Hx']; [simpl in H; discriminate|].
      apply list_elem_of_fmap in Hx'. destruct Hx' as (m' & H & _).
      apply truth_prob_name_inj in H; [|reflexivity]. destruct H as [_ H]. discriminate. }
    apply NoDup_cons. split; [|apply Hinj].
    rewrite list_elem_of_fmap. intros (m & H & _). simpl in H. discriminate.
  - unfold scale, ones. cbn [initial_value].
    rewrite length_fmap, length_replicate. reflexivity.
  - intros x Hx. unfold scale, ones in Hx. cbn [initial_value] in Hx.
    rewrite fmap_replicate in Hx.
    apply elem_of_replicate in Hx. destruct Hx as [-> _]. reflexivity.
  - intros i m Hi.
    destruct (Forall2_lookup_l _ _ _ _ _ Hp Hi) as (vp & Hvp & mx & Hmx & ->).
    destruct (Forall2_lookup_l _ _ _ _ _ Hq Hi) as (vq & Hvq & mx' & Hmx' & ->).
    assert (mx' = mx) as -> by congruence.
    exists (mx + 1)%nat. rewrite lookup_fmap, Hmx.
    rewrite <- (uniform_prior (mx + 1)) by lia.
    split; [reflexivity|]. split; [lia|]. split; [exact Hvp|]. split; [exact Hvq|].
    rewrite (uniform_prior (mx + 1)) by lia.
    rewrite <- (fmap_replicate Fin), np_sum_Fin. apply Fin_equiv.
    rewrite <- (fmap_replicate (fun _ : unit => 1 / inject_Z (Z.of_nat (mx + 1))) _ tt).
    rewrite Qsum_const, length_replicate.
    pose proof (of_nat_pos (mx + 1) ltac:(lia)). field. lra.
Qed.

(** ** The auxiliary data structures of [simpleLCA_VI] *)

(** A dictionary filled by one assignment per item of a list, under keys
    that identify the items. *)
Lemma foldl_insert_lookup `{Countable K} {A V} (key : A -> K) (val : A -> V)
    (l : list A) (m0 : gmap K V) :
  NoDup (key <$> l) ->
  (forall a, a ∈ l ->
     foldl (fun m a => <[key a := val a]> m) m0 l !! key a = Some (val a))
  /\ (forall k, k ∉ key <$> l ->
        foldl (fun m a => <[key a := val a]> m) m0 l !! k = m0 !! k).
Proof.
  revert m0. induction l as [|x l IH]; intros m0 Hnd.
  - split; [intros a Ha; inversion Ha | reflexivity].
  - rewrite fmap_cons in Hnd. apply NoDup_cons in Hnd. destruct Hnd as [Hx Hnd].
    destruct (IH (<[key x := val x]> m0) Hnd) as [IH1 IH2]. cbn [foldl]. split.
    + intros a Ha. apply elem_of_cons in Ha. destruct Ha as [->|Ha]; [|apply IH1, Ha].
      rewrite IH2 by exact Hx. apply lookup_insert_eq.
    + intros k Hk. rewrite fmap_cons, not_elem_of_cons in Hk. destruct Hk as [Hk1 Hk2].
      rewrite IH2 by exact Hk2. apply lookup_insert_ne. congruence.
Qed.

Lemma groupby_object_id_keys (claims : DataFrame) :
  (groupby_object_id claims).*1 = sorted_unique (object_id <$> claims).
Proof.
  unfold groupby_object_id. rewrite <- list_fmap_compose.
  apply list_fmap_id.
Qed.

Lemma sort_values_source_id_sorted (df : DataFrame) :
  sort_values_source_id df ≡ₚ df
  /\ Sorted le (source_id <$> sort_values_source_id df).
Proof.
  unfold sort_values_source_id. split; [apply merge_sort_Permutation|].
  assert (Htot : Total source_le) by (intros a b; unfold source_le; lia).
  pose proof (Sorted_merge_sort source_le df) as Hs.
  induction Hs as [|c l Hs IH Hhd]; [constructor|].
  rewrite fmap_cons. constructor; [exact IH|].
  destruct Hhd as [|c' l' Hc]; constructor. exact Hc.
Qed.

(** The list of sources and the observation of an object are read off the
    same arrangement of its claims. *)
Lemma object_to_sources_lookup (claims : DataFrame) (o : nat) :
  (o ∈ object_id <$> claims ->
   exists rows,
     rows ≡ₚ filter (fun c => object_id c = o) claims
     /\ Sorted le (source_id <$> rows)
     /\ simpleLCA_VI.build_object_to_sources claims !! o = Some (source_id <$> rows)
     /\ simpleLCA_VI.compute_observation claims !! ("x_" +:+ pretty o)
        = Some (value <$> rows))
  /\ (o ∉ object_id <$> claims ->
      simpleLCA_VI.build_object_to_sources claims !! o = None
      /\ simpleLCA_VI.compute_observation claims !! ("x_" +:+ pretty o) = None).
Proof.
  pose proof (NoDup_sorted_unique (object_id <$> claims)) as Hnd.
  destruct (foldl_insert_lookup fst
              (fun data : nat * DataFrame => merge_sort le (source_id <$> data.2))
              (groupby_object_id claims) ∅) as [S1 S2].
  { rewrite groupby_object_id_keys. exact Hnd. }
  destruct (foldl_insert_lookup (fun data : nat * DataFrame => "x_" +:+ pretty data.1)
              (fun data : nat * DataFrame => value <$> sort_values_source_id data.2)
              (groupby_object_id claims) ∅) as [O1 O2].
  { change (fun data : nat * DataFrame => "x_" +:+ pretty data.1)
      with ((fun k : nat => "x_" +:+ pretty k) ∘ (fst : nat * DataFrame -> nat)).
    rewrite list_fmap_compose, groupby_object_id_keys.
    apply NoDup_fmap_2; [|exact Hnd].
    intros a b Hab. apply (inj pretty). apply (String.app_inj "x_"). exact Hab. }
  split.
  - intros Ho.
    set (g := filter (fun c => object_id c = o) claims).
    assert (Hin : (o, g) ∈ groupby_object_id claims).
    { unfold groupby_object_id. apply list_elem_of_fmap. exists o. split; [reflexivity|].
      rewrite elem_of_sorted_unique. exact Ho. }
    destruct (sort_values_source_id_sorted g) as [Hperm Hsorted].
    exists (sort_values_source_id g). split; [exact Hperm|]. split; [exact Hsorted|].
    split.
    + unfold simpleLCA_VI.build_object_to_sources.
      specialize (S1 _ Hin). cbn [fst snd] in S1. rewrite S1.
      f_equal. apply (Sorted_unique le).
      * apply (Sorted_merge_sort le).
      * exact Hsorted.
      * rewrite merge_sort_Permutation, Hperm. reflexivity.
    + unfold simpleLCA_VI.compute_observation.
      specialize (O1 _ Hin). cbn [fst snd] in O1. rewrite O1. reflexivity.
  - intros Ho. split.
    + unfold simpleLCA_VI.build_object_to_sources. rewrite S2; [apply lookup_empty|].
      rewrite groupby_object_id_keys, elem_of_sorted_unique. exact Ho.
    + unfold simpleLCA_VI.compute_observation. rewrite O2; [apply lookup_empty|].
      change (fun data : nat * DataFrame => "x_" +:+ pretty data.1)
        with ((fun k : nat => "x_" +:+ pretty k) ∘ (fst : nat * DataFrame -> nat)).
      rewrite list_fmap_compose, groupby_object_id_keys.
      rewrite list_elem_of_fmap. intros (o' & Hk & Ho').
      apply (String.app_inj "x_"), (inj pretty) in Hk. subst o'.
      rewrite elem_of_sorted_unique in Ho'. contradiction.
Qed.

(** X9: for every object of the table, [object_to_sources[o]] and the
    observation [obs['x_o']] are read off the same arrangement of the claims
    about [o], by ascending source: the value at position [i] of the
    observation is a value that the source at position [i] of
    [object_to_sources[o]] asserted for [o], and both have one entry per
    claim about [o], repeated claims included. Objects outside the table
    have no entry. *)
Theorem object_to_sources_observation (claims : DataFrame) (o : nat) :
  (o ∈ object_id <$> claims ->
   exists rows,
     rows ≡ₚ filter (fun c => object_id c = o) claims
     /\ Sorted le (source_id <$> rows)
     /\ simpleLCA_VI.build_object_to_sources claims !! o = Some (source_id <$> rows)
     /\ simpleLCA_VI.compute_observation claims !! ("x_" +:+ pretty o)
        = Some (value <$> rows))
  /\ (o ∉ object_id <$> claims ->
      simpleLCA_VI.build_object_to_sources claims !! o = None
      /\ simpleLCA_VI.compute_observation claims !! ("x_" +:+ pretty o) = None).
Proof. exact (object_to_sources_lookup claims o). Qed.

Lemma object_to_sources_observation_witness :
  exists rows,
    simpleLCA_VI.build_object_to_sources fixtureA !! 1%nat = Some (source_id <$> rows)
    /\ simpleLCA_VI.compute_observation fixtureA !! ("x_" +:+ pretty 1%nat)
       = Some (value <$> rows).
Proof.
  destruct (proj1 (object_to_sources_observation fixtureA 1)) as (rows & _ & _ & H1 & H2).
  - unfold fixtureA. simpl. right. left.
  - exists rows. split; [exact H1 | exact H2].
Defined.

(** The frame [domain_df]: one row (object, domain size) per object of the
    table, by ascending object. *)
Lemma domain_df_rows (claims : DataFrame) :
  let domain_df :=
    omap (fun o => (fun m => (o, (m + 1)%nat)) <$> groupby_max_value claims !! o)
         (sorted_unique (object_id <$> claims)) in
  domain_df.*1 = sorted_unique (object_id <$> claims)
  /\ forall r, r ∈ domain_df <->
               ((fun m => m + 1)%nat <$> groupby_max_value claims) !! r.1 = Some r.2.
Proof.
  intros domain_df.
  assert (Hgen : forall idx,
            (forall o, o ∈ idx -> o ∈ object_id <$> claims) ->
            (omap (fun o => (fun m => (o, (m + 1)%nat)) <$> groupby_max_value claims !! o)
               idx).*1 = idx).
  { induction idx as [|o idx IH]; intros Hidx; [reflexivity|].
    destruct (groupby_max_value_Some claims o) as (m & Hm & _); [apply Hidx; left|].
    csimpl. rewrite Hm. csimpl.
    rewrite IH; [reflexivity|]. intros o' Ho'. apply Hidx. right. exact Ho'. }
  split.
  - apply Hgen. intros o. rewrite elem_of_sorted_unique. auto.
  - intros [o d]. unfold domain_df. rewrite list_elem_of_omap. cbn [fst snd].
    rewrite lookup_fmap. split.
    + intros (o' & _ & Hr). destruct (groupby_max_value claims !! o') as [m|] eqn:E;
        [|discriminate]. simpl in Hr. injection Hr as -> <-. rewrite E. reflexivity.
    + intros Hd. destruct (groupby_max_value claims !! o) as [m|] eqn:E; [|discriminate].
      simpl in Hd. injection Hd as <-. exists o. split; [|rewrite E; reflexivity].
      rewrite elem_of_sorted_unique.
      destruct (decide (o ∈ object_id <$> claims)) as [|Hn]; [assumption|].
      rewrite (groupby_max_value_None claims o Hn) in E. discriminate.
Qed.

Lemma merge_sort_le_sorted (l : list nat) :
  NoDup l -> StronglySorted lt (merge_sort le l).
Proof.
  intros Hnd.
  assert (Hnd' : NoDup (merge_sort le l)) by (rewrite merge_sort_Permutation; exact Hnd).
  assert (Hs : StronglySorted le (merge_sort le l)).
  { apply Sorted_StronglySorted; [intros x y z; lia|]. apply (Sorted_merge_sort le). }
  clear Hnd. induction Hs as [|x s Hs IH Hall]; constructor.
  - apply IH. apply NoDup_cons in Hnd'. tauto.
  - apply NoDup_cons in Hnd'. destruct Hnd' as [Hx _].
    rewrite Forall_forall in Hall |- *. intros y Hy.
    specialize (Hall y Hy). assert (x <> y) by (intros ->; contradiction). lia.
Qed.

(** The groups of [domsize_to_objects]. *)
Lemma domsize_to_objects_lookup (claims : DataFrame) (d : nat) :
  match simpleLCA_VI.build_domsize_to_objects claims !! d with
  | Some objects =>
      objects <> [] /\ StronglySorted lt objects
      /\ forall o, o ∈ objects <->
                   ((fun m => m + 1)%nat <$> groupby_max_value claims) !! o = Some d
  | None =>
      forall o, ((fun m => m + 1)%nat <$> groupby_max_value claims) !! o <> Some d
  end.
Proof.
  unfold simpleLCA_VI.build_domsize_to_objects.
  destruct (domain_df_rows claims) as [Hkeys Hrows].
  set (domain_df :=
         omap (fun o => (fun m => (o, (m + 1)%nat)) <$> groupby_max_value claims !! o)
              (sorted_unique (object_id <$> claims))) in *.
  destruct (foldl_insert_lookup (fun k : nat => k)
              (fun k => merge_sort le (fst <$> filter (fun r => r.2 = k) domain_df))
              (sorted_unique (snd <$> domain_df)) ∅) as [G1 G2].
  { rewrite list_fmap_id. apply NoDup_sorted_unique. }
  rewrite lookup_fmap.
  assert (Hgroup : forall o, o ∈ fst <$> filter (fun r => r.2 = d) domain_df <->
             ((fun m => m + 1)%nat <$> groupby_max_value claims) !! o = Some d).
  { intros o. rewrite list_elem_of_fmap. split.
    - intros (r & -> & Hr). apply list_elem_of_filter in Hr. destruct Hr as [Hd Hr].
      apply Hrows in Hr. rewrite Hr, Hd. reflexivity.
    - intros Ho. exists (o, d). split; [reflexivity|]. apply list_elem_of_filter.
      split; [reflexivity|]. apply Hrows. exact Ho. }
  destruct (decide (d ∈ sorted_unique (snd <$> domain_df))) as [Hd|Hd].
  - rewrite (G1 d Hd). cbn [fmap option_fmap option_map].
    assert (Hnd : NoDup (fst <$> filter (fun r => r.2 = d) domain_df)).
    { apply (sublist_NoDup _ (domain_df.*1));
        [rewrite Hkeys; apply NoDup_sorted_unique|].
      apply fmap_sublist, sublist_filter. }
    split; [|split].
    + rewrite elem_of_sorted_unique in Hd. apply list_elem_of_fmap in Hd.
      destruct Hd as ([o d'] & -> & Hr). cbn [snd] in *. intros Hnil.
      assert (Ho : o ∈ merge_sort le
                (merge_sort le (fst <$> filter (fun r => r.2 = d') domain_df))).
      { rewrite !merge_sort_Permutation. apply list_elem_of_fmap.
        exists (o, d'). split; [reflexivity|]. apply list_elem_of_filter. auto. }
      rewrite Hnil in Ho. inversion Ho.
    + apply merge_sort_le_sorted. rewrite merge_sort_Permutation. exact Hnd.
    + intros o. rewrite !merge_sort_Permutation. apply Hgroup.
  - rewrite G2 by (rewrite list_fmap_id; exact Hd). rewrite lookup_empty.
    cbn [fmap option_fmap option_map]. intros o Ho. apply Hd.
    rewrite elem_of_sorted_unique. apply list_elem_of_fmap. exists (o, d).
    split; [reflexivity|]. apply Hrows. exact Ho.
Qed.

(** X10: [domsize_to_objects] partitions the objects of the table by
    domain size: the list stored under [d] is not empty, strictly ascending,
    and holds exactly the objects whose domain size (largest asserted value
    plus one) is [d]; a size that no object has is not a key. *)
Theorem domsize_to_objects_partition (claims : DataFrame) (d : nat) :
  match simpleLCA_VI.build_domsize_to_objects claims !! d with
  | Some objects =>
      objects <> [] /\ StronglySorted lt objects
      /\ forall o, o ∈ objects <->
                   ((fun m => m + 1)%nat <$> groupby_max_value claims) !! o = Some d
  | None =>
      forall o, ((fun m => m + 1)%nat <$> groupby_max_value claims) !! o <> Some d
  end.
Proof. exact (domsize_to_objects_lookup claims d). Qed.

(** Dense identifiers are exactly the numbers below their count. *)
Lemma dense_elem_of (ids : list nat) (k : nat) :
  dense ids -> k ∈ ids <-> (k < nunique ids)%nat.
Proof.
  intros Hdense.
  assert (Hsub : forall k, k ∈ seq 0 (nunique ids) -> k ∈ remove_dups ids).
  { intros i Hi. apply elem_of_seq in Hi. apply elem_of_remove_dups.
    apply Hdense. lia. }
  apply NoDup_submseteq in Hsub; [|apply NoDup_seq].
  apply submseteq_length_Permutation in Hsub;
    [|rewrite length_seq; unfold nunique; lia].
  rewrite <- elem_of_remove_dups, <- Hsub, elem_of_seq. lia.
Qed.

Lemma seq_sorted (i n : nat) : StronglySorted lt (seq i n).
Proof.
  revert i. induction n as [|n IH]; intros i; [constructor|].
  cbn [seq]. constructor; [apply IH|].
  apply Forall_forall. intros k Hk. apply elem_of_seq in Hk. lia.
Qed.

Lemma dense_sorted_unique (ids : list nat) :
  dense ids -> sorted_unique ids = seq 0 (nunique ids).
Proof.
  intros Hdense. apply (Sorted_unique le).
  - apply StronglySorted_lt_le, sorted_unique_sorted.
  - apply StronglySorted_lt_le, seq_sorted.
  - apply NoDup_Permutation; [apply NoDup_sorted_unique | apply NoDup_seq|].
    intros k. rewrite elem_of_sorted_unique, elem_of_seq, (dense_elem_of ids k Hdense).
    lia.
Qed.

(** The rank of an element of a strictly ascending list, counted as
    [_compute_rank] does, is its position. *)
Lemma rank_shift (x a : nat) (l : list nat) :
  foldl (fun rank o => if decide (o < x)%nat then (rank + 1)%nat else rank) a l
  = (a + foldl (fun rank o => if decide (o < x)%nat then (rank + 1)%nat else rank)
           0%nat l)%nat.
Proof.
  revert a. induction l as [|y l IH]; intros a; [simpl; lia|].
  cbn [foldl]. rewrite IH. rewrite (IH (if decide (y < x)%nat then _ else _)).
  destruct (decide (y < x)%nat); lia.
Qed.

Lemma rank_position (x : nat) (l : list nat) :
  StronglySorted lt l -> x ∈ l ->
  l !! foldl (fun rank o => if decide (o < x)%nat then (rank + 1)%nat else rank)
         0%nat l = Some x.
Proof.
  intros Hs. induction Hs as [|y l Hs IH Hall]; intros Hx; [inversion Hx|].
  rewrite Forall_forall in Hall. cbn [foldl].
  apply elem_of_cons in Hx. destruct Hx as [->|Hx].
  - rewrite decide_False by lia.
    assert (H0 : foldl (fun rank o => if decide (o < y)%nat then (rank + 1)%nat else rank)
                   0%nat l = 0%nat).
    { clear IH Hs. induction l as [|z l IHl]; [reflexivity|].
      cbn [foldl]. rewrite decide_False by (specialize (Hall z ltac:(left)); lia).
      apply IHl. intros k Hk. apply Hall. right. exact Hk. }
    rewrite H0. reflexivity.
  - rewrite decide_True by (apply Hall; exact Hx).
    rewrite rank_shift. simpl. apply IH. exact Hx.
Qed.

Lemma for_each_KeyError {A S} (l : list A) (body : A -> S -> result S) (s : S) :
  (forall x s, (exists s', body x s = Ok s') \/ body x s = Raise KeyError) ->
  (exists s', for_each l body s = Ok s') \/ for_each l body s = Raise KeyError.
Proof.
  intros Hbody. revert s. induction l as [|x l IH]; intros s; [left; eexists; reflexivity|].
  cbn [for_each]. destruct (Hbody x s) as [(s' & ->)| ->]; [apply IH | right; reflexivity].
Qed.

Lemma compute_rank_inv (claims : DataFrame) (o rank : nat) :
  simpleLCA_VI._compute_rank ((fun m => m + 1)%nat <$> groupby_max_value claims)
    (simpleLCA_VI.build_domsize_to_objects claims) o = Ok rank ->
  exists d objects,
    ((fun m => m + 1)%nat <$> groupby_max_value claims) !! o = Some d
    /\ simpleLCA_VI.build_domsize_to_objects claims !! d = Some objects
    /\ objects !! rank = Some o.
Proof.
  unfold simpleLCA_VI._compute_rank, getitem. intros H.
  destruct (((fun m => m + 1)%nat <$> groupby_max_value claims) !! o) as [d|] eqn:Hd;
    [|discriminate].
  cbn [mbind result_bind] in H.
  pose proof (domsize_to_objects_lookup claims d) as Hg.
  destruct (simpleLCA_VI.build_domsize_to_objects claims !! d) as [objects|] eqn:Hobj;
    [|discriminate].
  cbn [mbind result_bind] in H. injection H as <-.
  destruct Hg as (_ & Hsorted & Hmem).
  exists d, objects. split; [reflexivity|]. split; [exact Hobj|].
  apply rank_position; [exact Hsorted|]. apply Hmem. exact Hd.
Qed.

Lemma compute_rank_Ok (claims : DataFrame) (o : nat) :
  o ∈ object_id <$> claims ->
  exists rank,
    simpleLCA_VI._compute_rank ((fun m => m + 1)%nat <$> groupby_max_value claims)
      (simpleLCA_VI.build_domsize_to_objects claims) o = Ok rank.
Proof.
  intros Ho. destruct (groupby_max_value_Some claims o Ho) as (m & Hm & _).
  unfold simpleLCA_VI._compute_rank, getitem. rewrite lookup_fmap, Hm.
  cbn [fmap option_fmap option_map mbind result_bind].
  pose proof (domsize_to_objects_lookup claims (m + 1)) as Hg.
  destruct (simpleLCA_VI.build_domsize_to_objects claims !! (m + 1)%nat) as [objects|].
  - eexists. reflexivity.
  - exfalso. apply (Hg o). rewrite lookup_fmap, Hm. reflexivity.
Qed.

Lemma build_ds_inv (claims : DataFrame) (self : simpleLCA_VI.ds) :
  simpleLCA_VI.build_ds claims = Ok self ->
  exists idx,
    simpleLCA_VI.compute_batch_idx (nunique (object_id <$> claims))
      ((fun m => m + 1)%nat <$> groupby_max_value claims)
      (simpleLCA_VI.build_domsize_to_objects claims) = Ok idx
    /\ self = simpleLCA_VI.DS (nunique (source_id <$> claims))
                (nunique (object_id <$> claims))
                ((fun m => m + 1)%nat <$> groupby_max_value claims)
                (simpleLCA_VI.build_domsize_to_objects claims)
                (simpleLCA_VI.build_object_to_sources claims) idx
                (simpleLCA_VI.compute_observation claims).
Proof.
  unfold simpleLCA_VI.build_ds, simpleLCA_VI._compute_prob_desc. intros H.
  destruct (simpleLCA_VI.compute_batch_idx _ _ _) as [idx|] eqn:E; [|discriminate].
  cbn [mbind result_bind] in H. injection H as <-. exists idx. auto.
Qed.

Lemma compute_batch_idx_lookup (claims : DataFrame) (n : nat) (idx : gmap nat nat) :
  simpleLCA_VI.compute_batch_idx n
    ((fun m => m + 1)%nat <$> groupby_max_value claims)
    (simpleLCA_VI.build_domsize_to_objects claims) = Ok idx ->
  (forall o, (o < n)%nat ->
     exists d objects i,
       ((fun m => m + 1)%nat <$> groupby_max_value claims) !! o = Some d
       /\ simpleLCA_VI.build_domsize_to_objects claims !! d = Some objects
       /\ idx !! o = Some i /\ objects !! i = Some o)
  /\ (forall o, (n <= o)%nat -> idx !! o = None).
Proof.
  unfold simpleLCA_VI.compute_batch_idx, range. intros H.
  apply (for_each_range_partial
           (fun k (m : gmap nat nat) =>
              (forall o, (o < k)%nat ->
                 exists d objects i,
                   ((fun m => m + 1)%nat <$> groupby_max_value claims) !! o = Some d
                   /\ simpleLCA_VI.build_domsize_to_objects claims !! d = Some objects
                   /\ m !! o = Some i /\ objects !! i = Some o)
              /\ (forall o, (k <= o)%nat -> m !! o = None))) in H.
  - exact H.
  - split; [intros o Ho; lia | intros o _; apply lookup_empty].
  - intros k m m1 _ [I1 I2] Hbody.
    destruct (simpleLCA_VI._compute_rank _ _ k) as [rank|] eqn:Hr; [|discriminate].
    cbn [mbind result_bind] in Hbody. injection Hbody as <-.
    apply compute_rank_inv in Hr. destruct Hr as (d & objects & Hd & Hobj & Hpos).
    split.
    + intros o Ho. destruct (decide (o = k)) as [->|Hne].
      * exists d, objects, rank. rewrite lookup_insert_eq. auto.
      * destruct (I1 o ltac:(lia)) as (d' & objects' & i & H1 & H2 & H3 & H4).
        exists d', objects', i. rewrite lookup_insert_ne by congruence. auto.
    + intros o Ho. rewrite lookup_insert_ne by lia. apply I2. lia.
Qed.

(** X11: on an object that [build_ds] has built, [to_batch_idx] is the
    position within the group of the same domain size: for every object
    [o < n_objects], [domsize_to_objects[domain_size[o]]] holds [o] at
    position [to_batch_idx[o]]; so, within a group, distinct objects have
    distinct batch indices below the size of the group. No other key is
    set. *)
Theorem batch_idx_position (claims : DataFrame) (self : simpleLCA_VI.ds) :
  simpleLCA_VI.build_ds claims = Ok self ->
  (forall o, (o < simpleLCA_VI.n_objects self)%nat ->
     exists d objects i,
       simpleLCA_VI.domain_size self !! o = Some d
       /\ simpleLCA_VI.domsize_to_objects self !! d = Some objects
       /\ simpleLCA_VI.to_batch_idx self !! o = Some i
       /\ objects !! i = Some o /\ (i < length objects)%nat)
  /\ (forall o o' i,
        simpleLCA_VI.domain_size self !! o = simpleLCA_VI.domain_size self !! o' ->
        (o < simpleLCA_VI.n_objects self)%nat ->
        (o' < simpleLCA_VI.n_objects self)%nat ->
        simpleLCA_VI.to_batch_idx self !! o = Some i ->
        simpleLCA_VI.to_batch_idx self !! o' = Some i -> o = o')
  /\ (forall o, (simpleLCA_VI.n_objects self <= o)%nat ->
        simpleLCA_VI.to_batch_idx self !! o = None).
Proof.
  intros H. destruct (build_ds_inv claims self H) as (idx & Hidx & ->).
  cbn [simpleLCA_VI.n_objects simpleLCA_VI.domain_size simpleLCA_VI.domsize_to_objects
       simpleLCA_VI.to_batch_idx].
  destruct (compute_batch_idx_lookup claims _ idx Hidx) as [L1 L2].
  split; [|split; [|exact L2]].
  - intros o Ho. destruct (L1 o Ho) as (d & objects & i & H1 & H2 & H3 & H4).
    exists d, objects, i. repeat split; try assumption.
    apply lookup_lt_Some in H4. exact H4.
  - intros o o' i Hsame Ho Ho' Hi Hi'.
    destruct (L1 o Ho) as (d & objects & j & H1 & H2 & H3 & H4).
    destruct (L1 o' Ho') as (d' & objects' & j' & H1' & H2' & H3' & H4').
    assert (d' = d) as -> by congruence.
    assert (objects' = objects) as -> by congruence.
    assert (j = i) as -> by congruence. assert (j' = i) as -> by congruence.
    congruence.
Qed.

Lemma batch_idx_position_witness :
  exists self d objects i,
    simpleLCA_VI.build_ds fixtureA = Ok self
    /\ simpleLCA_VI.domain_size self !! 1%nat = Some d
    /\ simpleLCA_VI.domsize_to_objects self !! d = Some objects
    /\ simpleLCA_VI.to_batch_idx self !! 1%nat = Some i
    /\ objects !! i = Some 1%nat.
Proof.
  destruct (simpleLCA_VI.build_ds fixtureA) as [self|] eqn:E;
    [|vm_compute in E; discriminate].
  assert (Hn : (1 < simpleLCA_VI.n_objects self)%nat).
  { destruct (build_ds_inv _ _ E) as (idx & _ & ->). vm_compute. lia. }
  destruct (proj1 (batch_idx_position fixtureA self E) 1%nat Hn)
    as (d & objects & i & H1 & H2 & H3 & H4 & _).
  exists self, d, objects, i. auto.
Defined.

(** X12: [build_ds] returns exactly on the tables whose object identifiers
    are dense and zero-based (repeated claims are accepted; stated for tables
    with at least one row); on every other table the lookup
    [domain_size[o_id]] in [_compute_rank] raises [KeyError]. *)
Theorem build_ds_dense (claims : DataFrame) :
  (claims <> [] -> dense (object_id <$> claims) ->
   exists self, simpleLCA_VI.build_ds claims = Ok self)
  /\ (~ dense (object_id <$> claims) ->
      simpleLCA_VI.build_ds claims = Raise KeyError).
Proof.
  unfold simpleLCA_VI.build_ds, simpleLCA_VI._compute_prob_desc.
  set (ds := (fun m => m + 1)%nat <$> groupby_max_value claims).
  set (dto := simpleLCA_VI.build_domsize_to_objects claims).
  split.
  - intros _ Hdense.
    destruct (for_each_range_total (fun _ (_ : gmap nat nat) => True)
                (fun o_id (to_batch_idx : gmap nat nat) =>
                   rank ← simpleLCA_VI._compute_rank ds dto o_id;
                   Ok (<[o_id := rank]> to_batch_idx))
                (nunique (object_id <$> claims)) 0 ∅ I) as (idx & Hidx & _).
    + intros k m [_ Hk] _. simpl in Hk.
      destruct (compute_rank_Ok claims k (Hdense k Hk)) as (rank & Hr).
      fold ds dto in Hr. rewrite Hr. eexists. split; [reflexivity | exact I].
    + unfold simpleLCA_VI.compute_batch_idx, range. rewrite Hidx. eexists. reflexivity.
  - intros Hnd.
    destruct (for_each_KeyError (range (nunique (object_id <$> claims)))
                (fun o_id (to_batch_idx : gmap nat nat) =>
                   rank ← simpleLCA_VI._compute_rank ds dto o_id;
                   Ok (<[o_id := rank]> to_batch_idx)) ∅) as [(idx & Hidx)|Hraise].
    + intros k m. unfold simpleLCA_VI._compute_rank, getitem.
      destruct (ds !! k) as [d|]; [|right; reflexivity].
      cbn [mbind result_bind]. destruct (dto !! d); [|right; reflexivity].
      left. eexists. reflexivity.
    + exfalso. apply Hnd. intros o Ho.
      destruct (proj1 (compute_batch_idx_lookup claims _ idx Hidx) o Ho)
        as (d & _ & _ & Hd & _).
      destruct (decide (o ∈ object_id <$> claims)) as [|Hn]; [assumption|].
      rewrite lookup_fmap, (groupby_max_value_None claims o Hn) in Hd. discriminate.
    + unfold simpleLCA_VI.compute_batch_idx. rewrite Hraise. reflexivity.
Qed.

Lemma build_ds_dense_witness :
  (exists self, simpleLCA_VI.build_ds fixtureA = Ok self)
  /\ simpleLCA_VI.build_ds [Claim 0 1 0] = Raise KeyError.
Proof.
  split.
  - apply (proj1 (build_ds_dense fixtureA)); [discriminate|]. intros i Hi.
    assert (Hi' : (i < 3)%nat) by exact Hi.
    destruct i as [|[|[|i]]]; [| | |lia]; unfold fixtureA; simpl.
    + left.
    + right. left.
    + do 4 right. left.
  - apply (proj2 (build_ds_dense [Claim 0 1 0])). intros Hd.
    specialize (Hd 0%nat). simpl in Hd.
    assert (H0 : (0 < nunique [1%nat])%nat) by (vm_compute; lia).
    specialize (Hd H0). apply list_elem_of_singleton in Hd. discriminate.
Defined.

Lemma foldl_snoc_fmap {A B} (g : A -> B) (l : list A) (acc : list B) :
  foldl (fun acc x => acc ++ [g x]) acc l = acc ++ (g <$> l).
Proof.
  revert acc. induction l as [|x l IH]; intros acc; [rewrite app_nil_r; reflexivity|].
  cbn [foldl]. rewrite IH, fmap_cons, <- app_assoc. reflexivity.
Qed.

Lemma length_build_claim_probs (x : float) (d v : nat) :
  length (simpleLCA_VI._build_claim_probs x d v) = d.
Proof.
  change (length (LCA._build_claim_probs x d v) = d).
  rewrite build_claim_probs_entries. unfold range. rewrite length_fmap. apply length_seq.
Qed.

(** The matrix of claim probabilities of an object, row by row. *)
Lemma observed_probs_rows (sigmoid : float -> float) (honest_logits_p : ndarray)
    (claims : DataFrame) (self : simpleLCA_VI.ds) (o truth : nat) :
  simpleLCA_VI.build_ds claims = Ok self ->
  dense (source_id <$> claims) ->
  length honest_logits_p = simpleLCA_VI.n_sources self ->
  (o < simpleLCA_VI.n_objects self)%nat ->
  exists probs sources vals d,
    simpleLCA_VI.compute_observed_probs sigmoid honest_logits_p self o truth = Ok probs
    /\ simpleLCA_VI.object_to_sources self !! o = Some sources
    /\ simpleLCA_VI.obs self !! ("x_" +:+ pretty o) = Some vals
    /\ simpleLCA_VI.domain_size self !! o = Some d
    /\ length probs = length vals
    /\ length sources = length vals
    /\ (forall i s, sources !! i = Some s ->
          exists logit,
            honest_logits_p !! s = Some logit
            /\ probs !! i
               = Some (simpleLCA_VI._build_claim_probs (sigmoid logit) d truth))
    /\ (forall row, row ∈ probs -> length row = d)
    /\ (forall v, v ∈ vals -> (v < d)%nat).
Proof.
  intros H Hdense Hlen Ho.
  destruct (build_ds_inv claims self H) as (idx & Hidx & ->).
  cbn [simpleLCA_VI.n_objects simpleLCA_VI.n_sources simpleLCA_VI.domain_size
       simpleLCA_VI.object_to_sources simpleLCA_VI.obs] in *.
  destruct (proj1 (compute_batch_idx_lookup claims _ idx Hidx) o Ho)
    as (d & _ & _ & Hd & _).
  assert (Hin : o ∈ object_id <$> claims).
  { destruct (decide (o ∈ object_id <$> claims)) as [|Hn]; [assumption|].
    rewrite lookup_fmap, (groupby_max_value_None claims o Hn) in Hd. discriminate. }
  destruct (proj1 (object_to_sources_lookup claims o) Hin)
    as (rows & Hperm & _ & Hsrc & Hobs).
  destruct (groupby_max_value_Some claims o Hin) as (m & Hm & _ & Hmax).
  assert (d = (m + 1)%nat) as -> by (rewrite lookup_fmap, Hm in Hd; simpl in Hd; congruence).
  assert (Hrows : forall c, c ∈ rows -> c ∈ claims /\ object_id c = o).
  { intros c Hc. rewrite Hperm in Hc. apply list_elem_of_filter in Hc. tauto. }
  set (g := fun s : nat =>
              simpleLCA_VI._build_claim_probs
                (sigmoid (default NaN (honest_logits_p !! s))) (m + 1) truth).
  assert (Hlogit : forall s, s ∈ source_id <$> rows ->
                             exists logit, honest_logits_p !! s = Some logit).
  { intros s Hs. apply list_elem_of_fmap in Hs. destruct Hs as (c & -> & Hc).
    apply lookup_lt_is_Some. rewrite Hlen.
    apply (dense_elem_of _ _ Hdense). apply list_elem_of_fmap_2, Hrows, Hc. }
  exists (g <$> (source_id <$> rows)), (source_id <$> rows), (value <$> rows), (m + 1)%nat.
  split; [|split; [exact Hsrc|split; [exact Hobs|split; [exact Hd|]]]].
  { unfold simpleLCA_VI.compute_observed_probs, getitem.
    cbn [simpleLCA_VI.domain_size simpleLCA_VI.object_to_sources].
    rewrite Hd, Hsrc. cbn [mbind result_bind].
    rewrite (for_each_pure _ (fun acc s => acc ++ [g s])).
    - rewrite foldl_snoc_fmap. reflexivity.
    - intros s acc Hs. destruct (Hlogit s Hs) as (logit & Hl).
      unfold item, g. rewrite Hl. reflexivity. }
  split; [rewrite !length_fmap; reflexivity|].
  split; [rewrite !length_fmap; reflexivity|].
  split; [|split].
  - intros i s Hi. destruct (Hlogit s (list_elem_of_lookup_2 _ _ _ Hi)) as (logit & Hl).
    exists logit. split; [exact Hl|].
    rewrite list_lookup_fmap, Hi. cbn [fmap option_fmap option_map]. unfold g.
    rewrite Hl. reflexivity.
  - intros row Hrow. apply list_elem_of_fmap in Hrow. destruct Hrow as (s & -> & _).
    apply length_build_claim_probs.
  - intros v Hv. apply list_elem_of_fmap in Hv. destruct Hv as (c & -> & Hc).
    destruct (Hrows c Hc) as [Hc1 Hc2]. specialize (Hmax c Hc1 Hc2). lia.
Qed.

(** X13: on an object that [build_ds] has built from a table with dense
    source identifiers, and with a variable [honest_logits_p] of one entry
    per source, [compute_observed_probs(o, truth)] returns for every object
    [o < n_objects] a matrix that fits the observation [obs['x_o']]: one row
    per observed value, the row at position [i] built by
    [_build_claim_probs] from the logit of the source at position [i] of
    [object_to_sources[o]], every row of length [domain_size[o]], and every
    observed value below [domain_size[o]]. *)
Theorem observed_probs_shape (sigmoid : float -> float) (honest_logits_p : ndarray)
    (claims : DataFrame) (self : simpleLCA_VI.ds) (o truth : nat) :
  simpleLCA_VI.build_ds claims = Ok self ->
  dense (source_id <$> claims) ->
  length honest_logits_p = simpleLCA_VI.n_sources self ->
  (o < simpleLCA_VI.n_objects self)%nat ->
  exists probs sources vals d,
    simpleLCA_VI.compute_observed_probs sigmoid honest_logits_p self o truth = Ok probs
    /\ simpleLCA_VI.object_to_sources self !! o = Some sources
    /\ simpleLCA_VI.obs self !! ("x_" +:+ pretty o) = Some vals
    /\ simpleLCA_VI.domain_size self !! o = Some d
    /\ length probs = length vals
    /\ length sources = length vals
    /\ (forall i s, sources !! i = Some s ->
          exists logit,
            honest_logits_p !! s = Some logit
            /\ probs !! i
               = Some (simpleLCA_VI._build_claim_probs (sigmoid logit) d truth))
    /\ (forall row, row ∈ probs -> length row = d)
    /\ (forall v, v ∈ vals -> (v < d)%nat).
Proof. exact (observed_probs_rows sigmoid honest_logits_p claims self o truth). Qed.

Lemma observed_probs_shape_witness :
  exists self probs vals,
    simpleLCA_VI.build_ds fixtureA = Ok self
    /\ simpleLCA_VI.compute_observed_probs (fun _ => Fin (1 # 2))
         [Fin 0; Fin 0; Fin 0] self 1 3 = Ok probs
    /\ simpleLCA_VI.obs self !! ("x_" +:+ pretty 1%nat) = Some vals
    /\ length probs = length vals.
Proof.
  destruct (simpleLCA_VI.build_ds fixtureA) as [self|] eqn:E;
    [|vm_compute in E; discriminate].
  destruct (observed_probs_shape (fun _ => Fin (1 # 2)) [Fin 0; Fin 0; Fin 0]
              fixtureA self 1 3 E)
    as (probs & sources & vals & d & H1 & _ & H3 & _ & H5 & _).
  - intros i Hi. assert (Hi' : (i < 3)%nat) by exact Hi.
    destruct i as [|[|[|i]]]; [| | |lia]; unfold fixtureA; simpl.
    + left.
    + do 2 right. left.
    + do 4 right. left.
  - destruct (build_ds_inv _ _ E) as (idx & _ & ->). reflexivity.
  - destruct (build_ds_inv _ _ E) as (idx & _ & ->). vm_compute. lia.
  - exists self, probs, vals. auto.
Defined.

(** ** The EM variant: the constructor, the matrices and the order of the
    calls *)

Section EM_interface.

Import simpleLCA_EM EM_read.

Lemma compute_observation_matrix_Ok (df : DataFrame) :
  exists B, compute_observation_matrix df = Ok B.
Proof.
  unfold compute_observation_matrix, pivot. rewrite decide_True; [eexists; reflexivity|].
  apply NoDup_alt. intros i j k Hi Hj.
  rewrite list_lookup_fmap, list_lookup_imap in Hi, Hj.
  destruct (df !! i); [|discriminate]. destruct (df !! j); [|discriminate].
  simpl in Hi, Hj. congruence.
Qed.

(** X14: the constructor [__init__] returns exactly on the tables (of at
    least one row) that have no repeated (source, object) pair and whose
    object identifiers are dense and zero-based. A repeated pair makes [pivot] raise [ValueError] in
    [compute_weight_matrix]; without one, an identifier gap makes
    [domain_size[o]] raise [KeyError] while the priors are built. Gaps in the
    source identifiers are accepted. *)
Theorem init_outcome (df : DataFrame) :
  (~ NoDup ((fun c => (source_id c, object_id c)) <$> df) ->
   init df = Raise ValueError)
  /\ (NoDup ((fun c => (source_id c, object_id c)) <$> df) ->
      ~ dense (object_id <$> df) -> init df = Raise KeyError)
  /\ (df <> [] -> NoDup ((fun c => (source_id c, object_id c)) <$> df) ->
      dense (object_id <$> df) -> exists self, init df = Ok self).
Proof.
  destruct (compute_observation_matrix_Ok df) as (B & HB).
  split; [|split].
  - intros Hdup. unfold init. rewrite HB. cbn [mbind result_bind].
    unfold compute_weight_matrix, pivot. rewrite decide_False; [reflexivity|].
    rewrite <- list_fmap_compose. exact Hdup.
  - intros Hnd Hgap.
    destruct (init df) as [self|e] eqn:E.
    + exfalso. apply Hgap. intros o Ho.
      apply (init_objects_dense df self o E).
      destruct (init_inv df self E) as (B0 & W0 & pr0 & _ & _ & _ & ->). exact Ho.
    + revert E. unfold init. rewrite HB. cbn [mbind result_bind].
      assert (HW : exists W, compute_weight_matrix df = Ok W).
      { unfold compute_weight_matrix, pivot. rewrite decide_True; [eexists; reflexivity|].
        rewrite <- list_fmap_compose. exact Hnd. }
      destruct HW as (W & ->). cbn [mbind result_bind]. unfold _compute_prob_desc.
      destruct (for_each_KeyError (range (nunique (object_id <$> df)))
                  (fun o (prior : gmap nat ndarray) =>
                     d ← getitem ((fun m => m + 1)%nat <$> groupby_max_value df) o;
                     Ok (<[o := scale fdiv (ones d) (of_nat d)]> prior)) ∅)
        as [(pr & ->)| ->].
      * intros k m. unfold getitem.
        destruct (((fun m => m + 1)%nat <$> groupby_max_value df) !! k);
          [left; eexists; reflexivity | right; reflexivity].
      * discriminate.
      * cbn [mbind result_bind]. congruence.
  - intros _ Hnd Hdense. exact (init_dense_returns df Hdense Hnd).
Qed.

Lemma init_outcome_witness :
  init [Claim 0 0 1; Claim 0 0 2] = Raise ValueError
  /\ init [Claim 0 1 0] = Raise KeyError
  /\ exists self, init [Claim 5 0 1] = Ok self.
Proof.
  split; [|split].
  - apply (proj1 (init_outcome [Claim 0 0 1; Claim 0 0 2])).
    intros H. simpl in H. apply NoDup_cons in H. destruct H as [H _]. apply H. left.
  - apply (proj1 (proj2 (init_outcome [Claim 0 1 0]))).
    + simpl. apply NoDup_singleton.
    + intros Hd. specialize (Hd 0%nat). simpl in Hd.
      assert (H0 : (0 < nunique [1%nat])%nat) by (vm_compute; lia).
      specialize (Hd H0). apply list_elem_of_singleton in Hd. discriminate.
  - apply (proj2 (proj2 (init_outcome [Claim 5 0 1]))).
    + discriminate.
    + simpl. apply NoDup_singleton.
    + intros i Hi. assert (Hi' : (i < 1)%nat) by exact Hi.
      assert (i = 0%nat) as -> by lia. simpl. left.
Defined.

Lemma nunique_pos (l : list nat) : l <> [] -> (0 < nunique l)%nat.
Proof.
  destruct l as [|x l]; [congruence|]. intros _. unfold nunique.
  assert (Hx : x ∈ remove_dups (x :: l)) by (apply elem_of_remove_dups; left).
  destruct (remove_dups (x :: l)); [inversion Hx | simpl; lia].
Qed.

Lemma init_counts_pos (df : DataFrame) (self : t) :
  init df = Ok self -> df <> [] ->
  (0 < n_sources self)%nat /\ (0 < n_objects self)%nat /\ posterior self = ∅.
Proof.
  intros E Hdf. destruct (init_inv df self E) as (B0 & W0 & pr0 & _ & _ & _ & ->).
  cbn [n_sources n_objects posterior].
  split; [|split; [|reflexivity]]; apply nunique_pos; intros H;
    apply fmap_nil_inv in H; contradiction.
Qed.

Lemma for_each_range_first {S} (n : nat) (body : nat -> S -> result S) (s : S)
    (e : exn) :
  (0 < n)%nat -> body 0%nat s = Raise e -> for_each (range n) body s = Raise e.
Proof.
  intros Hn Hb. destruct n as [|n]; [lia|].
  unfold range. cbn [seq for_each]. rewrite Hb. reflexivity.
Qed.

(** X15: the M-step and [_compute_truth] read the posteriors, which the
    constructor leaves empty: on a freshly built object (of a table with at
    least one claim) both raise [KeyError]; an E-step has to run first. *)
Theorem m_step_needs_e_step (df : DataFrame) (self : t) :
  init df = Ok self -> df <> [] ->
  m_step self = Raise KeyError /\ _compute_truth self = Raise KeyError.
Proof.
  intros E Hdf.
  destruct (init_counts_pos df self E Hdf) as (Hs & Ho & Hpost).
  pose proof (init_wf df self E) as Hwf.
  split.
  - unfold m_step. apply for_each_range_first; [exact Hs|].
    cbv beta. unfold compute_honest.
    destruct (wf_weight_lookup self 0 0 Hwf Hs Ho) as (row & Hrow & Hw & _).
    rewrite (item_Ok _ _ _ Hrow). cbn [mbind result_bind].
    rewrite (for_each_range_first _ _ _ KeyError Ho); [reflexivity|].
    destruct (wf_dsize self 0 Hwf Ho) as (Hd & Hd1 & _). cbv beta.
    rewrite (getitem_Ok _ _ _ Hd). cbn [mbind result_bind].
    apply for_each_range_first; [lia|]. cbv beta.
    rewrite (item_Ok _ _ _ Hw). cbn [mbind result_bind].
    unfold getitem. rewrite Hpost, lookup_empty. reflexivity.
  - unfold _compute_truth. apply for_each_range_first; [exact Ho|].
    cbv beta. unfold getitem. rewrite Hpost, lookup_empty. reflexivity.
Qed.

Lemma m_step_needs_e_step_witness :
  exists self, init fixtureA = Ok self /\ m_step self = Raise KeyError.
Proof.
  destruct (init fixtureA) as [self|] eqn:E; [|vm_compute in E; discriminate].
  exists self. split; [reflexivity|].
  apply (m_step_needs_e_step fixtureA self E). discriminate.
Defined.

(** X16: in every state of an object built from a non-empty table, an
    object identifier outside [0 .. n_objects - 1] is rejected:
    [compute_joint] raises [KeyError] on the lookup of its domain size, and
    [compute_responsibility] raises [IndexError] on the first row of the
    weight matrix. *)
Theorem unknown_object_rejected (df : DataFrame) (self : t) (o v : nat) :
  reachable df self -> df <> [] -> (n_objects self <= o)%nat ->
  compute_joint self o = Raise KeyError
  /\ compute_responsibility self o v = Raise IndexError.
Proof.
  intros Hr Hdf Ho.
  pose proof (reachable_wf df self Hr) as Hwf.
  destruct (reachable_frame df self Hr) as (self0 & E & F).
  destruct F as (_ & _ & Fs & Fo & Fd & _).
  destruct (init_counts_pos df self0 E Hdf) as (Hs & _ & _).
  split.
  - unfold compute_joint, getitem.
    assert (Hnone : domain_size self !! o = None).
    { rewrite Fd. destruct (init_inv df self0 E) as (B0 & W0 & pr0 & _ & _ & _ & ->).
      cbn [domain_size]. rewrite lookup_fmap.
      rewrite groupby_max_value_None; [reflexivity|].
      intros Hin. apply (init_objects_dense df _ o E) in Hin. cbn [n_objects] in *. lia. }
    rewrite Hnone. reflexivity.
  - unfold compute_responsibility.
    rewrite (for_each_range_first _ _ _ IndexError); [reflexivity|lia|].
    cbv beta. destruct (weight self !! 0%nat) as [row|] eqn:Hrow.
    + rewrite (item_Ok _ _ _ Hrow). cbn [mbind result_bind].
      unfold item. rewrite (lookup_ge_None_2 row o); [reflexivity|].
      rewrite (wf_cols self Hwf row (list_elem_of_lookup_2 _ _ _ Hrow)). exact Ho.
    + apply lookup_ge_None in Hrow. rewrite (wf_rows self Hwf) in Hrow. lia.
Qed.

Lemma unknown_object_rejected_witness :
  exists self, init fixtureA = Ok self
               /\ compute_joint self 3 = Raise KeyError
               /\ compute_responsibility self 3 0 = Raise IndexError.
Proof.
  destruct (init fixtureA) as [self|] eqn:E; [|vm_compute in E; discriminate].
  exists self. split; [reflexivity|].
  apply (unknown_object_rejected fixtureA self 3 0).
  - apply reach_init. exact E.
  - discriminate.
  - destruct (init_inv _ _ E) as (B0 & W0 & pr0 & _ & _ & _ & ->). vm_compute. lia.
Defined.

Lemma deref_update_ne (h : store) (r r' : ref) (a : ndarray) :
  r' <> r -> deref (update h r a) r' = deref h r'.
Proof. destruct r, r'; intros H; try congruence; reflexivity. Qed.

(** The M-step writes through [theta_new] only. *)
Lemma m_step_other_cell (self self' : t) (r : ref) :
  m_step self = Ok self' -> r <> theta_new self ->
  deref (heap self') r = deref (heap self) r.
Proof.
  unfold m_step, range. intros H Hr.
  apply (for_each_range_partial
           (fun _ s => theta_new s = theta_new self
                       /\ deref (heap s) r = deref (heap self) r)) in H.
  - tauto.
  - auto.
  - intros k s s1 _ [I1 I2] Hbody.
    apply compute_honest_inv in Hbody. destruct Hbody as (x & _ & ->).
    rewrite theta_new_set_heap, heap_set_heap. split; [exact I1|].
    rewrite deref_update_ne by congruence. exact I2.
Qed.

Lemma reachable_references (df : DataFrame) (self : t) :
  reachable df self ->
  theta_new self = Ref1
  /\ (theta_old self = Ref0 \/ theta_old self = Ref1)
  /\ cell0 (heap self) = fmul (Fin 0.5) <$> ones (n_sources self).
Proof.
  induction 1 as [self E|self self' Hr IH E|self self' Hr IH E|self Hr IH].
  - destruct (init_inv df self E) as (B0 & W0 & pr0 & _ & _ & _ & ->).
    cbn [theta_new theta_old heap cell0 n_sources]. auto.
  - destruct (e_step_eq self (reachable_wf df self Hr)) as (pm & E' & _).
    assert (self' = set_posterior self pm) as -> by congruence. exact IH.
  - destruct IH as (I1 & I2 & I3).
    destruct (m_step_inv self self' (reachable_wf df self Hr) E)
      as (_ & F & _ & Hold & Hnew).
    destruct F as (_ & _ & Fs & _).
    rewrite Hold, Hnew, Fs. split; [exact I1|]. split; [exact I2|].
    change (deref (heap self') Ref0 = fmul (Fin 0.5) <$> ones (n_sources self)).
    rewrite (m_step_other_cell self self' Ref0 E) by (rewrite I1; discriminate).
    exact I3.
  - destruct IH as (I1 & I2 & I3). cbn [set_theta_old theta_new theta_old heap n_sources].
    auto.
Qed.

(** X17: the array of initial honesties 0.5 that [__init__] binds to
    [theta_old] is never written: whichever E-steps, M-steps and assignments
    [theta_old = theta_new] an object has gone through, [theta_old] is either
    that untouched array, or the very array that [theta_new] refers to. It
    never holds an earlier iterate of its own. *)
Theorem theta_old_initial_or_alias (df : DataFrame) (self : t) :
  reachable df self ->
  theta_old self = theta_new self
  \/ deref (heap self) (theta_old self) = fmul (Fin 0.5) <$> ones (n_sources self).
Proof.
  intros Hr. destruct (reachable_references df self Hr) as (I1 & [I2|I2] & I3).
  - right. rewrite I2. exact I3.
  - left. congruence.
Qed.

Lemma theta_old_initial_or_alias_witness :
  exists self s1 s2,
    init fixtureA = Ok self /\ e_step self = Ok s1 /\ m_step s1 = Ok s2
    /\ (theta_old s2 = theta_new s2
        \/ deref (heap s2) (theta_old s2) = fmul (Fin 0.5) <$> ones (n_sources s2)).
Proof.
  destruct (init fixtureA) as [self|] eqn:E; [|vm_compute in E; discriminate].
  destruct (e_step self) as [s1|] eqn:E1; [|vm_compute in E; injection E as <-;
                                            vm_compute in E1; discriminate].
  destruct (m_step s1) as [s2|] eqn:E2;
    [|vm_compute in E; injection E as <-; vm_compute in E1; injection E1 as <-;
      vm_compute in E2; discriminate].
  exists self, s1, s2. split; [reflexivity|]. split; [exact E1|]. split; [exact E2|].
  apply (theta_old_initial_or_alias fixtureA s2).
  apply (reach_m_step _ s1); [|exact E2].
  apply (reach_e_step _ self); [|exact E1]. apply reach_init. exact E.
Defined.

Lemma em_loop_one_pass (alpha : float) (self self' : t) :
  em_loop 1 alpha self = Returned self' ->
  exists s1, e_step self = Ok s1 /\ m_step s1 = Ok self'.
Proof.
  cbn [em_loop]. intros H.
  destruct (e_step self) as [s1|] eqn:E1; [|discriminate].
  destruct (m_step s1) as [s2|] eqn:E2; [|discriminate].
  destruct (broadcast _ _ _) as [d|]; [|discriminate].
  destruct (norm_lt d alpha); [|discriminate].
  injection H as <-. exists s1. split; [reflexivity | exact E2].
Qed.

(** X18: [discover] reports the honesties held by [theta_old], the iterate
    before the last M-step: when the loop exits at its first convergence
    check, the trust of every source is the initial 0.5, whatever the claims
    are, and the honesties computed by the M-step stay in [theta_new]. *)
Theorem discover_one_pass_trust (df : DataFrame) (alpha : float) (self self' : t)
    (a b : gmap nat RandomVariable) :
  init df = Ok self ->
  discover 1 alpha self = Returned (a, b, self') ->
  forall s, (s < n_sources self)%nat ->
    exists th, a !! s = Some (Bernoulli th) /\ th ≡ Fin 0.5.
Proof.
  intros E D s Hs.
  destruct (discover_returned 1 alpha self self' a b D) as (L & Ha & _).
  destruct (em_loop_one_pass alpha self self' L) as (s1 & E1 & E2).
  assert (Hr : reachable df self').
  { apply (reach_m_step _ s1); [|exact E2].
    apply (reach_e_step _ self); [|exact E1]. apply reach_init. exact E. }
  pose proof (reachable_wf df self' Hr) as Hwf.
  destruct (reachable_references df self' Hr) as (_ & _ & I3).
  destruct (reachable_frame df self' Hr) as (self0 & E0 & F).
  assert (self0 = self) as -> by congruence.
  destruct F as (_ & _ & Fs & _).
  assert (Hold : theta_old self' = Ref0).
  { destruct (m_step_inv s1 self' (proj1 (e_step_wf self s1 (init_wf df self E) E1)) E2)
      as (_ & _ & _ & Hold & _).
    destruct (e_step_eq self (init_wf df self E)) as (pm & E1' & _).
    assert (s1 = set_posterior self pm) as -> by congruence.
    rewrite Hold. cbn [set_posterior theta_old].
    destruct (init_inv df self E) as (B0 & W0 & pr0 & _ & _ & _ & ->). reflexivity. }
  destruct (compute_trust_eq self' Hwf) as (trust & Ht & Hlook).
  assert (trust = a) as -> by congruence.
  specialize (Hlook s). rewrite decide_True in Hlook by lia.
  eexists. split; [exact Hlook|].
  unfold theta. rewrite Hold. cbn [deref]. rewrite I3.
  unfold ones. rewrite fmap_replicate, lookup_replicate_2 by lia.
  simpl. apply Fin_equiv. ring.
Qed.

Lemma discover_one_pass_trust_witness :
  exists self a b self' th,
    init fixtureB = Ok self
    /\ discover 1 (Fin 10) self = Returned (a, b, self')
    /\ a !! 0%nat = Some (Bernoulli th) /\ th ≡ Fin 0.5.
Proof.
  destruct (init fixtureB) as [self|] eqn:E; [|vm_compute in E; discriminate].
  destruct (discover 1 (Fin 10) self) as [[[a b] self']| |] eqn:D;
    [|vm_compute in E; injection E as <-; vm_compute in D; discriminate..].
  destruct (discover_one_pass_trust fixtureB (Fin 10) self self' a b E D 0%nat)
    as (th & H1 & H2).
  - destruct (init_inv _ _ E) as (B0 & W0 & pr0 & _ & _ & _ & ->). vm_compute. lia.
  - exists self, a, b, self', th. split; [reflexivity|]. split; [exact D|]. auto.
Defined.

End EM_interface.

(** ** The EM variant: the entries of the two matrices *)

Section EM_matrices.

Import simpleLCA_EM EM_read.

Lemma sorted_unique_seq (n : nat) : sorted_unique (seq 0 n) = seq 0 n.
Proof.
  apply (Sorted_unique le).
  - apply StronglySorted_lt_le, sorted_unique_sorted.
  - apply StronglySorted_lt_le, seq_sorted.
  - apply NoDup_Permutation; [apply NoDup_sorted_unique | apply NoDup_seq|].
    intros k. apply elem_of_sorted_unique.
Qed.

Lemma get_value_is_Some (df : DataFrame) (self : t) (s o : nat) :
  init df = Ok self ->
  is_Some (get_value self s o) <-> (s, o) ∈ (fun c => (source_id c, object_id c)) <$> df.
Proof.
  intros E. destruct (init_inv df self E) as (B0 & W0 & pr0 & _ & HW & _ & ->).
  destruct (compute_weight_matrix_eq df W0 HW) as [Hnd _].
  unfold get_value. cbn [value_index]. split.
  - intros [v Hv]. destruct (decide ((s, o) ∈ (fun c => (source_id c, object_id c)) <$> df))
      as [|Hn]; [assumption|].
    rewrite (value_index_None df (s, o) Hn) in Hv. discriminate.
  - intros Hin. apply list_elem_of_fmap in Hin. destruct Hin as (c & Hc & Hin).
    injection Hc as -> ->. rewrite (value_index_Some df c Hnd Hin). eauto.
Qed.

Lemma init_dense_objects (df : DataFrame) (self : t) :
  init df = Ok self -> dense (object_id <$> df).
Proof.
  intros E o Ho. apply (init_objects_dense df self o E).
  destruct (init_inv df self E) as (B0 & W0 & pr0 & _ & _ & _ & ->). exact Ho.
Qed.

(** The entry of the weight matrix in the row of the [i]-th smallest source
    identifier. *)
Lemma weight_entry_get_value (df : DataFrame) (self : t) (i s o : nat) :
  init df = Ok self ->
  sorted_unique (source_id <$> df) !! i = Some s -> (o < n_objects self)%nat ->
  W self i o = if decide (is_Some (get_value self s o)) then Fin 1 else Fin 0.
Proof.
  intros E Hi Ho.
  pose proof (get_value_is_Some df self s o E) as Hgv.
  pose proof (init_dense_objects df self E) as Hdo.
  destruct (init_inv df self E) as (B0 & W0 & pr0 & _ & HW & _ & Hself).
  destruct (compute_weight_matrix_eq df W0 HW) as [_ HW0].
  assert (Hno : n_objects self = nunique (object_id <$> df)) by (rewrite Hself; reflexivity).
  unfold W. replace (weight self) with W0 by (rewrite Hself; reflexivity).
  rewrite HW0, list_lookup_fmap, Hi. cbn [fmap option_fmap option_map mbind option_bind].
  rewrite list_lookup_fmap, (dense_sorted_unique _ Hdo), lookup_seq_lt by lia.
  cbn [fmap option_fmap option_map default].
  destruct (decide (is_Some (get_value self s o))) as [Hs|Hs].
  - rewrite bool_decide_eq_true_2; [reflexivity|]. apply Hgv. exact Hs.
  - rewrite bool_decide_eq_false_2; [reflexivity|]. intros Hin. apply Hs, Hgv. exact Hin.
Qed.

Lemma weight_entry_dense (df : DataFrame) (self : t) (s o : nat) :
  init df = Ok self -> dense (source_id <$> df) ->
  (s < n_sources self)%nat -> (o < n_objects self)%nat ->
  W self s o = if decide (is_Some (get_value self s o)) then Fin 1 else Fin 0.
Proof.
  intros E Hds Hs Ho. apply (weight_entry_get_value df self s s o E); [|exact Ho].
  assert (Hns : n_sources self = nunique (source_id <$> df)).
  { destruct (init_inv df self E) as (B0 & W0 & pr0 & _ & _ & _ & ->). reflexivity. }
  rewrite (dense_sorted_unique _ Hds). apply lookup_seq_lt. lia.
Qed.

(** X19: the row [i] of the weight matrix belongs to the [i]-th smallest
    source identifier [s] of the table, and its entry for an object [o] is 1
    when [s] made a claim about [o] and 0 otherwise. With dense, zero-based
    source identifiers the row index is the identifier itself, so
    [weight[s][o]] is 1 exactly when [get_value(s, o)] is not [None]. *)
Theorem weight_matrix_entries (df : DataFrame) (self : t) :
  init df = Ok self ->
  (forall i s o,
     sorted_unique (source_id <$> df) !! i = Some s -> (o < n_objects self)%nat ->
     W self i o = if decide (is_Some (get_value self s o)) then Fin 1 else Fin 0)
  /\ (dense (source_id <$> df) ->
      forall s o, (s < n_sources self)%nat -> (o < n_objects self)%nat ->
        W self s o = if decide (is_Some (get_value self s o)) then Fin 1 else Fin 0).
Proof.
  intros E. split.
  - intros i s o Hi Ho. exact (weight_entry_get_value df self i s o E Hi Ho).
  - intros Hds s o Hs Ho. exact (weight_entry_dense df self s o E Hds Hs Ho).
Qed.

Lemma weight_matrix_entries_witness :
  exists self, init fixtureA = Ok self
               /\ W self 2 0 = (if decide (is_Some (get_value self 2 0))
                                then Fin 1 else Fin 0).
Proof.
  destruct (init fixtureA) as [self|] eqn:E; [|vm_compute in E; discriminate].
  exists self. split; [reflexivity|].
  apply (proj1 (weight_matrix_entries fixtureA self E) 2%nat 2%nat 0%nat).
  - vm_compute. reflexivity.
  - destruct (init_inv _ _ E) as (B0 & W0 & pr0 & _ & _ & _ & ->). vm_compute. lia.
Defined.

Lemma imap_fmap_const {A B} (f : A -> B) (l : list A) :
  imap (fun _ x => f x) l = f <$> l.
Proof.
  apply list_eq. intros i. rewrite list_lookup_imap, list_lookup_fmap. reflexivity.
Qed.

Lemma imap_index {A} (l : list A) : imap (fun i _ => i) l = seq 0 (length l).
Proof.
  apply list_eq. intros i. rewrite list_lookup_imap.
  destruct (l !! i) as [x|] eqn:E.
  - rewrite lookup_seq_lt by (apply lookup_lt_Some in E; exact E). reflexivity.
  - rewrite lookup_seq_ge by (apply lookup_ge_None in E; exact E). reflexivity.
Qed.

(** X20: [compute_observation_matrix] returns on every table of at least
    one row a matrix with one row per distinct source and one column per
    claim; in the row of the [i]-th smallest source identifier [s], the entry
    of column [c] is the value of claim [c] when [s] made that claim, and -1
    otherwise. *)
Theorem observation_matrix_entries (df : DataFrame) :
  df <> [] ->
  exists B,
    compute_observation_matrix df = Ok B
    /\ length B = nunique (source_id <$> df)
    /\ (forall row, row ∈ B -> length row = length df)
    /\ forall i s c cl,
         sorted_unique (source_id <$> df) !! i = Some s -> df !! c = Some cl ->
         B !! i ≫= (fun row => row !! c)
         = Some (if decide (source_id cl = s) then of_nat (value cl) else Fin (-1)).
Proof.
  intros _. unfold compute_observation_matrix, pivot.
  set (cells := imap (fun claim_id c => (source_id c, claim_id, value c)) df).
  assert (Hnd : NoDup (fst <$> cells)).
  { apply NoDup_alt. intros i j k Hi Hj. unfold cells in Hi, Hj.
    rewrite list_lookup_fmap, list_lookup_imap in Hi, Hj.
    destruct (df !! i); [|discriminate]. destruct (df !! j); [|discriminate].
    simpl in Hi, Hj. congruence. }
  rewrite decide_True by exact Hnd. cbn [mbind result_bind].
  assert (Hsrc : (fst ∘ fst) <$> cells = source_id <$> df).
  { unfold cells. rewrite fmap_imap. exact (imap_fmap_const source_id df). }
  assert (Hcol : (snd ∘ fst) <$> cells = seq 0 (length df)).
  { unfold cells. rewrite fmap_imap. exact (imap_index df). }
  rewrite Hsrc, Hcol, sorted_unique_seq.
  eexists. split; [reflexivity|]. unfold fillna. split; [|split].
  - rewrite !length_fmap. apply length_sorted_unique.
  - intros row Hrow. apply list_elem_of_fmap in Hrow. destruct Hrow as (r & -> & Hr).
    apply list_elem_of_fmap in Hr. destruct Hr as (i & -> & _).
    rewrite !length_fmap. apply length_seq.
  - intros i s c cl Hi Hc.
    rewrite !list_lookup_fmap, Hi. cbn [fmap option_fmap option_map mbind option_bind].
    rewrite !list_lookup_fmap, lookup_seq_lt by (apply lookup_lt_Some in Hc; exact Hc).
    cbn [fmap option_fmap option_map]. f_equal.
    assert (Hcell : (source_id cl, c, value cl) ∈ cells).
    { unfold cells. apply (list_elem_of_lookup_2 _ c). rewrite list_lookup_imap, Hc.
      reflexivity. }
    destruct (decide (source_id cl = s)) as [<-|Hne].
    + rewrite (elem_of_list_to_map_1 cells (source_id cl, c) (value cl) Hnd Hcell).
      reflexivity.
    + rewrite (not_elem_of_list_to_map_1 cells (s, c)); [reflexivity|].
      intros Hin. apply list_elem_of_fmap in Hin. destruct Hin as (cell & Hk & Hin).
      unfold cells in Hin. apply list_elem_of_lookup in Hin. destruct Hin as (j & Hj).
      rewrite list_lookup_imap in Hj. destruct (df !! j) as [cl'|] eqn:Hj'; [|discriminate].
      simpl in Hj. injection Hj as <-. simpl in Hk. injection Hk as Hs1 Hs2.
      subst j. congruence.
Qed.

Lemma observation_matrix_entries_witness :
  exists B,
    compute_observation_matrix fixtureA = Ok B
    /\ B !! 1%nat ≫= (fun row => row !! 2%nat) = Some (of_nat 3)
    /\ B !! 1%nat ≫= (fun row => row !! 0%nat) = Some (Fin (-1)).
Proof.
  destruct (observation_matrix_entries fixtureA) as (B & HB & _ & _ & H);
    [discriminate|].
  exists B. split; [exact HB|]. split.
  - apply (H 1%nat 1%nat 2%nat (Claim 1 1 3)); reflexivity.
  - apply (H 1%nat 1%nat 0%nat (Claim 0 0 0)); reflexivity.
Defined.

End EM_matrices.

(** ** Objects with a single value in the grouped variational variant *)

(** X24: an object for which every claim asserts the value 0 has a domain
    of size one, and the claim probabilities that the model of
    [simpleLCA_VI] computes for it are not finite numbers: on an object built
    from a table with dense source identifiers, [compute_observed_probs]
    returns for such an object at least one row, and every row is a single
    entry that is not a finite number. *)
Theorem single_value_object_not_finite (sigmoid : float -> float)
    (honest_logits_p : ndarray) (claims : DataFrame) (self : simpleLCA_VI.ds)
    (o truth : nat) :
  simpleLCA_VI.build_ds claims = Ok self ->
  dense (source_id <$> claims) ->
  length honest_logits_p = simpleLCA_VI.n_sources self ->
  (o < simpleLCA_VI.n_objects self)%nat ->
  (forall c, c ∈ claims -> object_id c = o -> value c = 0%nat) ->
  exists probs,
    simpleLCA_VI.compute_observed_probs sigmoid honest_logits_p self o truth = Ok probs
    /\ probs <> []
    /\ forall row, row ∈ probs -> row = [NaN].
Proof.
  intros H Hdense Hlen Ho Hzero.
  destruct (observed_probs_rows sigmoid honest_logits_p claims self o truth
              H Hdense Hlen Ho)
    as (probs & sources & vals & d & H1 & H2 & H3 & H4 & H5 & H6 & H7 & _).
  destruct (build_ds_inv claims self H) as (idx & Hidx & Hself).
  assert (Hdo : simpleLCA_VI.domain_size self
                = (fun m => m + 1)%nat <$> groupby_max_value claims)
    by (rewrite Hself; reflexivity).
  assert (Hin : o ∈ object_id <$> claims).
  { destruct (decide (o ∈ object_id <$> claims)) as [|Hn]; [assumption|].
    rewrite Hdo, lookup_fmap, (groupby_max_value_None claims o Hn) in H4. discriminate. }
  destruct (groupby_max_value_Some claims o Hin) as (m & Hm & (c & Hc & Hco & Hcv) & _).
  assert (d = 1%nat) as ->.
  { rewrite Hdo, lookup_fmap, Hm in H4. simpl in H4.
    rewrite <- Hcv, (Hzero c Hc Hco) in H4. injection H4 as <-. reflexivity. }
  assert (Hsrc : sources <> []).
  { assert (Hos : simpleLCA_VI.object_to_sources self
                  = simpleLCA_VI.build_object_to_sources claims)
      by (rewrite Hself; reflexivity).
    destruct (proj1 (object_to_sources_lookup claims o) Hin) as (rows & Hperm & _ & Hs & _).
    rewrite Hos, Hs in H2. injection H2 as <-.
    assert (Hcr : c ∈ rows) by (rewrite Hperm; apply list_elem_of_filter; auto).
    intros Hnil. apply fmap_nil_inv in Hnil. rewrite Hnil in Hcr. inversion Hcr. }
  exists probs. split; [exact H1|]. split.
  - intros ->. simpl in H5. destruct sources; [congruence|]. simpl in H6. lia.
  - intros row Hrow. apply list_elem_of_lookup in Hrow. destruct Hrow as (i & Hi).
    assert (Hlt : (i < length sources)%nat).
    { rewrite H6, <- H5. apply lookup_lt_Some in Hi. exact Hi. }
    apply lookup_lt_is_Some in Hlt. destruct Hlt as (s & Hs).
    destruct (H7 i s Hs) as (logit & _ & Hp). rewrite Hp in Hi. injection Hi as <-.
    destruct (sigmoid logit); [destruct truth|destruct truth]; reflexivity.
Qed.

Lemma single_value_object_not_finite_witness :
  exists self probs,
    simpleLCA_VI.build_ds [Claim 0 0 0; Claim 1 0 0] = Ok self
    /\ simpleLCA_VI.compute_observed_probs (fun _ => Fin (1 # 2)) [Fin 0; Fin 0] self 0 0
       = Ok probs
    /\ probs <> [].
Proof.
  destruct (simpleLCA_VI.build_ds [Claim 0 0 0; Claim 1 0 0]) as [self|] eqn:E;
    [|vm_compute in E; discriminate].
  destruct (single_value_object_not_finite (fun _ => Fin (1 # 2)) [Fin 0; Fin 0]
              [Claim 0 0 0; Claim 1 0 0] self 0 0 E) as (probs & H1 & H2 & _).
  - intros i Hi. assert (Hi' : (i < 2)%nat) by exact Hi.
    destruct i as [|[|i]]; [| |lia]; simpl.
    + left.
    + right. left.
  - destruct (build_ds_inv _ _ E) as (idx & _ & ->). reflexivity.
  - destruct (build_ds_inv _ _ E) as (idx & _ & ->). vm_compute. lia.
  - intros c Hc _. repeat (apply elem_of_cons in Hc; destruct Hc as [->|Hc]);
      [reflexivity | reflexivity | inversion Hc].
  - exists self, probs. auto.
Defined.

(** ** The EM variant: repeated steps *)

Section EM_repeated.

Import simpleLCA_EM EM_read.

(** X25: the E-step reads the prior, the weights, the values and
    [theta_old] only, and the M-step reads the weights, the values and the
    posteriors only: in every state of an object, an E-step that is repeated
    changes nothing, and neither does a repeated M-step. *)
Theorem steps_idempotent (df : DataFrame) (self s1 s2 : t) :
  reachable df self -> e_step self = Ok s1 -> m_step s1 = Ok s2 ->
  e_step s1 = Ok s1 /\ m_step s2 = Ok s2.
Proof.
  intros Hr E1 E2.
  pose proof (reachable_wf df self Hr) as Hwf.
  destruct (e_step_wf self s1 Hwf E1) as [Hwf1 Hpc1].
  destruct (e_step_eq self Hwf) as (pm & E1' & Hpm & Hpm').
  assert (s1 = set_posterior self pm) as Hs1 by congruence.
  split.
  - destruct (e_step_eq s1 Hwf1) as (pm' & E1'' & Hpm2 & Hpm2').
    rewrite E1''. f_equal.
    assert (pm' = pm) as ->.
    { apply map_eq. intros o. destruct (decide (o < n_objects self)%nat) as [Ho|Ho].
      - rewrite Hs1 in Hpm2. rewrite (Hpm2 o Ho), (Hpm o Ho). reflexivity.
      - rewrite Hs1 in Hpm2'. rewrite (Hpm2' o ltac:(cbn [set_posterior n_objects]; lia)).
        reflexivity. }
    rewrite Hs1. reflexivity.
  - pose proof (m_step_eq s1 Hwf1 Hpc1) as E2'.
    assert (Hs2 : s2 = set_heap s1 (update (heap s1) (theta_new s1)
                                      (new_theta s1 <$> range (n_sources s1))))
      by congruence.
    destruct (m_step_inv s1 s2 Hwf1 E2) as (Hwf2 & _).
    pose proof (posterior_complete_m_step s1 s2 Hwf1 Hpc1 E2) as Hpc2.
    rewrite (m_step_eq s2 Hwf2 Hpc2). f_equal. rewrite Hs2.
    rewrite set_heap_set_heap, heap_set_heap, theta_new_set_heap, update_update.
    reflexivity.
Qed.

Lemma steps_idempotent_witness :
  exists self s1 s2,
    init fixtureA = Ok self /\ e_step self = Ok s1 /\ m_step s1 = Ok s2
    /\ e_step s1 = Ok s1 /\ m_step s2 = Ok s2.
Proof.
  destruct (init fixtureA) as [self|] eqn:E; [|vm_compute in E; discriminate].
  destruct (e_step self) as [s1|] eqn:E1;
    [|vm_compute in E; injection E as <-; vm_compute in E1; discriminate].
  destruct (m_step s1) as [s2|] eqn:E2;
    [|vm_compute in E; injection E as <-; vm_compute in E1; injection E1 as <-;
      vm_compute in E2; discriminate].
  exists self, s1, s2. split; [reflexivity|]. split; [exact E1|]. split; [exact E2|].
  apply (steps_idempotent fixtureA self s1 s2); [|exact E1|exact E2].
  apply reach_init. exact E.
Defined.

End EM_repeated.

(** ** The model and the guide of the per-claim variational variant *)

Lemma series_index_domain_sizes (df : DataFrame) :
  LCA.series_index ((fun m => m + 1)%nat <$> groupby_max_value df)
  = sorted_unique (object_id <$> df).
Proof.
  unfold LCA.series_index. apply (Sorted_unique le).
  - apply (Sorted_merge_sort le).
  - apply StronglySorted_lt_le, sorted_unique_sorted.
  - rewrite merge_sort_Permutation.
    apply NoDup_Permutation; [apply NoDup_fst_map_to_list | apply NoDup_sorted_unique|].
    intros k. rewrite elem_of_sorted_unique, list_elem_of_fmap. split.
    + intros ([k' d] & -> & Hin). apply elem_of_map_to_list in Hin. simpl.
      destruct (decide (k' ∈ object_id <$> df)) as [|Hn]; [assumption|].
      rewrite lookup_fmap, (groupby_max_value_None df k' Hn) in Hin. discriminate.
    + intros Hk. destruct (groupby_max_value_Some df k Hk) as (mx & Hmx & _).
      exists (k, (mx + 1)%nat). split; [reflexivity|]. apply elem_of_map_to_list.
      rewrite lookup_fmap, Hmx. reflexivity.
Qed.

Lemma initialize_inv (self self' : LCA.t) :
  LCA._initialize self = Ok self' ->
  exists ps qs,
    LCA.object_probs ((fun m => m + 1)%nat <$> groupby_max_value (LCA.claims self))
      (sorted_unique (object_id <$> LCA.claims self)) "_p" = Ok ps
    /\ LCA.object_probs ((fun m => m + 1)%nat <$> groupby_max_value (LCA.claims self))
         (sorted_unique (object_id <$> LCA.claims self)) "_q" = Ok qs
    /\ self'
       = LCA.Build (LCA.claims self) (nunique (source_id <$> LCA.claims self))
           (nunique (object_id <$> LCA.claims self))
           ((fun m => m + 1)%nat <$> groupby_max_value (LCA.claims self))
           (([TfVariable "honest_probs_p"
                (scale fmul (ones (nunique (source_id <$> LCA.claims self))) (Fin 0.5))]
             ++ ps)
            ++ [TfVariable "honest_probs_q"
                  (scale fmul (ones (nunique (source_id <$> LCA.claims self))) (Fin 0.5))]
            ++ qs)
           (Some (TfVariable "honest_probs_p"
                    (scale fmul (ones (nunique (source_id <$> LCA.claims self)))
                       (Fin 0.5))))
           ps
           (Some (TfVariable "honest_probs_q"
                    (scale fmul (ones (nunique (source_id <$> LCA.claims self)))
                       (Fin 0.5))))
           qs (LCA.observation self) (LCA.observed_model self).
Proof.
  unfold LCA._initialize, LCA._compute_prob_desc. intros H.
  destruct (LCA.object_probs _ _ "_p") as [ps|] eqn:Hp; [|discriminate].
  cbn [mbind result_bind] in H.
  destruct (LCA.object_probs _ _ "_q") as [qs|] eqn:Hq; [|discriminate].
  cbn [mbind result_bind] in H. injection H as <-.
  exists ps, qs. split; [reflexivity|]. split; [reflexivity|].
  unfold LCA._register. rewrite <- !app_assoc. reflexivity.
Qed.

Lemma foldl_pair_snoc {A B C} (a : A -> B) (b : A -> C) (l : list A)
    (t0 : list B) (z0 : list C) :
  foldl (fun (st : list B * list C) x => (st.1 ++ [a x], st.2 ++ [b x])) (t0, z0) l
  = (t0 ++ (a <$> l), z0 ++ (b <$> l)).
Proof.
  revert t0 z0. induction l as [|x l IH]; intros t0 z0; [rewrite !app_nil_r; reflexivity|].
  cbn [foldl fst snd]. rewrite IH, !fmap_cons, <- !app_assoc. reflexivity.
Qed.

(** The variables that [object_probs] creates, by position, on dense
    object identifiers. *)
Lemma object_probs_dense (df : DataFrame) (suffix : string) (vars : list tf_Variable)
    (m : nat) :
  dense (object_id <$> df) ->
  LCA.object_probs ((fun m => m + 1)%nat <$> groupby_max_value df)
    (sorted_unique (object_id <$> df)) suffix = Ok vars ->
  (m < nunique (object_id <$> df))%nat ->
  exists mx,
    groupby_max_value df !! m = Some mx
    /\ vars !! m = Some (TfVariable ("truth_prob_" +:+ pretty m +:+ suffix)
                           (scale fdiv (ones (mx + 1)) (of_nat (mx + 1)))).
Proof.
  intros Hdense Hvars Hm.
  destruct (object_probs_lookup df suffix) as (vars' & Hvars' & Hall).
  assert (vars' = vars) as -> by congruence.
  assert (Hidx : sorted_unique (object_id <$> df) !! m = Some m).
  { rewrite (dense_sorted_unique _ Hdense). apply lookup_seq_lt. exact Hm. }
  destruct (Forall2_lookup_l _ _ _ _ _ Hall Hidx) as (var & Hvar & mx & Hmx & ->).
  exists mx. auto.
Qed.

(** A run of [model] and a run of [mean_field_model] on an initialised
    object with dense identifiers: the declarations made, in order. *)
Lemma model_run (value_of : string -> nat) (self self' : LCA.t) :
  LCA._initialize self = Ok self' ->
  dense (object_id <$> LCA.claims self) -> dense (source_id <$> LCA.claims self) ->
  let df := LCA.claims self in
  let dz := fun m => default 0%nat (LCA.domain_sizes self' !! m) in
  let honest := scale fmul (ones (nunique (source_id <$> df))) (Fin 0.5) in
  let zdecl := fun m =>
    LCA.DeclCategorical ("z_truth_" +:+ pretty m)
      (scale fdiv (ones (dz m)) (of_nat (dz m))) in
  let xdecl := fun c : nat * claim =>
    LCA.DeclCategorical ("x_claim_" +:+ pretty c.1)
      (LCA._build_claim_probs (Fin (1 * 0.5)) (dz (object_id c.2))
         (value_of ("z_truth_" +:+ pretty (object_id c.2)))) in
  LCA.model value_of self' (TfVariable "honest_probs_p" honest)
  = Ok (LCA.DeclBernoulli "z_trusts" honest
        :: (zdecl <$> seq 0 (nunique (object_id <$> df)))
        ++ (xdecl <$> imap (fun c row => (c, row)) df))
  /\ LCA.mean_field_model self' (TfVariable "honest_probs_q" honest)
     = Ok (LCA.DeclBernoulli "z_trusts" honest
           :: (zdecl <$> seq 0 (nunique (object_id <$> df)))).
Proof.
  intros Hinit Hdo Hds df dz honest zdecl xdecl.
  destruct (initialize_inv self self' Hinit) as (ps & qs & Hps & Hqs & Hself).
  fold df in Hps, Hqs, Hself.
  assert (Hdom : LCA.domain_sizes self' = (fun m => m + 1)%nat <$> groupby_max_value df)
    by (rewrite Hself; reflexivity).
  assert (Hidx : LCA.series_index (LCA.domain_sizes self')
                 = seq 0 (nunique (object_id <$> df))).
  { rewrite Hdom, series_index_domain_sizes. apply dense_sorted_unique. exact Hdo. }
  assert (Hz : forall (suffix : string) vars m,
            LCA.object_probs ((fun m => m + 1)%nat <$> groupby_max_value df)
              (sorted_unique (object_id <$> df)) suffix = Ok vars ->
            m ∈ seq 0 (nunique (object_id <$> df)) ->
            exists var, vars !! m = Some var
                        /\ LCA.DeclCategorical ("z_truth_" +:+ pretty m) (initial_value var)
                           = zdecl m).
  { intros suffix vars m Hvars Hm. apply elem_of_seq in Hm.
    destruct (object_probs_dense df suffix vars m Hdo Hvars ltac:(lia)) as (mx & Hmx & Hv).
    eexists. split; [exact Hv|]. unfold zdecl, dz. rewrite Hdom, lookup_fmap, Hmx.
    reflexivity. }
  split.
  - unfold LCA.model. rewrite Hidx.
    rewrite (for_each_pure _
               (fun (st : list LCA.declaration * list string) m =>
                  (st.1 ++ [zdecl m], st.2 ++ ["z_truth_" +:+ pretty m]))).
    2:{ intros m st Hm. replace (LCA.object_probs_p self') with ps by (rewrite Hself; reflexivity).
        destruct (Hz "_p" ps m Hps Hm) as (var & Hvar & Hdecl).
        rewrite (item_Ok _ _ _ Hvar). cbn [mbind result_bind]. rewrite Hdecl. reflexivity. }
    rewrite foldl_pair_snoc. cbn [mbind result_bind app].
    replace (LCA.claims self') with df by (rewrite Hself; reflexivity).
    rewrite (for_each_pure _
               (fun (st : list LCA.declaration * list string) c =>
                  (st.1 ++ [xdecl c], st.2 ++ ["x_claim_" +:+ pretty c.1]))).
    2:{ intros [c row] st Hc. cbn [fst snd].
        apply list_elem_of_lookup in Hc. destruct Hc as (i & Hi).
        rewrite list_lookup_imap in Hi. destruct (df !! i) as [row'|] eqn:Hrow; [|discriminate].
        assert (c = i /\ row = row') as [-> ->] by (simpl in Hi; split; congruence).
        clear Hi.
        assert (Hin : row' ∈ LCA.claims self').
        { rewrite Hself. cbn [LCA.claims]. eapply list_elem_of_lookup_2. exact Hrow. }
        assert (Hin' : row' ∈ df) by (eapply list_elem_of_lookup_2; exact Hrow).
        assert (Ho : (object_id row' < nunique (object_id <$> df))%nat).
        { apply (dense_elem_of _ _ Hdo). apply list_elem_of_fmap_2. exact Hin'. }
        assert (Hs : (source_id row' < nunique (source_id <$> df))%nat).
        { apply (dense_elem_of _ _ Hds). apply list_elem_of_fmap_2. exact Hin'. }
        rewrite (item_Ok _ (object_id row') ("z_truth_" +:+ pretty (object_id row'))).
        2:{ rewrite list_lookup_fmap, lookup_seq_lt by exact Ho. reflexivity. }
        cbn [mbind result_bind initial_value].
        rewrite (item_Ok _ (source_id row') (Fin (1 * 0.5))).
        2:{ unfold honest, scale, ones. rewrite list_lookup_fmap, lookup_replicate_2 by exact Hs.
            reflexivity. }
        cbn [mbind result_bind].
        destruct (groupby_max_value_Some df (object_id row')) as (mx & Hmx & _);
          [apply list_elem_of_fmap_2; exact Hin'|].
        assert (Hd : LCA.domain_sizes self' !! object_id row' = Some (mx + 1)%nat)
          by (rewrite Hdom, lookup_fmap, Hmx; reflexivity).
        rewrite (getitem_Ok _ _ _ Hd). cbn [mbind result_bind].
        unfold xdecl, dz. cbn [fst snd]. rewrite Hd. reflexivity. }
    rewrite foldl_pair_snoc. reflexivity.
  - unfold LCA.mean_field_model. rewrite Hidx.
    rewrite (for_each_pure _ (fun (trace : list LCA.declaration) m => trace ++ [zdecl m])).
    2:{ intros m st Hm. replace (LCA.object_probs_q self') with qs by (rewrite Hself; reflexivity).
        destruct (Hz "_q" qs m Hqs Hm) as (var & Hvar & Hdecl).
        rewrite (item_Ok _ _ _ Hvar). cbn [mbind result_bind]. rewrite Hdecl. reflexivity. }
    rewrite foldl_snoc_fmap. reflexivity.
Qed.

(** X26: on an object that [_initialize] has set up from a table with dense
    source and object identifiers, a run of [model] declares, in this order,
    [z_trusts] with the honesty variable, one [z_truth_m] per object with the
    uniform vector over its domain, and one [x_claim_c] per claim, whose
    probabilities are [_build_claim_probs] of the honesty 0.5 of the claim's
    source, the domain size of its object and the value taken by the
    object's [z_truth_m]. Every claim variable is a key of the observation
    that [_make_observation] builds, with the claimed value, and that value
    lies below the domain size. *)
Theorem model_declarations (value_of : string -> nat) (self self' : LCA.t)
    (hp : tf_Variable) :
  LCA._initialize self = Ok self' -> LCA.honest_probs_p self' = Some hp ->
  dense (object_id <$> LCA.claims self) -> dense (source_id <$> LCA.claims self) ->
  exists trace,
    LCA.model value_of self' hp = Ok trace
    /\ length trace = (1 + LCA.n_objects self' + length (LCA.claims self'))%nat
    /\ trace !! 0%nat = Some (LCA.DeclBernoulli "z_trusts" (initial_value hp))
    /\ (forall m, (m < LCA.n_objects self')%nat ->
          exists d,
            LCA.domain_sizes self' !! m = Some d
            /\ trace !! (1 + m)%nat
               = Some (LCA.DeclCategorical ("z_truth_" +:+ pretty m)
                         (replicate d (Fin (1 / inject_Z (Z.of_nat d))))))
    /\ (forall c row, LCA.claims self' !! c = Some row ->
          exists h d,
            initial_value hp !! source_id row = Some h /\ h ≡ Fin 0.5
            /\ LCA.domain_sizes self' !! object_id row = Some d
            /\ (value row < d)%nat
            /\ trace !! (1 + LCA.n_objects self' + c)%nat
               = Some (LCA.DeclCategorical ("x_claim_" +:+ pretty c)
                         (LCA._build_claim_probs h d
                            (value_of ("z_truth_" +:+ pretty (object_id row)))))
            /\ LCA._make_observation self' !! ("x_claim_" +:+ pretty c)
               = Some (value row)).
Proof.
  intros Hinit Hhp Hdo Hds.
  destruct (model_run value_of self self' Hinit Hdo Hds) as [Hrun _]. cbv zeta in Hrun.
  destruct (initialize_inv self self' Hinit) as (ps & qs & Hps & Hqs & Hself).
  set (df := LCA.claims self) in *.
  assert (Hdom : LCA.domain_sizes self' = (fun m => m + 1)%nat <$> groupby_max_value df)
    by (rewrite Hself; reflexivity).
  assert (Hno : LCA.n_objects self' = nunique (object_id <$> df))
    by (rewrite Hself; reflexivity).
  assert (Hcl : LCA.claims self' = df) by (rewrite Hself; reflexivity).
  assert (hp = TfVariable "honest_probs_p"
                 (scale fmul (ones (nunique (source_id <$> df))) (Fin 0.5))) as ->.
  { rewrite Hself in Hhp. cbn [LCA.honest_probs_p] in Hhp. congruence. }
  eexists. split; [exact Hrun|]. rewrite Hno, Hcl. split; [|split; [reflexivity|split]].
  - cbn [length]. rewrite length_app, !length_fmap, length_seq, length_imap. lia.
  - intros m Hm.
    destruct (groupby_max_value_Some df m) as (mx & Hmx & _);
      [apply (dense_elem_of _ _ Hdo); exact Hm|].
    exists (mx + 1)%nat. rewrite Hdom, lookup_fmap, Hmx. split; [reflexivity|].
    change (1 + m)%nat with (S m). rewrite lookup_cons_ne_0 by lia. cbn [Nat.pred].
    rewrite lookup_app_l by (rewrite length_fmap, length_seq; exact Hm).
    rewrite list_lookup_fmap, lookup_seq_lt by exact Hm.
    cbn [fmap option_fmap option_map Nat.add]. rewrite lookup_fmap, Hmx.
    cbn [fmap option_fmap option_map default].
    rewrite <- (uniform_prior (mx + 1)) by lia. reflexivity.
  - intros c row Hrow.
    assert (Hin : row ∈ df) by (eapply list_elem_of_lookup_2; exact Hrow).
    assert (Hs : (source_id row < nunique (source_id <$> df))%nat).
    { apply (dense_elem_of _ _ Hds). apply list_elem_of_fmap_2. exact Hin. }
    destruct (groupby_max_value_Some df (object_id row)) as (mx & Hmx & _ & Hmax);
      [apply list_elem_of_fmap_2; exact Hin|].
    exists (Fin (1 * 0.5)), (mx + 1)%nat. cbn [initial_value].
    split.
    { unfold scale, ones. rewrite list_lookup_fmap, lookup_replicate_2 by exact Hs.
      reflexivity. }
    split; [apply Fin_equiv; ring|].
    split; [rewrite Hdom, lookup_fmap, Hmx; reflexivity|].
    split; [specialize (Hmax row Hin eq_refl); lia|].
    split.
    + replace (1 + nunique (object_id <$> df) + c)%nat
        with (S (length ((fun m =>
                LCA.DeclCategorical ("z_truth_" +:+ pretty m)
                  (scale fdiv (ones (default 0%nat (LCA.domain_sizes self' !! m)))
                     (of_nat (default 0%nat (LCA.domain_sizes self' !! m)))))
               <$> seq 0 (nunique (object_id <$> df))) + c))
        by (rewrite length_fmap, length_seq; lia).
      rewrite lookup_cons_ne_0 by lia. cbn [Nat.pred]. rewrite lookup_app_r by lia.
      replace (length _ + c - length _)%nat with c by lia.
      rewrite list_lookup_fmap, list_lookup_imap, Hrow.
      cbn [fmap option_fmap option_map fst snd].
      rewrite Hdom, lookup_fmap, Hmx. reflexivity.
    + unfold LCA._make_observation. rewrite Hcl.
      destruct (observation_foldl (fun c => c) df ∅) as (Hobs & _);
        [intros x y Hxy; exact Hxy|].
      apply (Hobs c row Hrow).
Qed.

Lemma model_declarations_witness :
  exists self' hp trace,
    LCA._initialize (LCA.Build fixtureA 0 0 ∅ [] None [] None [] ∅ None) = Ok self'
    /\ LCA.model (fun _ => 1%nat) self' hp = Ok trace
    /\ length trace = 9%nat.
Proof.
  destruct (LCA._initialize (LCA.Build fixtureA 0 0 ∅ [] None [] None [] ∅ None))
    as [self'|] eqn:E; [|vm_compute in E; discriminate].
  destruct (initialize_inv _ _ E) as (ps & qs & _ & _ & Hself).
  destruct (model_declarations (fun _ => 1%nat) _ self'
              (TfVariable "honest_probs_p"
                 (scale fmul (ones (nunique (source_id <$> fixtureA))) (Fin 0.5))) E)
    as (trace & H1 & H2 & _).
  - rewrite Hself. reflexivity.
  - intros i Hi. assert (Hi' : (i < 3)%nat) by exact Hi.
    destruct i as [|[|[|i]]]; [| | |lia]; unfold fixtureA; simpl.
    + left.
    + right. left.
    + do 4 right. left.
  - intros i Hi. assert (Hi' : (i < 3)%nat) by exact Hi.
    destruct i as [|[|[|i]]]; [| | |lia]; unfold fixtureA; simpl.
    + left.
    + do 2 right. left.
    + do 4 right. left.
  - eexists self', _, trace. split; [reflexivity|]. split; [exact H1|].
    rewrite H2, Hself. reflexivity.
Defined.

Lemma for_each_IndexError {A S} (P : A -> Prop) `{!forall x, Decision (P x)}
    (l : list A) (body : A -> S -> result S) (s : S) :
  (forall x s, P x -> exists s', body x s = Ok s') ->
  (forall x s, ~ P x -> body x s = Raise IndexError) ->
  Exists (fun x => ~ P x) l ->
  for_each l body s = Raise IndexError.
Proof.
  intros Hok Hraise Hex. revert s. induction l as [|x l IH]; intros s; [inversion Hex|].
  cbn [for_each]. destruct (decide (P x)) as [HP|HP].
  - destruct (Hok x s HP) as (s' & ->). cbn [mbind result_bind]. apply IH.
    inversion Hex as [? ? Hx|? ? Hx]; subst; [contradiction | exact Hx].
  - rewrite (Hraise x s HP). reflexivity.
Qed.

Lemma not_dense_label (ids : list nat) :
  ~ dense ids -> Exists (fun m => ~ (m < nunique ids)%nat) (sorted_unique ids).
Proof.
  intros Hnd.
  destruct (decide (Exists (fun m => ~ (m < nunique ids)%nat) (sorted_unique ids)))
    as [|Hn]; [assumption|].
  exfalso. apply Hnd. intros i Hi.
  assert (Hsub : forall k, k ∈ sorted_unique ids -> k ∈ seq 0 (nunique ids)).
  { intros k Hk. apply elem_of_seq.
    destruct (decide (k < nunique ids)%nat) as [|Hge]; [lia|].
    exfalso. apply Hn. apply Exists_exists. exists k. auto. }
  apply NoDup_submseteq in Hsub; [|apply NoDup_sorted_unique].
  apply submseteq_length_Permutation in Hsub;
    [|rewrite length_seq, length_sorted_unique; lia].
  apply elem_of_sorted_unique. rewrite Hsub. apply elem_of_seq. lia.
Qed.

(** X27: [model] and [mean_field_model] look the per-object variables up
    by position under the object identifier: when the object identifiers of
    the table are not dense and zero-based, both procedures raise
    [IndexError] on the initialised object, at the first identifier that is
    not below the number of objects. *)
Theorem model_needs_dense_objects (value_of : string -> nat) (self self' : LCA.t)
    (hp hq : tf_Variable) :
  LCA._initialize self = Ok self' ->
  ~ dense (object_id <$> LCA.claims self) ->
  LCA.model value_of self' hp = Raise IndexError
  /\ LCA.mean_field_model self' hq = Raise IndexError.
Proof.
  intros Hinit Hnd.
  destruct (initialize_inv self self' Hinit) as (ps & qs & Hps & Hqs & Hself).
  set (df := LCA.claims self) in *.
  assert (Hidx : LCA.series_index (LCA.domain_sizes self')
                 = sorted_unique (object_id <$> df)).
  { rewrite Hself. cbn [LCA.domain_sizes]. apply series_index_domain_sizes. }
  assert (Hlen : forall (suffix : string) vars,
            LCA.object_probs ((fun m => m + 1)%nat <$> groupby_max_value df)
              (sorted_unique (object_id <$> df)) suffix = Ok vars ->
            length vars = nunique (object_id <$> df)).
  { intros suffix vars Hvars.
    destruct (object_probs_lookup df suffix) as (vars' & Hvars' & Hall).
    assert (vars' = vars) as -> by congruence.
    rewrite <- (Forall2_length _ _ _ Hall). apply length_sorted_unique. }
  pose proof (not_dense_label _ Hnd) as Hex.
  split.
  - unfold LCA.model. rewrite Hidx.
    rewrite (for_each_IndexError (fun m => (m < nunique (object_id <$> df))%nat));
      [reflexivity| | |exact Hex].
    + intros m st Hm. replace (LCA.object_probs_p self') with ps by (rewrite Hself; reflexivity).
      destruct (lookup_lt_is_Some_2 ps m) as (var & Hvar); [rewrite (Hlen "_p" ps Hps); exact Hm|].
      rewrite (item_Ok _ _ _ Hvar). eexists. reflexivity.
    + intros m st Hm. replace (LCA.object_probs_p self') with ps by (rewrite Hself; reflexivity).
      unfold item. rewrite lookup_ge_None_2; [reflexivity|].
      rewrite (Hlen "_p" ps Hps). lia.
  - unfold LCA.mean_field_model. rewrite Hidx.
    apply (for_each_IndexError (fun m => (m < nunique (object_id <$> df))%nat));
      [| |exact Hex].
    + intros m st Hm. replace (LCA.object_probs_q self') with qs by (rewrite Hself; reflexivity).
      destruct (lookup_lt_is_Some_2 qs m) as (var & Hvar); [rewrite (Hlen "_q" qs Hqs); exact Hm|].
      rewrite (item_Ok _ _ _ Hvar). eexists. reflexivity.
    + intros m st Hm. replace (LCA.object_probs_q self') with qs by (rewrite Hself; reflexivity).
      unfold item. rewrite lookup_ge_None_2; [reflexivity|].
      rewrite (Hlen "_q" qs Hqs). lia.
Qed.

Lemma model_needs_dense_objects_witness :
  exists self' hp,
    LCA._initialize (LCA.Build [Claim 0 1 0] 0 0 ∅ [] None [] None [] ∅ None) = Ok self'
    /\ LCA.honest_probs_p self' = Some hp
    /\ LCA.model (fun _ => 0%nat) self' hp = Raise IndexError.
Proof.
  destruct (LCA._initialize (LCA.Build [Claim 0 1 0] 0 0 ∅ [] None [] None [] ∅ None))
    as [self'|] eqn:E; [|vm_compute in E; discriminate].
  destruct (initialize_inv _ _ E) as (ps & qs & _ & _ & Hself).
  eexists self', _. split; [reflexivity|]. split; [rewrite Hself; reflexivity|].
  refine (proj1 (model_needs_dense_objects (fun _ => 0%nat) _ self' _
                   (TfVariable "honest_probs_q" []) E _)).
  intros Hd. specialize (Hd 0%nat). cbn [LCA.claims] in Hd. simpl in Hd.
  assert (H0 : (0 < nunique [1%nat])%nat) by (vm_compute; lia).
  specialize (Hd H0). apply list_elem_of_singleton in Hd. discriminate.
Defined.

(** X28: on an object that [_initialize] has set up from a table with dense
    identifiers, the guide [mean_field_model] declares exactly the latent
    variables of [model]: [z_trusts] and one [z_truth_m] per object, under
    the same names, in the same order and, before any training step, with
    the same parameters; the declarations of the guide are the first
    [1 + n_objects] declarations of the model. *)
Theorem guide_declares_model_latents (value_of : string -> nat)
    (self self' : LCA.t) (hp hq : tf_Variable) :
  LCA._initialize self = Ok self' ->
  LCA.honest_probs_p self' = Some hp -> LCA.honest_probs_q self' = Some hq ->
  dense (object_id <$> LCA.claims self) -> dense (source_id <$> LCA.claims self) ->
  exists trace guide,
    LCA.model value_of self' hp = Ok trace
    /\ LCA.mean_field_model self' hq = Ok guide
    /\ guide = take (1 + LCA.n_objects self') trace
    /\ length guide = (1 + LCA.n_objects self')%nat.
Proof.
  intros Hinit Hhp Hhq Hdo Hds.
  destruct (model_run value_of self self' Hinit Hdo Hds) as [Hrun Hguide].
  cbv zeta in Hrun, Hguide.
  destruct (initialize_inv self self' Hinit) as (ps & qs & _ & _ & Hself).
  set (df := LCA.claims self) in *.
  assert (Hno : LCA.n_objects self' = nunique (object_id <$> df))
    by (rewrite Hself; reflexivity).
  assert (hp = TfVariable "honest_probs_p"
                 (scale fmul (ones (nunique (source_id <$> df))) (Fin 0.5))) as ->.
  { rewrite Hself in Hhp. cbn [LCA.honest_probs_p] in Hhp. congruence. }
  assert (hq = TfVariable "honest_probs_q"
                 (scale fmul (ones (nunique (source_id <$> df))) (Fin 0.5))) as ->.
  { rewrite Hself in Hhq. cbn [LCA.honest_probs_q] in Hhq. congruence. }
  eexists _, _. split; [exact Hrun|]. split; [exact Hguide|]. rewrite Hno. split.
  - change (1 + nunique (object_id <$> df))%nat with (S (nunique (object_id <$> df))).
    cbn [take]. f_equal. rewrite take_app_length'; [reflexivity|].
    rewrite length_fmap, length_seq. reflexivity.
  - cbn [length]. rewrite length_fmap, length_seq. reflexivity.
Qed.

Lemma guide_declares_model_latents_witness :
  exists self' hp hq trace guide,
    LCA._initialize (LCA.Build fixtureA 0 0 ∅ [] None [] None [] ∅ None) = Ok self'
    /\ LCA.model (fun _ => 1%nat) self' hp = Ok trace
    /\ LCA.mean_field_model self' hq = Ok guide
    /\ guide = take (1 + LCA.n_objects self') trace.
Proof.
  destruct (LCA._initialize (LCA.Build fixtureA 0 0 ∅ [] None [] None [] ∅ None))
    as [self'|] eqn:E; [|vm_compute in E; discriminate].
  destruct (initialize_inv _ _ E) as (ps & qs & _ & _ & Hself).
  destruct (guide_declares_model_latents (fun _ => 1%nat) _ self'
              (TfVariable "honest_probs_p"
                 (scale fmul (ones (nunique (source_id <$> fixtureA))) (Fin 0.5)))
              (TfVariable "honest_probs_q"
                 (scale fmul (ones (nunique (source_id <$> fixtureA))) (Fin 0.5))) E)
    as (trace & guide & H1 & H2 & H3 & _).
  - rewrite Hself. reflexivity.
  - rewrite Hself. reflexivity.
  - intros i Hi. assert (Hi' : (i < 3)%nat) by exact Hi.
    destruct i as [|[|[|i]]]; [| | |lia]; unfold fixtureA; simpl.
    + left.
    + right. left.
    + do 4 right. left.
  - intros i Hi. assert (Hi' : (i < 3)%nat) by exact Hi.
    destruct i as [|[|[|i]]]; [| | |lia]; unfold fixtureA; simpl.
    + left.
    + do 2 right. left.
    + do 4 right. left.
  - eexists self', _, _, trace, guide. split; [reflexivity|].
    split; [exact H1|]. split; [exact H2 | exact H3].
Defined.
